(** * The libwayland event dispatcher of [wayland.go], embedded in Rocq

    The development follows the Go source top down: the fragment of Go's
    type system and of package [reflect] the dispatcher relies on, the
    object types of the binding with their callback fields, the [Display]
    with its proxy table and method cache, and finally [dispatcher] itself,
    written in a small state-and-panic monad that also records the
    observable steps of a dispatch (reflective lookups, slot reads,
    calls).

    Platform assumptions, fixed once: a 64-bit little-endian target, so
    that [int] and [uint] are 64 bits wide, pointers are 64 bits wide and
    [len(C.union_wl_argument{})] is 8. *)

From Stdlib Require Import ZArith String Ascii List Lia.
From stdpp Require Import base option gmap strings list.

Local Open Scope string_scope.
Local Open Scope Z_scope.
Local Open Scope list_scope.

(** ** Go types *)

(** The types that occur in the callables of the binding, closed under
    type definition, pointer and slice formation. *)
Inductive GoType : Type :=
| TInt
| TInt32
| TUint
| TUint32
| TString
| TStruct (name : string)
| TDefined (name : string) (under : GoType)
| TPtr (elem : GoType)
| TSlice (elem : GoType).

#[global] Instance GoType_eq_dec : EqDecision GoType.
Proof. solve_decision. Defined.

(** [reflect.Kind], restricted to the fragment. *)
Inductive Kind : Type :=
| KInt | KInt32 | KUint | KUint32 | KString | KStruct | KPointer | KSlice.

#[global] Instance Kind_eq_dec : EqDecision Kind.
Proof. solve_decision. Defined.

Fixpoint underlying (t : GoType) : GoType :=
  match t with
  | TDefined _ u => underlying u
  | _ => t
  end.

Definition kind (t : GoType) : Kind :=
  match underlying t with
  | TInt => KInt
  | TInt32 => KInt32
  | TUint => KUint
  | TUint32 => KUint32
  | TString => KString
  | TStruct _ => KStruct
  | TDefined _ _ => KStruct
  | TPtr _ => KPointer
  | TSlice _ => KSlice
  end.

(** Predeclared and defined types have a name; pointer and slice literals
    do not. *)
Definition hasName (t : GoType) : bool :=
  match t with
  | TPtr _ | TSlice _ => false
  | _ => true
  end.

(** The types of the source. *)
Definition Output : GoType := TDefined "Output" TUint32.
Definition ShmFormat : GoType := TDefined "ShmFormat" TUint32.
Definition XdgToplevelDecorationMode : GoType :=
  TDefined "XdgToplevelDecorationMode" TUint32.
(** [C.wl_fixed_t]: cgo's defined type over [int32]. *)
Definition wl_fixed_t : GoType := TDefined "C.wl_fixed_t" TInt32.

(** A function type: the list of its parameter types ([Type.In]); none of
    the callables of the binding returns a value or is variadic. *)
Definition FuncType : Type := list GoType.

(** ** Fixed-width integers *)

Definition wrap_unsigned (bits n : Z) : Z := n mod 2 ^ bits.

Definition wrap_signed (bits n : Z) : Z :=
  (n + 2 ^ (bits - 1)) mod 2 ^ bits - 2 ^ (bits - 1).

(** ** Strings and UTF-8 *)

Definition byte_of_ascii (a : ascii) : Z := Z.of_N (N_of_ascii a).
Definition ascii_of_byte (b : Z) : ascii := ascii_of_N (Z.to_N b).

(** A rune literal of the source, as its code point. *)
Definition rune (a : ascii) : Z := byte_of_ascii a.

Fixpoint string_of_bytes (bs : list Z) : string :=
  match bs with
  | [] => EmptyString
  | b :: bs' => String (ascii_of_byte b) (string_of_bytes bs')
  end.

Fixpoint bytes_of_string (s : string) : list Z :=
  match s with
  | EmptyString => []
  | String a s' => byte_of_ascii a :: bytes_of_string s'
  end.

Definition RuneError : Z := 0xFFFD.
Definition MaxRune : Z := 0x10FFFF.

(** [utf8.AppendRune]: the encoding of a code point, U+FFFD for a
    surrogate half or a value out of range. *)
Definition encodeRune (r : Z) : list Z :=
  if (r <? 0) || (MaxRune <? r) || ((0xD800 <=? r) && (r <=? 0xDFFF)) then
    [0xEF; 0xBF; 0xBD]
  else if r <? 0x80 then [r]
  else if r <? 0x800 then
    [Z.lor 0xC0 (Z.shiftr r 6); Z.lor 0x80 (Z.land r 0x3F)]
  else if r <? 0x10000 then
    [Z.lor 0xE0 (Z.shiftr r 12);
     Z.lor 0x80 (Z.land (Z.shiftr r 6) 0x3F);
     Z.lor 0x80 (Z.land r 0x3F)]
  else
    [Z.lor 0xF0 (Z.shiftr r 18);
     Z.lor 0x80 (Z.land (Z.shiftr r 12) 0x3F);
     Z.lor 0x80 (Z.land (Z.shiftr r 6) 0x3F);
     Z.lor 0x80 (Z.land r 0x3F)].

(** The conversion [string(rune(x))]. *)
Definition string_of_rune (r : Z) : string := string_of_bytes (encodeRune r).

Definition is_cont (b : Z) : bool := (0x80 <=? b) && (b <=? 0xBF).

(** The runtime's [decoderune], used by [for _, c := range s]: the rune
    that starts at the head of [bs] and the number of bytes it takes.  Any
    malformed sequence yields [RuneError] and a width of one byte. *)
Definition decodeRune (bs : list Z) : Z * nat :=
  match bs with
  | [] => (RuneError, 1%nat)
  | b0 :: rest =>
    if b0 <? 0x80 then (b0, 1%nat)
    else if (0xC0 <=? b0) && (b0 <? 0xE0) then
      match rest with
      | b1 :: _ =>
        let r := Z.lor (Z.shiftl (Z.land b0 0x1F) 6) (Z.land b1 0x3F) in
        if is_cont b1 && (0x7F <? r) then (r, 2%nat) else (RuneError, 1%nat)
      | _ => (RuneError, 1%nat)
      end
    else if (0xE0 <=? b0) && (b0 <? 0xF0) then
      match rest with
      | b1 :: b2 :: _ =>
        let r := Z.lor (Z.lor (Z.shiftl (Z.land b0 0x0F) 12)
                              (Z.shiftl (Z.land b1 0x3F) 6))
                       (Z.land b2 0x3F) in
        if is_cont b1 && is_cont b2 && (0x7FF <? r)
           && negb ((0xD800 <=? r) && (r <=? 0xDFFF))
        then (r, 3%nat) else (RuneError, 1%nat)
      | _ => (RuneError, 1%nat)
      end
    else if (0xF0 <=? b0) && (b0 <? 0xF8) then
      match rest with
      | b1 :: b2 :: b3 :: _ =>
        let r := Z.lor (Z.lor (Z.lor (Z.shiftl (Z.land b0 0x07) 18)
                                     (Z.shiftl (Z.land b1 0x3F) 12))
                              (Z.shiftl (Z.land b2 0x3F) 6))
                       (Z.land b3 0x3F) in
        if is_cont b1 && is_cont b2 && is_cont b3
           && (0xFFFF <? r) && (r <=? MaxRune)
        then (r, 4%nat) else (RuneError, 1%nat)
      | _ => (RuneError, 1%nat)
      end
    else (RuneError, 1%nat)
  end.

(** The sequence of runes a [range] loop over the bytes [bs] visits.
    [skip] counts the continuation bytes of the rune decoded last that
    are still to be stepped over. *)
Fixpoint runes_from (skip : nat) (bs : list Z) : list Z :=
  match bs with
  | [] => []
  | _ :: rest =>
    match skip with
    | S k => runes_from k rest
    | O =>
      let '(r, w) := decodeRune bs in
      r :: runes_from (Nat.pred w) rest
    end
  end.

Definition runes (s : string) : list Z := runes_from 0 (bytes_of_string s).

(** [unicode.ToUpper] on a rune below 0x100, which is all the dispatcher
    feeds it: ASCII letters, then the Latin-1 case ranges (U+00B5 maps to
    U+039C and U+00FF to U+0178, outside Latin-1). *)
Definition ToUpper (r : Z) : Z :=
  if (rune "a" <=? r) && (r <=? rune "z") then r - 32
  else if r =? 0xB5 then 0x39C
  else if (0xE0 <=? r) && (r <=? 0xF6) then r - 32
  else if (0xF8 <=? r) && (r <=? 0xFE) then r - 32
  else if r =? 0xFF then 0x178
  else r.

(** ** The object types of the binding *)

(** A user-supplied Go function value is known by its identity; what it
    does when called is given to the dispatcher from outside (see
    [Section Dispatch]).  A nil function value is [None]. *)
Definition Fn : Type := nat.

(** A [*C.struct_wl_proxy], or any other C pointer: its address. *)
Definition Ptr : Type := Z.

(** Every struct keeps the fields of the source except [dsp], the pointer
    back to the one [Display] of the model. *)
Module Registry.
Record t := { hnd : Ptr; OnGlobal : option Fn; OnGlobalRemove : option Fn }.
End Registry.

Module Callback.
Record t := { hnd : Ptr; OnDone : option Fn }.
End Callback.

Module WpPresentation.
Record t := { hnd : Ptr; vers : Z; OnClock_id : option Fn }.
End WpPresentation.

Module WpPresentationFeedback.
Record t := {
  hnd : Ptr;
  vers : Z;
  OnSyncOutput : option Fn;
  OnPresented : option Fn;
  OnDiscarded : option Fn
}.
End WpPresentationFeedback.

Module Compositor.
Record t := { hnd : Ptr; vers : Z }.
End Compositor.

Module Surface.
Record t := { hnd : Ptr; vers : Z; OnPreferred_buffer_scale : option Fn }.
End Surface.

Module Shm.
Record t := { hnd : Ptr; vers : Z; OnFormat : option Fn }.
End Shm.

Module ShmPool.
Record t := { hnd : Ptr; vers : Z }.
End ShmPool.

Module Buffer.
Record t := { hnd : Ptr; vers : Z; OnRelease : option Fn }.
End Buffer.

Module XdgWmBase.
Record t := { hnd : Ptr; vers : Z; OnPing : option Fn }.
End XdgWmBase.

Module XdgSurface.
Record t := { hnd : Ptr; vers : Z; OnConfigure : option Fn }.
End XdgSurface.

Module XdgToplevel.
Record t := {
  hnd : Ptr;
  vers : Z;
  OnConfigure : option Fn;
  OnClose : option Fn;
  OnWm_capabilities : option Fn
}.
End XdgToplevel.

Module XdgDecorationManager.
Record t := { hnd : Ptr; vers : Z }.
End XdgDecorationManager.

Module XdgToplevelDecoration.
Record t := { hnd : Ptr; vers : Z; OnConfigure : option Fn }.
End XdgToplevelDecoration.

Module WpViewporter.
Record t := { hnd : Ptr; vers : Z }.
End WpViewporter.

Module WpViewport.
Record t := { hnd : Ptr; vers : Z }.
End WpViewport.

(** What the proxy table holds under [any]: a pointer to one of the
    structs above. *)
Inductive Obj : Type :=
| ORegistry (o : Registry.t)
| OCallback (o : Callback.t)
| OWpPresentation (o : WpPresentation.t)
| OWpPresentationFeedback (o : WpPresentationFeedback.t)
| OCompositor (o : Compositor.t)
| OSurface (o : Surface.t)
| OShm (o : Shm.t)
| OShmPool (o : ShmPool.t)
| OBuffer (o : Buffer.t)
| OXdgWmBase (o : XdgWmBase.t)
| OXdgSurface (o : XdgSurface.t)
| OXdgToplevel (o : XdgToplevel.t)
| OXdgDecorationManager (o : XdgDecorationManager.t)
| OXdgToplevelDecoration (o : XdgToplevelDecoration.t)
| OWpViewporter (o : WpViewporter.t)
| OWpViewport (o : WpViewport.t).

(** The dynamic type of an [Obj], as [%T] prints it. *)
Definition typeName (o : Obj) : string :=
  match o with
  | ORegistry _ => "*wayland.Registry"
  | OCallback _ => "*wayland.Callback"
  | OWpPresentation _ => "*wayland.WpPresentation"
  | OWpPresentationFeedback _ => "*wayland.WpPresentationFeedback"
  | OCompositor _ => "*wayland.Compositor"
  | OSurface _ => "*wayland.Surface"
  | OShm _ => "*wayland.Shm"
  | OShmPool _ => "*wayland.ShmPool"
  | OBuffer _ => "*wayland.Buffer"
  | OXdgWmBase _ => "*wayland.XdgWmBase"
  | OXdgSurface _ => "*wayland.XdgSurface"
  | OXdgToplevel _ => "*wayland.XdgToplevel"
  | OXdgDecorationManager _ => "*wayland.XdgDecorationManager"
  | OXdgToplevelDecoration _ => "*wayland.XdgToplevelDecoration"
  | OWpViewporter _ => "*wayland.WpViewporter"
  | OWpViewport _ => "*wayland.WpViewport"
  end.

(** The function-typed fields of the struct behind an [Obj], in
    declaration order: name, type and current value.  The remaining
    fields ([dsp], [hnd], [vers]) are left out; the dispatcher only looks
    for names that start with ["On"], which none of them does. *)
Definition funcFields (o : Obj) : list (string * (FuncType * option Fn)) :=
  match o with
  | ORegistry r =>
    [("OnGlobal", ([TUint32; TString; TUint32], Registry.OnGlobal r));
     ("OnGlobalRemove", ([TUint32], Registry.OnGlobalRemove r))]
  | OCallback c => [("OnDone", ([TUint32], Callback.OnDone c))]
  | OWpPresentation p =>
    [("OnClock_id", ([TUint], WpPresentation.OnClock_id p))]
  | OWpPresentationFeedback p =>
    [("OnSyncOutput", ([TPtr Output], WpPresentationFeedback.OnSyncOutput p));
     ("OnPresented",
      ([TUint32; TUint32; TUint32; TUint32; TUint32; TUint32; TUint32],
       WpPresentationFeedback.OnPresented p));
     ("OnDiscarded", ([], WpPresentationFeedback.OnDiscarded p))]
  | OSurface s =>
    [("OnPreferred_buffer_scale", ([TInt], Surface.OnPreferred_buffer_scale s))]
  | OShm s => [("OnFormat", ([TUint32], Shm.OnFormat s))]
  | OBuffer b => [("OnRelease", ([], Buffer.OnRelease b))]
  | OXdgWmBase x => [("OnPing", ([TUint32], XdgWmBase.OnPing x))]
  | OXdgSurface x => [("OnConfigure", ([TUint32], XdgSurface.OnConfigure x))]
  | OXdgToplevel x =>
    [("OnConfigure",
      ([TInt32; TInt32; TSlice TUint32], XdgToplevel.OnConfigure x));
     ("OnClose", ([], XdgToplevel.OnClose x));
     ("OnWm_capabilities",
      ([TSlice TUint32], XdgToplevel.OnWm_capabilities x))]
  | OXdgToplevelDecoration x =>
    [("OnConfigure",
      ([XdgToplevelDecorationMode], XdgToplevelDecoration.OnConfigure x))]
  | OCompositor _ | OShmPool _ | OXdgDecorationManager _
  | OWpViewporter _ | OWpViewport _ => []
  end.

(** The two unexported types behind [internal()], whose method sets the
    dispatcher looks into.  [reflect.TypeOf(internal)] can only be one of
    these, so they stand for the [reflect.Type] of a [methodKey]. *)
Inductive InternalType : Type :=
| callback
| wpPresentationFeedback.

#[global] Instance InternalType_eq_dec : EqDecision InternalType.
Proof. solve_decision. Defined.

#[global] Instance InternalType_countable : Countable InternalType.
Proof.
  refine (inj_countable'
            (fun t => match t with callback => false
                              | wpPresentationFeedback => true end)
            (fun b : bool => if b then wpPresentationFeedback else callback) _).
  by intros [].
Defined.

(** The [reflect.Type] of an internal representation: a pointer to the
    unexported struct type. *)
Definition rtype (t : InternalType) : GoType :=
  match t with
  | callback => TPtr (TStruct "callback")
  | wpPresentationFeedback => TPtr (TStruct "wpPresentationFeedback")
  end.

(** [obj.(internaler)] followed by [inter.internal()]: only [*Callback]
    and [*WpPresentationFeedback] have the method. *)
Definition internal (o : Obj) : option InternalType :=
  match o with
  | OCallback _ => Some callback
  | OWpPresentationFeedback _ => Some wpPresentationFeedback
  | _ => None
  end.

(** The exported methods of the internal types (a [reflect.Method]). *)
Inductive Method : Type :=
| callback_Done
| wpPresentationFeedback_SyncOutput
| wpPresentationFeedback_Presented
| wpPresentationFeedback_Discarded.

#[global] Instance Method_eq_dec : EqDecision Method.
Proof. solve_decision. Defined.

(** [typ.MethodByName(name)]. *)
Definition MethodByName (typ : InternalType) (name : string) : option Method :=
  match typ with
  | callback =>
    if String.eqb name "Done" then Some callback_Done else None
  | wpPresentationFeedback =>
    if String.eqb name "SyncOutput" then Some wpPresentationFeedback_SyncOutput
    else if String.eqb name "Presented" then Some wpPresentationFeedback_Presented
    else if String.eqb name "Discarded" then Some wpPresentationFeedback_Discarded
    else None
  end.

(** The type of [tmeth.Func]: the receiver comes first. *)
Definition methodType (m : Method) : FuncType :=
  match m with
  | callback_Done => [rtype callback; TUint32]
  | wpPresentationFeedback_SyncOutput =>
    [rtype wpPresentationFeedback; TPtr Output]
  | wpPresentationFeedback_Presented =>
    [rtype wpPresentationFeedback;
     TUint32; TUint32; TUint32; TUint32; TUint32; TUint32; TUint32]
  | wpPresentationFeedback_Discarded => [rtype wpPresentationFeedback]
  end.

(** [Value.FieldByName(name)] on the struct behind [o]; [None] is the
    invalid [reflect.Value]. *)
Definition FieldByName (o : Obj) (name : string) : option (FuncType * option Fn) :=
  snd <$> List.find (fun f => String.eqb (fst f) name) (funcFields o).

(** ** Values *)

(** A [reflect.Value] as the dispatcher builds them. *)
Inductive Value : Type :=
| VInt (t : GoType) (n : Z)
| VString (t : GoType) (s : string)
| VSlice (elem : GoType) (data : Ptr) (len : Z)
| VRecv (t : InternalType) (o : Obj).

Definition typeOf (v : Value) : GoType :=
  match v with
  | VInt t _ => t
  | VString t _ => t
  | VSlice e _ _ => TSlice e
  | VRecv t _ => rtype t
  end.

(** The callable the dispatcher resolves a message to: the function of a
    method (never nil), or the function value held in a field. *)
Inductive Callable : Type :=
| CMethod (m : Method)
| CField (owner name : string) (ft : FuncType) (f : option Fn).

Definition IsNil (c : Callable) : bool :=
  match c with
  | CMethod _ => false
  | CField _ _ _ f => if f is None then true else false
  end.

Definition Type_ (c : Callable) : FuncType :=
  match c with
  | CMethod m => methodType m
  | CField _ _ ft _ => ft
  end.

(** ** Panics, events and the dispatch monad *)

(** The value a panic carries.  The panics of package [reflect], of the
    runtime and of [unsafe.Slice] are told apart by constructor rather
    than by message text. *)
Inductive PanicVal : Type :=
| PString (s : string)                 (* panic("...") *)
| PRune (c : Z)                        (* panic(c) *)
| PNoMethod (name typ : string)        (* couldn't find method %q on %T *)
| PNoField (name typ : string)         (* couldn't find field %q on %T *)
| PUnsupportedElem (elem : GoType)     (* unsupported array element type %s *)
| PIndexOutOfRange                     (* runtime: index out of range *)
| PNilDereference                      (* runtime: nil pointer dereference *)
| PConvert (src dst : GoType)          (* reflect.Value.Convert *)
| PElem (t : GoType)                   (* reflect: Elem of invalid type *)
| PCallTooFew                          (* reflect: Call with too few input arguments *)
| PCallTooMany                         (* reflect: Call with too many input arguments *)
| PCallUsing (xt targ : GoType)        (* reflect: Call using xt as type targ *)
| PSliceNilPtr                         (* unsafe.Slice: ptr is nil and len is not zero *)
| PSliceLen                            (* unsafe.Slice: len out of range *)
| PFault                               (* access to C memory that is not mapped *)
| PUser (code : Z).                    (* a panic raised by user code *)

Inductive Result (A : Type) : Type :=
| Returns (a : A)
| Panics (p : PanicVal).
Arguments Returns {A} a.
Arguments Panics {A} p.

(** What a dispatch does that can be observed from outside. *)
Inductive Event : Type :=
| EvMethodByName (typ : InternalType) (name : string)
| EvFieldByName (typ name : string)
| EvReadSlot (k : Z)
| EvCall (meth : Callable) (args : list Value)
| EvUser (f : Fn) (args : list Value)
| EvCgo (fn : string) (hnd : Ptr).

Record Display : Type := {
  proxies : gmap Ptr Obj;
  methods : gmap (InternalType * string) Method
}.

Definition add (proxy : Ptr) (obj : Obj) (dsp : Display) : Display :=
  {| proxies := <[proxy := obj]> (proxies dsp); methods := methods dsp |}.

Definition forget (proxy : Ptr) (dsp : Display) : Display :=
  {| proxies := delete proxy (proxies dsp); methods := methods dsp |}.

(** The fresh [Display] of [Connect]. *)
Definition Connect : Display := {| proxies := ∅; methods := ∅ |}.

Record St : Type := { st_dsp : Display; st_log : list Event }.

Definition M (A : Type) : Type := St → Result A * St.

#[global] Instance M_ret : MRet M := λ A a s, (Returns a, s).

#[global] Instance M_bind : MBind M := λ A B f m s,
  match m s with
  | (Returns a, s') => f a s'
  | (Panics p, s') => (Panics p, s')
  end.

Definition panic {A} (p : PanicVal) : M A := λ s, (Panics p, s).

Definition getDisplay : M Display := λ s, (Returns (st_dsp s), s).

Definition putDisplay (d : Display) : M unit :=
  λ s, (Returns tt, {| st_dsp := d; st_log := st_log s |}).

Definition emit (e : Event) : M unit :=
  λ s, (Returns tt, {| st_dsp := st_dsp s; st_log := st_log s ++ [e] |}).

(** Lift a pure step that may panic. *)
Definition liftR {A} (r : Result A) : M A := λ s, (r, s).

(** ** C memory *)

Record wl_array : Type := { size : Z; alloc : Z; data : Ptr }.

(** The C objects the argument slots of a message may point to. *)
Record CMem : Type := {
  cstrings : gmap Ptr string;
  arrays : gmap Ptr wl_array
}.

(** [C.GoString]: the empty string for a null pointer, a copy of the C
    string otherwise. *)
Definition GoString (mem : CMem) (p : Ptr) : Result string :=
  if p =? 0 then Returns ""
  else match cstrings mem !! p with
       | Some s => Returns s
       | None => Panics PFault
       end.

(** The load of [*arr] for [arr.data] and [arr.size]. *)
Definition loadArray (mem : CMem) (arr : Ptr) : Result wl_array :=
  if arr =? 0 then Panics PNilDereference
  else match arrays mem !! arr with
       | Some a => Returns a
       | None => Panics PFault
       end.

(** [unsafe.Slice(p, len)] for [p] a pointer to a 4-byte type: no load happens, the
    slice only refers to the C memory; the runtime checks that the
    memory range does not wrap around the address space. *)
Definition unsafe_Slice (elem : GoType) (ptr : Ptr) (len : Z) : Result Value :=
  if (len <? 0) then Panics PSliceLen
  else if (2 ^ 64 <=? 4 * len) || ((- ptr) mod 2 ^ 64 <? 4 * len) then
    if ptr =? 0 then Panics PSliceNilPtr else Panics PSliceLen
  else Returns (VSlice elem ptr len).

(** ** Package reflect *)

(** [reflect.ValueOf(x).Convert(dst)] for an integer [x] of type [src]. *)
Definition Convert (src : GoType) (n : Z) (dst : GoType) : Result Value :=
  match kind dst with
  | KInt => Returns (VInt dst (wrap_signed 64 n))
  | KInt32 => Returns (VInt dst (wrap_signed 32 n))
  | KUint => Returns (VInt dst (wrap_unsigned 64 n))
  | KUint32 => Returns (VInt dst (wrap_unsigned 32 n))
  | KString =>
    Returns (VString dst
      (if (- 2 ^ 31 <=? n) && (n <? 2 ^ 31) then string_of_rune n
       else string_of_rune RuneError))
  | _ => Panics (PConvert src dst)
  end.

(** [t.In(i)]: an index into the parameter slice. *)
Definition In_ (t : FuncType) (i : Z) : Result GoType :=
  if i <? 0 then Panics PIndexOutOfRange
  else match t !! Z.to_nat i with
       | Some p => Returns p
       | None => Panics PIndexOutOfRange
       end.

(** [t.Elem()]: defined on pointers and slices only. *)
Definition Elem (t : GoType) : Result GoType :=
  match underlying t with
  | TPtr e | TSlice e => Returns e
  | _ => Panics (PElem t)
  end.

(** [xt.AssignableTo(targ)]. *)
Definition AssignableTo (xt targ : GoType) : bool :=
  bool_decide (xt = targ)
  || (negb (hasName xt && hasName targ)
      && bool_decide (kind xt = kind targ)
      && bool_decide (underlying xt = underlying targ)).

(** The checks [Value.Call] makes before the call. *)
Fixpoint checkArgs (ins : FuncType) (args : list Value) : Result unit :=
  match ins, args with
  | [], [] => Returns tt
  | targ :: ins', x :: args' =>
    if AssignableTo (typeOf x) targ then checkArgs ins' args'
    else Panics (PCallUsing (typeOf x) targ)
  | _, _ => Returns tt
  end.

Definition checkCall (ins : FuncType) (args : list Value) : Result unit :=
  if (length args <? length ins)%nat then Panics PCallTooFew
  else if (length ins <? length args)%nat then Panics PCallTooMany
  else checkArgs ins args.

(** ** The dispatcher *)

(** [struct wl_message], with its two C strings already read. *)
Record wl_message : Type := { name : string; signature : string }.

(** The three views the dispatcher takes of an 8-byte [union wl_argument]
    slot. *)
Definition asInt32 (slot : Z) : Z := wrap_signed 32 slot.
Definition asUint32 (slot : Z) : Z := wrap_unsigned 32 slot.
Definition asPointer (slot : Z) : Ptr := wrap_unsigned 64 slot.

(** The method name of a message: its name with the first byte put
    through [unicode.ToUpper] and cut back to a byte.  Indexing the first
    byte of an empty name panics. *)
Definition methodName (n : string) : Result string :=
  match n with
  | EmptyString => Panics PIndexOutOfRange
  | String a rest =>
    Returns (String (ascii_of_byte (ToUpper (byte_of_ascii a) mod 256)) rest)
  end.

Section Dispatch.

(** What a user function does when it is called, as far as the display
    can tell: through the exported API it may register and forget objects
    and set callback fields, which changes the proxy table, and it may
    panic.  The method cache is out of its reach. *)
Variable user : Fn → list Value → gmap Ptr Obj → Result (gmap Ptr Obj).

(** The C memory during the dispatch. *)
Variable mem : CMem.

(** A call through a function-typed field, as in [cb.OnDone(data)]. *)
Definition callFn (f : option Fn) (args : list Value) : M unit :=
  match f with
  | None => panic PNilDereference
  | Some fn =>
    emit (EvUser fn args) ;;
    dsp ← getDisplay ;
    px ← liftR (user fn args (proxies dsp)) ;
    putDisplay {| proxies := px; methods := methods dsp |}
  end.

Definition dsp_forget (proxy : Ptr) : M unit :=
  dsp ← getDisplay ; putDisplay (forget proxy dsp).

(** [Callback.Destroy]; the final [cb.hnd = nil] changes a struct that is
    no longer in the proxy table. *)
Definition Callback_Destroy (cb : Callback.t) : M unit :=
  emit (EvCgo "wl_callback_destroy" (Callback.hnd cb)) ;;
  dsp_forget (Callback.hnd cb).

(** The bodies of the four methods, applied to the receiver and the
    remaining arguments.  The receiver is the object as it was when the
    message arrived; its handle is not changed by anything but
    [Callback.Destroy].  The dispatcher only pairs a method with a
    receiver of its own type, which rules the last case out. *)
Definition callMethod (m : Method) (args : list Value) : M unit :=
  match m, args with
  | callback_Done, VRecv _ (OCallback cb) :: params =>
    callFn (Callback.OnDone cb) params ;;
    Callback_Destroy cb
  | wpPresentationFeedback_SyncOutput,
    VRecv _ (OWpPresentationFeedback p) :: params =>
    callFn (WpPresentationFeedback.OnSyncOutput p) params
  | wpPresentationFeedback_Presented,
    VRecv _ (OWpPresentationFeedback p) :: params =>
    callFn (WpPresentationFeedback.OnPresented p) params ;;
    dsp_forget (WpPresentationFeedback.hnd p)
  | wpPresentationFeedback_Discarded,
    VRecv _ (OWpPresentationFeedback p) :: params =>
    callFn (WpPresentationFeedback.OnDiscarded p) params ;;
    dsp_forget (WpPresentationFeedback.hnd p)
  | _, _ => panic PFault
  end.

(** [meth.Call(callArgs)]. *)
Definition Call (meth : Callable) (callArgs : list Value) : M unit :=
  liftR (checkCall (Type_ meth) callArgs) ;;
  emit (EvCall meth callArgs) ;;
  match meth with
  | CMethod m => callMethod m callArgs
  | CField _ _ _ f => callFn f callArgs
  end.

(** Lines 212 to 234: from the object and the method name to the callable
    and, under delegated dispatch, the receiver. *)
Definition resolve (obj : Obj) (methName : string)
  : M (Callable * option Value) :=
  match internal obj with
  | Some typ =>
    dsp ← getDisplay ;
    tmeth ← match methods dsp !! (typ, methName) with
            | Some tmeth => mret tmeth
            | None =>
              emit (EvMethodByName typ methName) ;;
              match MethodByName typ methName with
              | None => panic (PNoMethod methName (typeName obj))
              | Some tmeth =>
                putDisplay {| proxies := proxies dsp;
                              methods := <[(typ, methName) := tmeth]>
                                           (methods dsp) |} ;;
                mret tmeth
              end
            end ;
    mret (CMethod tmeth, Some (VRecv typ obj))
  | None =>
    emit (EvFieldByName (typeName obj) ("On" ++ methName)) ;;
    match FieldByName obj ("On" ++ methName) with
    | None => panic (PNoField ("On" ++ methName) (typeName obj))
    | Some (ft, f) =>
      mret (CField (typeName obj) ("On" ++ methName) ft f, None)
    end
  end.

(** The dereference of slot [k] of the argument buffer. *)
Definition readSlot (args : list Z) (k : Z) : M Z :=
  emit (EvReadSlot k) ;;
  if k <? 0 then panic PFault
  else match args !! Z.to_nat k with
       | Some slot => mret slot
       | None => panic PFault
       end.

(** The digits ['0'] to ['9']. *)
Definition isDigit (c : Z) : bool := (rune "0" <=? c) && (c <=? rune "9").

(** The state of the decoding loop: the index [i] and [callArgs]. *)
Definition DecodeState : Type := Z * list Value.

(** One turn of the loop at lines 248 to 292 for the rune [c].  A
    [continue] leaves the state as it is; every other case that does not
    panic appends one value and increments [i]. *)
Definition decodeStep (meth : Callable) (args : list Z) (argOffset : Z)
    (c : Z) (s : DecodeState) : M DecodeState :=
  let '(i, callArgs) := s in
  let arg := i + argOffset in
  if c =? rune "i" then
    slot ← readSlot args arg ;
    t ← liftR (In_ (Type_ meth) i) ;
    v ← liftR (Convert TInt32 (asInt32 slot) t) ;
    mret (i + 1, callArgs ++ [v])
  else if c =? rune "u" then
    slot ← readSlot args arg ;
    t ← liftR (In_ (Type_ meth) i) ;
    v ← liftR (Convert TUint32 (asUint32 slot) t) ;
    mret (i + 1, callArgs ++ [v])
  else if c =? rune "f" then
    slot ← readSlot args arg ;
    mret (i + 1, callArgs ++ [VInt wl_fixed_t (asInt32 slot)])
  else if c =? rune "s" then
    slot ← readSlot args arg ;
    str ← liftR (GoString mem (asPointer slot)) ;
    mret (i + 1, callArgs ++ [VString TString str])
  else if c =? rune "o" then
    slot ← readSlot args arg ;
    t ← liftR (In_ (Type_ meth) i) ;
    v ← liftR (Convert TUint32 (asUint32 slot) t) ;
    mret (i + 1, callArgs ++ [v])
  else if c =? rune "n" then
    panic (PString "n")
  else if c =? rune "a" then
    slot ← readSlot args arg ;
    let arr := asPointer slot in
    t ← liftR (In_ (Type_ meth) i) ;
    elem ← liftR (Elem t) ;
    if bool_decide (elem = TInt32) then
      a ← liftR (loadArray mem arr) ;
      v ← liftR (unsafe_Slice TInt32 (data a) (size a / 4)) ;
      mret (i + 1, callArgs ++ [v])
    else if bool_decide (elem = TUint32) then
      a ← liftR (loadArray mem arr) ;
      v ← liftR (unsafe_Slice TUint32 (data a) (size a / 4)) ;
      mret (i + 1, callArgs ++ [v])
    else panic (PUnsupportedElem elem)
  else if c =? rune "h" then
    panic (PString "h")
  else if c =? rune "?" then
    mret (i, callArgs)
  else if isDigit c then
    mret (i, callArgs)
  else panic (PRune c).

(** The loop [for _, c := range sig], over the runes of the signature. *)
Fixpoint decodeArgs (meth : Callable) (args : list Z) (argOffset : Z)
    (sig : list Z) (s : DecodeState) : M DecodeState :=
  match sig with
  | [] => mret s
  | c :: sig' =>
    s' ← decodeStep meth args argOffset c s ;
    decodeArgs meth args argOffset sig' s'
  end.

(** Lines 240 to 297: the arguments are decoded and the callable is
    called. *)
Definition invoke (meth : Callable) (recv : option Value)
    (sig : string) (args : list Z) : M Z :=
  let '(i, argOffset, callArgs) :=
    match recv with
    | Some r => (1, -1, [r])
    | None => (0, 0, [])
    end in
  '(_, callArgs) ← decodeArgs meth args argOffset (runes sig) (i, callArgs) ;
  (if negb (IsNil meth) then Call meth callArgs else mret tt) ;;
  mret 0.

(** The exported [dispatcher].  [opcode] is not used by the source
    either.  The pooled buffers [dsp.callArgs] and [dsp.methName] only
    save allocations and are not part of the state. *)
Definition dispatcher (target : Ptr) (opcode : Z) (msg : wl_message)
    (args : list Z) : M Z :=
  let sig := signature msg in
  dsp ← getDisplay ;
  match proxies dsp !! target with
  | None => panic (PString "don't know this proxy")
  | Some obj =>
    methName ← liftR (methodName (name msg)) ;
    '(meth, recv) ← resolve obj methName ;
    if IsNil meth then mret 0
    else invoke meth recv sig args
  end.

(** A dispatch on a display, from an empty log. *)
Definition run {A} (m : M A) (dsp : Display) : Result A * St :=
  m {| st_dsp := dsp; st_log := [] |}.

End Dispatch.

(** ** Notions used in the statements *)

(** The reflective lookups among the events. *)
Definition isLookup (e : Event) : bool :=
  match e with
  | EvMethodByName _ _ | EvFieldByName _ _ => true
  | _ => false
  end.

(** The events that run a callable or a user function. *)
Definition isInvocation (e : Event) : bool :=
  match e with
  | EvCall _ _ | EvUser _ _ => true
  | _ => false
  end.

Definition isSlotRead (e : Event) : bool :=
  match e with
  | EvReadSlot _ => true
  | _ => false
  end.

(** The tags the loop decodes or steps over; ['n'], ['h'] and every rune
    outside the alphabet are left. *)
Definition supportedTag (c : Z) : bool :=
  (c =? rune "i") || (c =? rune "u") || (c =? rune "f") || (c =? rune "s")
  || (c =? rune "o") || (c =? rune "a") || (c =? rune "?") || isDigit c.

(** The value the loop panics with at an unsupported tag. *)
Definition tagPanic (c : Z) : PanicVal :=
  if c =? rune "n" then PString "n"
  else if c =? rune "h" then PString "h"
  else PRune c.

(** A user function that returns at once and changes nothing, and a C
    memory without any object, for the closed examples. *)
Definition userSkip : Fn → list Value → gmap Ptr Obj → Result (gmap Ptr Obj) :=
  λ _ _ px, Returns px.

Definition noMem : CMem := {| cstrings := ∅; arrays := ∅ |}.

(** The [Surface] of the example in the specification. *)
Definition example_surface : Obj :=
  OSurface {| Surface.hnd := 1; Surface.vers := 6;
              Surface.OnPreferred_buffer_scale := Some 0%nat |}.

(** A computation that leaves the display alone and logs nothing but
    slot reads: what the decoding loop is allowed to do. *)
Definition readsOnly {A} (m : M A) : Prop :=
  ∀ st r st', m st = (r, st') →
    st_dsp st' = st_dsp st ∧
    ∃ l, st_log st' = st_log st ++ l ∧ Forall (λ e, isSlotRead e = true) l.



(** The method cache only holds what [MethodByName] answers. *)
Definition cacheSound (dsp : Display) : Prop :=
  ∀ typ methName tmeth,
    methods dsp !! (typ, methName) = Some tmeth →
    MethodByName typ methName = Some tmeth.

(** A computation that does not touch the method cache. *)
Definition keepsMethods {A} (m : M A) : Prop :=
  ∀ st r st', m st = (r, st') → methods (st_dsp st') = methods (st_dsp st).

(** A computation whose log entries all satisfy [P]. *)
Definition emitsOnly (P : Event → bool) {A} (m : M A) : Prop :=
  ∀ st r st', m st = (r, st') →
    ∃ l, st_log st' = st_log st ++ l ∧ Forall (λ e, P e = true) l.

(** The events of a method body: user functions and cgo calls. *)
Definition isBodyEvent (e : Event) : bool :=
  match e with
  | EvUser _ _ | EvCgo _ _ => true
  | _ => false
  end.

(** Where the loop starts: at index 1 behind the receiver, with the slot
    offset moved back by one, under delegated dispatch; at index 0
    otherwise. *)
Definition loopStart (recv : option Value) : DecodeState :=
  if recv is Some r then (1, [r]) else (0, []).

Definition loopOffset (recv : option Value) : Z :=
  if recv is Some _ then -1 else 0.

(** The [XdgToplevel] callback that takes an array, its three argument
    slots, and a C memory with one [wl_array] of seven bytes, for the
    closed examples. *)
Definition example_configure : Callable :=
  CField "*wayland.XdgToplevel" "OnConfigure"
    [TInt32; TInt32; TSlice TUint32] (Some 0%nat).

Definition example_configure_args : list Z := [800; 600; 4096].

Definition example_array : wl_array := {| size := 7; alloc := 8; data := 8192 |}.

Definition example_mem : CMem :=
  {| cstrings := ∅; arrays := {[ 4096 := example_array ]} |}.

(** ** Creation and destruction of objects *)

(** The [hnd] field of the struct behind an [Obj]. *)
Definition hndOf (o : Obj) : Ptr :=
  match o with
  | ORegistry o => Registry.hnd o
  | OCallback o => Callback.hnd o
  | OWpPresentation o => WpPresentation.hnd o
  | OWpPresentationFeedback o => WpPresentationFeedback.hnd o
  | OCompositor o => Compositor.hnd o
  | OSurface o => Surface.hnd o
  | OShm o => Shm.hnd o
  | OShmPool o => ShmPool.hnd o
  | OBuffer o => Buffer.hnd o
  | OXdgWmBase o => XdgWmBase.hnd o
  | OXdgSurface o => XdgSurface.hnd o
  | OXdgToplevel o => XdgToplevel.hnd o
  | OXdgDecorationManager o => XdgDecorationManager.hnd o
  | OXdgToplevelDecoration o => XdgToplevelDecoration.hnd o
  | OWpViewporter o => WpViewporter.hnd o
  | OWpViewport o => WpViewport.hnd o
  end.

(** The functions of the binding that make an object, each with the
    handle [h] that its C call returned and what else it takes: the
    version for the [Bind] functions, the parent for the others, the
    function for [Sync] and [Frame]. *)
Inductive NewObject : Type :=
| Display_Registry (h : Ptr)
| Display_Sync (h : Ptr) (fn : option Fn)
| Surface_Frame (h : Ptr) (fn : option Fn)
| Registry_BindCompositor (h : Ptr) (vers : Z)
| Registry_BindShm (h : Ptr) (vers : Z)
| Registry_BindXdgWmBase (h : Ptr) (vers : Z)
| Registry_BindZxdgDecorationManagerV1 (h : Ptr) (vers : Z)
| Registry_BindWpPresentation (h : Ptr) (vers : Z)
| Registry_BindWpViewporter (h : Ptr) (vers : Z)
| WpPresentation_Feedback (p : WpPresentation.t) (h : Ptr)
| Compositor_CreateSurface (comp : Compositor.t) (h : Ptr)
| Shm_CreatePool (shm : Shm.t) (h : Ptr)
| ShmPool_CreateBuffer (pool : ShmPool.t) (h : Ptr)
| XdgWmBase_XdgSurface (xdg : XdgWmBase.t) (h : Ptr)
| XdgSurface_Toplevel (surf : XdgSurface.t) (h : Ptr)
| XdgDecorationManager_ToplevelDecoration (xdg : XdgDecorationManager.t) (h : Ptr)
| WpViewporter_Viewport (porter : WpViewporter.t) (h : Ptr).

(** The struct literal of each of these functions: the handle, the
    version of the parent, and no callback but the one [Sync] and [Frame]
    are given. *)
Definition created (c : NewObject) : Obj :=
  match c with
  | Display_Registry h =>
    ORegistry {| Registry.hnd := h; Registry.OnGlobal := None;
                 Registry.OnGlobalRemove := None |}
  | Display_Sync h fn | Surface_Frame h fn =>
    OCallback {| Callback.hnd := h; Callback.OnDone := fn |}
  | Registry_BindCompositor h vers =>
    OCompositor {| Compositor.hnd := h; Compositor.vers := vers |}
  | Registry_BindShm h vers =>
    OShm {| Shm.hnd := h; Shm.vers := vers; Shm.OnFormat := None |}
  | Registry_BindXdgWmBase h vers =>
    OXdgWmBase {| XdgWmBase.hnd := h; XdgWmBase.vers := vers;
                  XdgWmBase.OnPing := None |}
  | Registry_BindZxdgDecorationManagerV1 h vers =>
    OXdgDecorationManager {| XdgDecorationManager.hnd := h;
                             XdgDecorationManager.vers := vers |}
  | Registry_BindWpPresentation h vers =>
    OWpPresentation {| WpPresentation.hnd := h; WpPresentation.vers := vers;
                       WpPresentation.OnClock_id := None |}
  | Registry_BindWpViewporter h vers =>
    OWpViewporter {| WpViewporter.hnd := h; WpViewporter.vers := vers |}
  | WpPresentation_Feedback p h =>
    OWpPresentationFeedback
      {| WpPresentationFeedback.hnd := h;
         WpPresentationFeedback.vers := WpPresentation.vers p;
         WpPresentationFeedback.OnSyncOutput := None;
         WpPresentationFeedback.OnPresented := None;
         WpPresentationFeedback.OnDiscarded := None |}
  | Compositor_CreateSurface comp h =>
    OSurface {| Surface.hnd := h; Surface.vers := Compositor.vers comp;
                Surface.OnPreferred_buffer_scale := None |}
  | Shm_CreatePool shm h =>
    OShmPool {| ShmPool.hnd := h; ShmPool.vers := Shm.vers shm |}
  | ShmPool_CreateBuffer pool h =>
    OBuffer {| Buffer.hnd := h; Buffer.vers := ShmPool.vers pool;
               Buffer.OnRelease := None |}
  | XdgWmBase_XdgSurface xdg h =>
    OXdgSurface {| XdgSurface.hnd := h; XdgSurface.vers := XdgWmBase.vers xdg;
                   XdgSurface.OnConfigure := None |}
  | XdgSurface_Toplevel surf h =>
    OXdgToplevel {| XdgToplevel.hnd := h;
                    XdgToplevel.vers := XdgSurface.vers surf;
                    XdgToplevel.OnConfigure := None;
                    XdgToplevel.OnClose := None;
                    XdgToplevel.OnWm_capabilities := None |}
  | XdgDecorationManager_ToplevelDecoration xdg h =>
    OXdgToplevelDecoration
      {| XdgToplevelDecoration.hnd := h;
         XdgToplevelDecoration.vers := XdgDecorationManager.vers xdg;
         XdgToplevelDecoration.OnConfigure := None |}
  | WpViewporter_Viewport porter h =>
    OWpViewport {| WpViewport.hnd := h; WpViewport.vers := WpViewporter.vers porter |}
  end.

(** What each of them does to the display: [dsp.add(proxy, obj)] under
    the handle of the new object.  ([addDispatcher] only tells
    libwayland where the dispatcher is.) *)
Definition create (c : NewObject) (dsp : Display) : Display :=
  add (hndOf (created c)) (created c) dsp.

(** The C request behind the [Destroy] method of a type;
    [WpPresentationFeedback] has no such method. *)
Definition destroyRequest (o : Obj) : option string :=
  match o with
  | ORegistry _ => Some "wl_registry_destroy"
  | OCallback _ => Some "wl_callback_destroy"
  | OWpPresentation _ => Some "wp_presentation_destroy"
  | OWpPresentationFeedback _ => None
  | OCompositor _ => Some "wl_compositor_destroy"
  | OSurface _ => Some "wl_surface_destroy"
  | OShm _ => Some "wl_shm_destroy"
  | OShmPool _ => Some "wl_shm_pool_destroy"
  | OBuffer _ => Some "wl_buffer_destroy"
  | OXdgWmBase _ => Some "xdg_wm_base_destroy"
  | OXdgSurface _ => Some "xdg_surface_destroy"
  | OXdgToplevel _ => Some "xdg_toplevel_destroy"
  | OXdgDecorationManager _ => Some "zxdg_decoration_manager_v1_destroy"
  | OXdgToplevelDecoration _ => Some "zxdg_toplevel_decoration_v1_destroy"
  | OWpViewporter _ => Some "wp_viewporter_destroy"
  | OWpViewport _ => Some "wp_viewport_destroy"
  end.

(** [obj.Destroy()]: the C request, then [dsp.forget] of the handle. *)
Definition Destroy (o : Obj) : option (M unit) :=
  fn ← destroyRequest o ;
  Some (emit (EvCgo fn (hndOf o)) ;; dsp_forget (hndOf o)).

(** Every object sits in the proxy table under its own handle. *)
Definition keyed (px : gmap Ptr Obj) : Prop :=
  ∀ h o, px !! h = Some o → hndOf o = h.

(** The displays that can arise: the one of [Connect], any change of the
    proxy table (objects made or destroyed, callback fields set), and
    what a dispatch leaves. *)
Inductive Reachable
    (user : Fn → list Value → gmap Ptr Obj → Result (gmap Ptr Obj))
    (mem : CMem) : Display → Prop :=
| Reachable_Connect : Reachable user mem Connect
| Reachable_proxies dsp px :
    Reachable user mem dsp →
    Reachable user mem {| proxies := px; methods := methods dsp |}
| Reachable_dispatch dsp target opcode msg args :
    Reachable user mem dsp →
    Reachable user mem
      (st_dsp (snd (run (dispatcher user mem target opcode msg args) dsp))).

(** ** Counting the slots of a signature *)

(** The tags that stand for an argument: all but ['?'] and the digits. *)
Definition isArgTag (c : Z) : bool := negb ((c =? rune "?") || isDigit c).

Definition slotCount (sig : list Z) : nat := length (List.filter isArgTag sig).

(** The events [EvReadSlot k], ..., [EvReadSlot (k + n - 1)]. *)
Definition slotReads (k : Z) (n : nat) : list Event :=
  EvReadSlot <$> seqZ k (Z.of_nat n).

(** The integer kinds. *)
Definition isIntKind (k : Kind) : bool :=
  match k with
  | KInt | KInt32 | KUint | KUint32 => true
  | _ => false
  end.

(** ** The shape of a log *)

Definition isCgo (e : Event) : bool :=
  match e with
  | EvCgo _ _ => true
  | _ => false
  end.

(** What the user function of a callable is handed: all of [callArgs]
    for a field, all but the receiver for a method. *)
Definition userArgs (meth : Callable) (callArgs : list Value) : list Value :=
  match meth with
  | CMethod _ => tail callArgs
  | CField _ _ _ _ => callArgs
  end.

(** The events behind a call: nothing, or one user function entered with
    [params], followed by cgo calls only. *)
Definition bodyShape (params : list Value) (body : list Event) : Prop :=
  body = [] ∨ ∃ f rest, body = EvUser f params :: rest
                        ∧ Forall (λ e, isCgo e = true) rest.

(** The events behind the slot reads: nothing, or the one call of [meth]
    and its body. *)
Definition callShape (meth : Callable) (full : bool) (tail : list Event) : Prop :=
  tail = [] ∨ ∃ callArgs body, tail = EvCall meth callArgs :: body
                               ∧ full = true
                               ∧ bodyShape (userArgs meth callArgs) body.

(** A computation that only ever adds to the log: run on a log [l], it
    does what it does on the empty log, with [l] in front. *)
Definition framed {A} (m : M A) : Prop :=
  ∀ dsp l,
    m {| st_dsp := dsp; st_log := l |}
    = (let '(r, st) := m {| st_dsp := dsp; st_log := [] |} in
       (r, {| st_dsp := st_dsp st; st_log := l ++ st_log st |})).

(** [Registry.OnGlobal], set, and a C memory with the interface name of
    a global, for the closed examples. *)
Definition example_global : Callable :=
  CField "*wayland.Registry" "OnGlobal" [TUint32; TString; TUint32] (Some 0%nat).

Definition example_strings : CMem :=
  {| cstrings := {[ 4096 := "wl_shm" ]}; arrays := ∅ |}.

(** A computation that cannot tell one method cache from another, and
    leaves the cache as it is. *)
Definition cacheBlind {A} (m : M A) : Prop :=
  ∀ px ms ms' l,
    m {| st_dsp := {| proxies := px; methods := ms |}; st_log := l |}
    = (let '(r, st) :=
         m {| st_dsp := {| proxies := px; methods := ms' |}; st_log := l |} in
       (r, {| st_dsp := {| proxies := proxies (st_dsp st); methods := ms |};
              st_log := st_log st |})).

(** The part of a log that the method cache cannot change. *)
Definition withoutLookups (log : list Event) : list Event :=
  List.filter (λ e, negb (isLookup e)) log.

(** ** What a callable can be handed *)

(** The kinds of the values the decoding loop makes: integers, strings
    and slices. *)
Definition decodedKind (k : Kind) : bool :=
  match k with
  | KInt | KInt32 | KUint | KUint32 | KString | KSlice => true
  | KStruct | KPointer => false
  end.

(** The parameters of a callable behind the receiver. *)
Definition userParams (c : Callable) : FuncType :=
  match c with
  | CMethod m => tail (methodType m)
  | CField _ _ ft _ => ft
  end.

(** ** What a dispatch does to the proxy table *)

Definition isUserCall (e : Event) : bool :=
  match e with
  | EvUser _ _ => true
  | _ => false
  end.

(** The user functions a log enters. *)
Definition userCalls (log : list Event) : list Event := List.filter isUserCall log.

(** ** Basic facts about the monad and the proxy table *)

Lemma bind_run {A B} (m : M A) (f : A → M B) (s : St) :
  (m ≫= f) s =
  match m s with
  | (Returns a, s') => f a s'
  | (Panics p, s') => (Panics p, s')
  end.
Proof. reflexivity. Qed.

Lemma surjective_pairing_St (st : St) :
  st = {| st_dsp := st_dsp st; st_log := st_log st |}.
Proof. by destruct st. Qed.

Lemma lookup_add (proxy : Ptr) (obj : Obj) (dsp : Display) :
  proxies (add proxy obj dsp) !! proxy = Some obj.
Proof. apply lookup_insert_eq. Qed.

Lemma lookup_forget (proxy : Ptr) (dsp : Display) :
  proxies (forget proxy dsp) !! proxy = None.
Proof. apply lookup_delete_eq. Qed.

Lemma lookup_Connect (proxy : Ptr) : proxies Connect !! proxy = None.
Proof. apply lookup_empty. Qed.

(** ** Unknown handles *)

(** C4. A message whose target has no binding in the proxy table, because
    it was never added or has been forgotten, makes the dispatcher panic
    at once: the display is untouched and the log is empty, so no slot
    was read, nothing was looked up and nothing was called. *)
Theorem dispatcher_unknown_proxy
    user mem (dsp : Display) (target : Ptr) opcode msg args :
  proxies dsp !! target = None →
  run (dispatcher user mem target opcode msg args) dsp
  = (Panics (PString "don't know this proxy"),
     {| st_dsp := dsp; st_log := [] |}).
Proof.
  intros Hnone. unfold run, dispatcher.
  rewrite bind_run. cbn. rewrite Hnone. reflexivity.
Qed.

Lemma dispatcher_unknown_proxy_witness :
  run (dispatcher userSkip noMem 1 0
         {| name := "done"; signature := "u" |} [5]) (forget 1 Connect)
  = (Panics (PString "don't know this proxy"),
     {| st_dsp := forget 1 Connect; st_log := [] |}).
Proof. apply dispatcher_unknown_proxy. reflexivity. Defined.

(** Once the target is found, the dispatcher computes the method name,
    resolves the callable and, unless it is nil, decodes and calls. *)
Lemma dispatcher_known user mem (dsp : Display) target opcode msg args obj log :
  proxies dsp !! target = Some obj →
  dispatcher user mem target opcode msg args {| st_dsp := dsp; st_log := log |}
  = (methName ← liftR (methodName (name msg)) ;
     '(meth, recv) ← resolve obj methName ;
     if IsNil meth then mret 0
     else invoke user mem meth recv (signature msg) args)
      {| st_dsp := dsp; st_log := log |}.
Proof.
  intros Hobj. unfold dispatcher at 1. rewrite bind_run. cbn [getDisplay st_dsp].
  rewrite Hobj. reflexivity.
Qed.

(** Replace the rune literals of a goal by their code points. *)
Ltac eval_runes :=
  repeat match goal with
         | |- context [rune ?a] =>
           let v := eval vm_compute in (rune a) in change (rune a) with v
         | H : context [rune ?a] |- _ =>
           let v := eval vm_compute in (rune a) in change (rune a) with v in H
         end.

(** Unfolding one bind and the primitive it starts with. *)
Ltac mstep :=
  rewrite ?bind_run;
  cbn [liftR emit panic getDisplay putDisplay st_dsp st_log
       proxies methods add forget].

Ltac mrun := repeat (progress mstep).

(** ** Arithmetic of the slot views *)

Lemma wrap_unsigned_range bits n : 0 ≤ bits → 0 ≤ wrap_unsigned bits n < 2 ^ bits.
Proof. intros Hb. unfold wrap_unsigned. apply Z.mod_pos_bound. by apply Z.pow_pos_nonneg. Qed.

Lemma wrap_unsigned_idem bits n :
  wrap_unsigned bits (wrap_unsigned bits n) = wrap_unsigned bits n.
Proof. unfold wrap_unsigned. apply Zmod_mod. Qed.

Lemma wrap_signed_range bits n :
  0 < bits → - 2 ^ (bits - 1) ≤ wrap_signed bits n < 2 ^ (bits - 1).
Proof.
  intros Hb. unfold wrap_signed.
  assert (2 ^ bits = 2 * 2 ^ (bits - 1)) as Hp.
  { rewrite <- Z.pow_succ_r by lia. f_equal. lia. }
  assert (0 < 2 ^ (bits - 1)) by (apply Z.pow_pos_nonneg; lia).
  pose proof (Z.mod_pos_bound (n + 2 ^ (bits - 1)) (2 ^ bits)). lia.
Qed.

Lemma wrap_signed_small bits n :
  0 < bits → - 2 ^ (bits - 1) ≤ n < 2 ^ (bits - 1) → wrap_signed bits n = n.
Proof.
  intros Hb Hn. unfold wrap_signed.
  assert (2 ^ bits = 2 * 2 ^ (bits - 1)) as Hp.
  { rewrite <- Z.pow_succ_r by lia. f_equal. lia. }
  rewrite Z.mod_small by lia. lia.
Qed.

Lemma asUint32_range slot : 0 ≤ asUint32 slot < 2 ^ 32.
Proof. by apply wrap_unsigned_range. Qed.

Lemma asInt32_range slot : - 2 ^ 31 ≤ asInt32 slot < 2 ^ 31.
Proof. by apply (wrap_signed_range 32). Qed.

(** A [uint32] read from a slot converts to [uint32] unchanged. *)
Lemma Convert_uint32_uint32 slot :
  Convert TUint32 (asUint32 slot) TUint32 = Returns (VInt TUint32 (asUint32 slot)).
Proof. cbn. by rewrite wrap_unsigned_idem. Qed.

(** An [int32] read from a slot converts to [int] by sign extension. *)
Lemma Convert_int32_int slot :
  Convert TInt32 (asInt32 slot) TInt = Returns (VInt TInt (asInt32 slot)).
Proof.
  cbn. rewrite wrap_signed_small; [done | lia |].
  pose proof (asInt32_range slot). cbn in *. lia.
Qed.

(** ** Equations of the decoding loop *)

Section DecodeFacts.

Variable user : Fn → list Value → gmap Ptr Obj → Result (gmap Ptr Obj).
Variable mem : CMem.
Variable meth : Callable.
Variable args : list Z.
Variable argOffset : Z.

Lemma readSlot_run k slot dsp log :
  0 ≤ k →
  args !! Z.to_nat k = Some slot →
  readSlot args k {| st_dsp := dsp; st_log := log |}
  = (Returns slot, {| st_dsp := dsp; st_log := log ++ [EvReadSlot k] |}).
Proof.
  intros Hk Hslot. unfold readSlot. mrun.
  destruct (k <? 0) eqn:Hlt; [lia |]. by rewrite Hslot.
Qed.

Lemma decodeArgs_nil s : decodeArgs mem meth args argOffset [] s = mret s.
Proof. reflexivity. Qed.

Lemma decodeArgs_cons c sig s :
  decodeArgs mem meth args argOffset (c :: sig) s
  = (decodeStep mem meth args argOffset c s
     ≫= decodeArgs mem meth args argOffset sig).
Proof. reflexivity. Qed.

Lemma decodeArgs_app sig1 sig2 s st :
  decodeArgs mem meth args argOffset (sig1 ++ sig2) s st
  = (decodeArgs mem meth args argOffset sig1 s
     ≫= decodeArgs mem meth args argOffset sig2) st.
Proof.
  revert s st. induction sig1 as [|c sig1 IH]; intros s st.
  - reflexivity.
  - cbn [app]. rewrite !decodeArgs_cons, !bind_run.
    destruct (decodeStep mem meth args argOffset c s st) as [[s1|p] st1].
    + rewrite IH. by rewrite bind_run.
    + reflexivity.
Qed.

(** The decoding steps, tag by tag. *)

Lemma decodeStep_i_eq i callArgs :
  decodeStep mem meth args argOffset (rune "i") (i, callArgs)
  = (slot ← readSlot args (i + argOffset) ;
     t ← liftR (In_ (Type_ meth) i) ;
     v ← liftR (Convert TInt32 (asInt32 slot) t) ;
     mret (i + 1, callArgs ++ [v])).
Proof. reflexivity. Qed.

Lemma decodeStep_u_eq i callArgs :
  decodeStep mem meth args argOffset (rune "u") (i, callArgs)
  = (slot ← readSlot args (i + argOffset) ;
     t ← liftR (In_ (Type_ meth) i) ;
     v ← liftR (Convert TUint32 (asUint32 slot) t) ;
     mret (i + 1, callArgs ++ [v])).
Proof. reflexivity. Qed.

Lemma decodeStep_o_eq i callArgs :
  decodeStep mem meth args argOffset (rune "o") (i, callArgs)
  = (slot ← readSlot args (i + argOffset) ;
     t ← liftR (In_ (Type_ meth) i) ;
     v ← liftR (Convert TUint32 (asUint32 slot) t) ;
     mret (i + 1, callArgs ++ [v])).
Proof. reflexivity. Qed.

Lemma decodeStep_f_eq i callArgs :
  decodeStep mem meth args argOffset (rune "f") (i, callArgs)
  = (slot ← readSlot args (i + argOffset) ;
     mret (i + 1, callArgs ++ [VInt wl_fixed_t (asInt32 slot)])).
Proof. reflexivity. Qed.

Lemma decodeStep_s_eq i callArgs :
  decodeStep mem meth args argOffset (rune "s") (i, callArgs)
  = (slot ← readSlot args (i + argOffset) ;
     str ← liftR (GoString mem (asPointer slot)) ;
     mret (i + 1, callArgs ++ [VString TString str])).
Proof. reflexivity. Qed.

Lemma decodeStep_a_eq i callArgs :
  decodeStep mem meth args argOffset (rune "a") (i, callArgs)
  = (slot ← readSlot args (i + argOffset) ;
     t ← liftR (In_ (Type_ meth) i) ;
     elem ← liftR (Elem t) ;
     if bool_decide (elem = TInt32) then
       a ← liftR (loadArray mem (asPointer slot)) ;
       v ← liftR (unsafe_Slice TInt32 (data a) (size a / 4)) ;
       mret (i + 1, callArgs ++ [v])
     else if bool_decide (elem = TUint32) then
       a ← liftR (loadArray mem (asPointer slot)) ;
       v ← liftR (unsafe_Slice TUint32 (data a) (size a / 4)) ;
       mret (i + 1, callArgs ++ [v])
     else panic (PUnsupportedElem elem)).
Proof. reflexivity. Qed.

Lemma decodeStep_int_run c src view i callArgs dsp log slot t v :
  (c = rune "i" ∧ src = TInt32 ∧ view = asInt32)
  ∨ ((c = rune "u" ∨ c = rune "o") ∧ src = TUint32 ∧ view = asUint32) →
  0 ≤ i + argOffset →
  args !! Z.to_nat (i + argOffset) = Some slot →
  In_ (Type_ meth) i = Returns t →
  Convert src (view slot) t = Returns v →
  decodeStep mem meth args argOffset c (i, callArgs)
    {| st_dsp := dsp; st_log := log |}
  = (Returns (i + 1, callArgs ++ [v]),
     {| st_dsp := dsp; st_log := log ++ [EvReadSlot (i + argOffset)] |}).
Proof.
  intros Hc Hk Hslot Hin Hconv.
  destruct Hc as [(-> & -> & ->) | ([-> | ->] & -> & ->)];
    [rewrite decodeStep_i_eq | rewrite decodeStep_u_eq | rewrite decodeStep_o_eq];
    (rewrite bind_run, (readSlot_run _ _ _ _ Hk Hslot);
     mrun; rewrite Hin; mrun; rewrite Hconv; reflexivity).
Qed.

Lemma decodeStep_f_run i callArgs dsp log slot :
  0 ≤ i + argOffset →
  args !! Z.to_nat (i + argOffset) = Some slot →
  decodeStep mem meth args argOffset (rune "f") (i, callArgs)
    {| st_dsp := dsp; st_log := log |}
  = (Returns (i + 1, callArgs ++ [VInt wl_fixed_t (asInt32 slot)]),
     {| st_dsp := dsp; st_log := log ++ [EvReadSlot (i + argOffset)] |}).
Proof.
  intros Hk Hslot. rewrite decodeStep_f_eq.
  rewrite bind_run, (readSlot_run _ _ _ _ Hk Hslot). reflexivity.
Qed.

Lemma decodeStep_s_run i callArgs dsp log slot str :
  0 ≤ i + argOffset →
  args !! Z.to_nat (i + argOffset) = Some slot →
  GoString mem (asPointer slot) = Returns str →
  decodeStep mem meth args argOffset (rune "s") (i, callArgs)
    {| st_dsp := dsp; st_log := log |}
  = (Returns (i + 1, callArgs ++ [VString TString str]),
     {| st_dsp := dsp; st_log := log ++ [EvReadSlot (i + argOffset)] |}).
Proof.
  intros Hk Hslot Hstr. rewrite decodeStep_s_eq.
  rewrite bind_run, (readSlot_run _ _ _ _ Hk Hslot).
  mrun. rewrite Hstr. reflexivity.
Qed.

Lemma decodeStep_a_run i callArgs dsp log slot t elem a v :
  0 ≤ i + argOffset →
  args !! Z.to_nat (i + argOffset) = Some slot →
  In_ (Type_ meth) i = Returns t →
  Elem t = Returns elem →
  elem = TInt32 ∨ elem = TUint32 →
  loadArray mem (asPointer slot) = Returns a →
  unsafe_Slice elem (data a) (size a / 4) = Returns v →
  decodeStep mem meth args argOffset (rune "a") (i, callArgs)
    {| st_dsp := dsp; st_log := log |}
  = (Returns (i + 1, callArgs ++ [v]),
     {| st_dsp := dsp; st_log := log ++ [EvReadSlot (i + argOffset)] |}).
Proof.
  intros Hk Hslot Hin Helem He Hload Hslice. rewrite decodeStep_a_eq.
  rewrite bind_run, (readSlot_run _ _ _ _ Hk Hslot).
  mrun. rewrite Hin. mrun. rewrite Helem. mrun.
  destruct He as [-> | ->].
  - rewrite bool_decide_eq_true_2 by done.
    mrun. rewrite Hload. mrun. rewrite Hslice. reflexivity.
  - rewrite bool_decide_eq_false_2 by done.
    rewrite bool_decide_eq_true_2 by done.
    mrun. rewrite Hload. mrun. rewrite Hslice. reflexivity.
Qed.

(** [continue]: a ['?'] or a digit changes neither the state of the loop
    nor that of the dispatch. *)
Lemma decodeStep_skip c s st :
  c = rune "?" ∨ isDigit c = true →
  decodeStep mem meth args argOffset c s st = (Returns s, st).
Proof.
  intros Hc. destruct s as [i callArgs]. unfold decodeStep.
  destruct Hc as [-> | Hd]; [reflexivity |].
  rewrite Hd. unfold isDigit in Hd. apply andb_true_iff in Hd as [H0 H9].
  apply Z.leb_le in H0. apply Z.leb_le in H9.
  eval_runes.
  repeat match goal with
         | |- context [c =? ?v] =>
           let H := fresh in
           destruct (c =? v) eqn:H; [apply Z.eqb_eq in H; lia | clear H]
         end.
  reflexivity.
Qed.

(** The tags at which the loop panics on its own account. *)
Lemma decodeStep_unsupported c s st :
  supportedTag c = false →
  decodeStep mem meth args argOffset c s st = (Panics (tagPanic c), st).
Proof.
  intros Hc. destruct s as [i callArgs]. unfold decodeStep, tagPanic.
  unfold supportedTag in Hc.
  repeat (apply orb_false_iff in Hc as [Hc ?]).
  unfold isDigit in *.
  repeat match goal with
         | H : (c =? ?x) = false |- _ => rewrite H; clear H
         end.
  destruct (c =? rune "n"); [reflexivity |].
  destruct (c =? rune "h"); [reflexivity |].
  match goal with H : _ && _ = false |- _ => rewrite H end.
  reflexivity.
Qed.

End DecodeFacts.

(** ** Unset callbacks *)

(** The field-callback half of C1: a nil field ends the dispatch with
    result 0 after the one field lookup; nothing is read or called and
    the display is unchanged. *)
Lemma dispatcher_nil_field user mem (dsp : Display) target opcode msg args
    obj methName ft :
  proxies dsp !! target = Some obj →
  internal obj = None →
  methodName (name msg) = Returns methName →
  FieldByName obj ("On" ++ methName) = Some (ft, None) →
  run (dispatcher user mem target opcode msg args) dsp
  = (Returns 0,
     {| st_dsp := dsp;
        st_log := [EvFieldByName (typeName obj) ("On" ++ methName)] |}).
Proof.
  intros Hobj Hint Hname Hfield. unfold run.
  rewrite (dispatcher_known _ _ _ _ _ _ _ _ _ Hobj).
  rewrite bind_run. unfold liftR at 1. rewrite Hname.
  rewrite bind_run. unfold resolve. rewrite Hint.
  rewrite bind_run. cbn [emit st_dsp st_log app].
  rewrite Hfield. reflexivity.
Qed.

(** ** Equations of resolution and of the call *)

Section RunFacts.

Variable user : Fn → list Value → gmap Ptr Obj → Result (gmap Ptr Obj).
Variable mem : CMem.

Lemma callFn_run f args dsp log :
  callFn user (Some f) args {| st_dsp := dsp; st_log := log |}
  = match user f args (proxies dsp) with
    | Returns px =>
      (Returns tt,
       {| st_dsp := {| proxies := px; methods := methods dsp |};
          st_log := log ++ [EvUser f args] |})
    | Panics p =>
      (Panics p, {| st_dsp := dsp; st_log := log ++ [EvUser f args] |})
    end.
Proof.
  unfold callFn. mrun. by destruct (user f args (proxies dsp)).
Qed.

Lemma callFn_nil_run args st :
  callFn user None args st = (Panics PNilDereference, st).
Proof. reflexivity. Qed.

Lemma Call_run meth callArgs dsp log :
  checkCall (Type_ meth) callArgs = Returns tt →
  Call user meth callArgs {| st_dsp := dsp; st_log := log |}
  = match meth with
    | CMethod m => callMethod user m callArgs
    | CField _ _ _ f => callFn user f callArgs
    end {| st_dsp := dsp; st_log := log ++ [EvCall meth callArgs] |}.
Proof. intros Hcheck. unfold Call. mrun. rewrite Hcheck. by mrun. Qed.

Lemma Call_panic meth callArgs p st :
  checkCall (Type_ meth) callArgs = Panics p →
  Call user meth callArgs st = (Panics p, st).
Proof. intros Hcheck. unfold Call. mrun. by rewrite Hcheck. Qed.

Lemma invoke_run meth recv sig args st i callArgs st' :
  IsNil meth = false →
  decodeArgs mem meth args (if recv is Some _ then -1 else 0) (runes sig)
    (if recv is Some r then (1, [r]) else (0, [])) st
  = (Returns (i, callArgs), st') →
  invoke user mem meth recv sig args st
  = (Call user meth callArgs ;; mret 0) st'.
Proof.
  intros Hnil Hdec. unfold invoke.
  destruct recv as [r|]; rewrite bind_run, Hdec, Hnil; reflexivity.
Qed.

Lemma invoke_panic meth recv sig args st p st' :
  decodeArgs mem meth args (if recv is Some _ then -1 else 0) (runes sig)
    (if recv is Some r then (1, [r]) else (0, [])) st
  = (Panics p, st') →
  invoke user mem meth recv sig args st = (Panics p, st').
Proof.
  intros Hdec. unfold invoke.
  destruct recv as [r|]; rewrite bind_run, Hdec; reflexivity.
Qed.

Lemma resolve_field_run obj methName ft f dsp log :
  internal obj = None →
  FieldByName obj ("On" ++ methName) = Some (ft, f) →
  resolve obj methName {| st_dsp := dsp; st_log := log |}
  = (Returns (CField (typeName obj) ("On" ++ methName) ft f, None),
     {| st_dsp := dsp;
        st_log := log ++ [EvFieldByName (typeName obj) ("On" ++ methName)] |}).
Proof.
  intros Hint Hfield. unfold resolve. rewrite Hint. mrun.
  by rewrite Hfield.
Qed.

Lemma resolve_hit_run obj typ methName tmeth dsp log :
  internal obj = Some typ →
  methods dsp !! (typ, methName) = Some tmeth →
  resolve obj methName {| st_dsp := dsp; st_log := log |}
  = (Returns (CMethod tmeth, Some (VRecv typ obj)),
     {| st_dsp := dsp; st_log := log |}).
Proof.
  intros Hint Hhit. unfold resolve. rewrite Hint. mrun.
  rewrite Hhit. reflexivity.
Qed.

Lemma resolve_miss_run obj typ methName tmeth dsp log :
  internal obj = Some typ →
  methods dsp !! (typ, methName) = None →
  MethodByName typ methName = Some tmeth →
  resolve obj methName {| st_dsp := dsp; st_log := log |}
  = (Returns (CMethod tmeth, Some (VRecv typ obj)),
     {| st_dsp := {| proxies := proxies dsp;
                     methods := <[(typ, methName) := tmeth]> (methods dsp) |};
        st_log := log ++ [EvMethodByName typ methName] |}).
Proof.
  intros Hint Hmiss Hmeth. unfold resolve. rewrite Hint. mrun.
  rewrite Hmiss. mrun. rewrite Hmeth. by mrun.
Qed.

End RunFacts.

(** ** The Surface example *)

(** C2, as the source has it.  A [Surface] registered under [h] receives
    ["preferred_buffer_scale"] with signature ["i"] and a first slot whose
    low 32 bits hold the value 2.  The dispatcher looks up the field
    [OnPreferred_buffer_scale] (only the first letter of the message name
    is capitalized, the underscores stay), reads slot 0 and calls the
    field's function with the single [int] argument 2. *)
Theorem dispatcher_surface_preferred_buffer_scale
    user mem (dsp : Display) (h : Ptr) (vers : Z) (f : Fn) opcode (hi : Z) :
  let surf := OSurface {| Surface.hnd := h; Surface.vers := vers;
                          Surface.OnPreferred_buffer_scale := Some f |} in
  let r := run (dispatcher user mem h opcode
                  {| name := "preferred_buffer_scale"; signature := "i" |}
                  [2 + hi * 2 ^ 32])
               (add h surf dsp) in
  st_log (snd r)
  = [EvFieldByName "*wayland.Surface" "OnPreferred_buffer_scale";
     EvReadSlot 0;
     EvCall (CField "*wayland.Surface" "OnPreferred_buffer_scale" [TInt] (Some f))
       [VInt TInt 2];
     EvUser f [VInt TInt 2]]
  ∧ fst r = match user f [VInt TInt 2] (proxies (add h surf dsp)) with
            | Returns _ => Returns 0
            | Panics p => Panics p
            end.
Proof.
  intros surf r. subst r. unfold run.
  rewrite (dispatcher_known _ _ _ _ _ _ _ surf _ (lookup_add h surf dsp)).
  change (methodName _) with (@Returns string "Preferred_buffer_scale").
  mrun.
  rewrite (resolve_field_run surf "Preferred_buffer_scale" [TInt] (Some f))
    by reflexivity.
  cbn [IsNil typeName surf app].
  assert (asInt32 (2 + hi * 2 ^ 32) = 2) as Hslot.
  { unfold asInt32, wrap_signed.
    replace (2 + hi * 2 ^ 32 + 2 ^ (32 - 1)) with (2 + 2 ^ 31 + hi * 2 ^ 32) by lia.
    rewrite Z.mod_add by lia. reflexivity. }
  erewrite invoke_run; [| reflexivity |].
  2:{ cbn [signature]. change (runes "i") with [rune "i"].
      rewrite decodeArgs_cons, bind_run.
      erewrite (decodeStep_int_run mem _ _ _ (rune "i") TInt32 asInt32);
        [reflexivity | by left | done | reflexivity | reflexivity |].
      rewrite Convert_int32_int, Hslot. reflexivity. }
  rewrite bind_run, Call_run by reflexivity.
  rewrite callFn_run. cbn [proxies add app].
  by destruct (user f [VInt TInt 2] _).
Qed.

(** C2, as the claim words it, fails: in the example of the
    specification (handle 1, slot value 2) no field named
    [OnPreferredBufferScale] is called, and [Surface] has no field of
    that name to begin with. *)
Lemma dispatcher_surface_no_camel_case_field :
  ¬ (∃ ft f args,
       EvCall (CField "*wayland.Surface" "OnPreferredBufferScale" ft f) args
       ∈ st_log (snd (run (dispatcher userSkip noMem 1 0
                             {| name := "preferred_buffer_scale";
                                signature := "i" |} [2])
                          (add 1 example_surface Connect))))
  ∧ FieldByName example_surface "OnPreferredBufferScale" = None.
Proof.
  split; [| reflexivity].
  intros (ft & f & args & Hin).
  match type of Hin with
  | _ ∈ ?l => let v := eval vm_compute in l in change l with v in Hin
  end.
  repeat (apply elem_of_cons in Hin as [Hin | Hin]; [discriminate |]).
  by apply elem_of_nil in Hin.
Qed.

(** ** Unset callbacks under delegated dispatch *)

(** C1, delegated half, where the source departs from the claim.  A
    [Callback] whose [OnDone] is nil receives ["done"]: the method
    [callback.Done] is resolved, is never nil and is called; its body
    calls the nil [OnDone], and the dispatch ends in a nil dereference
    panic instead of returning 0. *)
Theorem dispatcher_delegated_nil_callback
    user mem (h : Ptr) opcode (slot : Z) :
  let cb := OCallback {| Callback.hnd := h; Callback.OnDone := None |} in
  let r := run (dispatcher user mem h opcode
                  {| name := "done"; signature := "u" |} [slot])
               (add h cb Connect) in
  fst r = Panics PNilDereference ∧
  st_log (snd r)
  = [EvMethodByName callback "Done";
     EvReadSlot 0;
     EvCall (CMethod callback_Done)
       [VRecv callback cb; VInt TUint32 (asUint32 slot)]].
Proof.
  intros cb r. subst r. unfold run.
  rewrite (dispatcher_known _ _ _ _ _ _ _ cb _ (lookup_add h cb Connect)).
  change (methodName _) with (@Returns string "Done").
  mrun.
  rewrite (resolve_miss_run cb callback "Done" callback_Done) by reflexivity.
  cbn [IsNil app signature].
  erewrite invoke_run; [| reflexivity |].
  2:{ change (runes "u") with [rune "u"].
      rewrite decodeArgs_cons, bind_run.
      erewrite (decodeStep_int_run mem _ _ _ (rune "u") TUint32 asUint32);
        [reflexivity | right; by auto | done | reflexivity | reflexivity |].
      apply Convert_uint32_uint32. }
  rewrite bind_run, Call_run by reflexivity.
  split; reflexivity.
Qed.

(** ** No validation of the callable against the signature *)

(** C5, where the source departs from the claim.  A [Registry] receives
    ["global"] with signature ["uiu"] although [OnGlobal] takes
    [(uint32, string, uint32)].  Nothing compares the signature with the
    parameter types: the integer 65 of the second slot is converted to
    the string ["A"] and [OnGlobal] is called with it. *)
Theorem dispatcher_calls_mismatched_callable
    user mem (dsp : Display) (h : Ptr) (f : Fn) opcode :
  let reg := ORegistry {| Registry.hnd := h; Registry.OnGlobal := Some f;
                          Registry.OnGlobalRemove := None |} in
  let callArgs := [VInt TUint32 1; VString TString "A"; VInt TUint32 3] in
  st_log (snd (run (dispatcher user mem h opcode
                      {| name := "global"; signature := "uiu" |} [1; 65; 3])
                   (add h reg dsp)))
  = [EvFieldByName "*wayland.Registry" "OnGlobal";
     EvReadSlot 0; EvReadSlot 1; EvReadSlot 2;
     EvCall (CField "*wayland.Registry" "OnGlobal"
               [TUint32; TString; TUint32] (Some f)) callArgs;
     EvUser f callArgs].
Proof.
  intros reg callArgs. unfold run.
  rewrite (dispatcher_known _ _ _ _ _ _ _ reg _ (lookup_add h reg dsp)).
  change (methodName _) with (@Returns string "Global").
  mrun.
  rewrite (resolve_field_run reg "Global" [TUint32; TString; TUint32] (Some f))
    by reflexivity.
  cbn [IsNil typeName reg app signature].
  erewrite invoke_run; [| reflexivity |].
  2:{ change (runes "uiu") with [rune "u"; rune "i"; rune "u"].
      rewrite decodeArgs_cons, bind_run.
      erewrite (decodeStep_int_run mem _ _ _ (rune "u") TUint32 asUint32);
        [| right; by auto | done | reflexivity | reflexivity | reflexivity].
      rewrite decodeArgs_cons, bind_run.
      erewrite (decodeStep_int_run mem _ _ _ (rune "i") TInt32 asInt32);
        [| by left | done | reflexivity | reflexivity | reflexivity].
      rewrite decodeArgs_cons, bind_run.
      erewrite (decodeStep_int_run mem _ _ _ (rune "u") TUint32 asUint32);
        [| right; by auto | done | reflexivity | reflexivity | reflexivity].
      reflexivity. }
  rewrite bind_run, Call_run by reflexivity.
  rewrite callFn_run. cbn [proxies add app].
  by destruct (user f _ _).
Qed.

(** ** What the decoding loop can do *)

Lemma readsOnly_ret {A} (a : A) : readsOnly (mret a).
Proof.
  intros st r st' [= <- <-]. split; [done |].
  exists []. by rewrite app_nil_r.
Qed.

Lemma readsOnly_panic {A} p : readsOnly (@panic A p).
Proof.
  intros st r st' [= <- <-]. split; [done |].
  exists []. by rewrite app_nil_r.
Qed.

Lemma readsOnly_liftR {A} (x : Result A) : readsOnly (liftR x).
Proof.
  intros st r st' [= <- <-]. split; [done |].
  exists []. by rewrite app_nil_r.
Qed.

Lemma readsOnly_bind {A B} (m : M A) (f : A → M B) :
  readsOnly m → (∀ a, readsOnly (f a)) → readsOnly (m ≫= f).
Proof.
  intros Hm Hf st r st' Hrun. rewrite bind_run in Hrun.
  destruct (m st) as [[a|p] st1] eqn:Hm1.
  - destruct (Hm _ _ _ Hm1) as (Hd1 & l1 & Hl1 & Hr1).
    destruct (Hf a _ _ _ Hrun) as (Hd2 & l2 & Hl2 & Hr2).
    split; [congruence |]. exists (l1 ++ l2).
    rewrite Hl2, Hl1, <- app_assoc. split; [done |]. by apply Forall_app.
  - injection Hrun as <- <-. by apply (Hm _ _ _ Hm1).
Qed.

Lemma readsOnly_readSlot args k : readsOnly (readSlot args k).
Proof.
  intros st r st' Hrun. unfold readSlot in Hrun. rewrite bind_run in Hrun.
  cbn [emit] in Hrun.
  assert (st' = {| st_dsp := st_dsp st; st_log := st_log st ++ [EvReadSlot k] |})
    as ->.
  { destruct (k <? 0); [by injection Hrun |].
    destruct (args !! Z.to_nat k); by injection Hrun. }
  split; [done |]. exists [EvReadSlot k]. split; [done |].
  by repeat constructor.
Qed.

Create HintDb reads.

#[local] Hint Resolve readsOnly_ret readsOnly_panic readsOnly_liftR
  readsOnly_readSlot : reads.

Lemma readsOnly_decodeStep mem meth args argOffset c s :
  readsOnly (decodeStep mem meth args argOffset c s).
Proof.
  destruct s as [i callArgs]. unfold decodeStep.
  repeat first
    [ apply readsOnly_bind; [auto with reads | intros ?]
    | match goal with |- readsOnly (if ?b then _ else _) => destruct b end
    | solve [auto with reads] ].
Qed.

Lemma readsOnly_decodeArgs mem meth args argOffset sig s :
  readsOnly (decodeArgs mem meth args argOffset sig s).
Proof.
  revert s. induction sig as [|c sig IH]; intros s.
  - apply readsOnly_ret.
  - rewrite decodeArgs_cons. apply readsOnly_bind; [| done].
    apply readsOnly_decodeStep.
Qed.

(** Resolution logs lookups only. *)
Lemma resolve_log obj methName st r st' :
  resolve obj methName st = (r, st') →
  ∃ l, st_log st' = st_log st ++ l ∧ Forall (λ e, isLookup e = true) l.
Proof.
  unfold resolve. intros Hrun.
  destruct (internal obj) as [typ|].
  - rewrite !bind_run in Hrun. cbn [getDisplay] in Hrun.
    destruct (methods (st_dsp st) !! (typ, methName)) as [tmeth|].
    + injection Hrun as <- <-. exists []. by rewrite app_nil_r.
    + rewrite bind_run in Hrun. cbn [emit] in Hrun.
      exists [EvMethodByName typ methName].
      split; [| by repeat constructor].
      destruct (MethodByName typ methName); by injection Hrun as <- <-.
  - rewrite bind_run in Hrun. cbn [emit] in Hrun.
    exists [EvFieldByName (typeName obj) ("On" ++ methName)].
    split; [| by repeat constructor].
    destruct (FieldByName obj ("On" ++ methName)) as [[ft f]|];
      by injection Hrun as <- <-.
Qed.

(** ** Nullable strings *)

(** C6. Decoding the signature ["?s"] against a slot that holds a null
    pointer succeeds with the empty string as the one argument: the ['?']
    takes no slot, and [C.GoString] answers a null pointer without
    looking at C memory, whatever that memory holds. *)
Theorem decodeArgs_nullable_string_null
    mem meth (args : list Z) argOffset i callArgs dsp log slot :
  0 ≤ i + argOffset →
  args !! Z.to_nat (i + argOffset) = Some slot →
  asPointer slot = 0 →
  decodeArgs mem meth args argOffset (runes "?s") (i, callArgs)
    {| st_dsp := dsp; st_log := log |}
  = (Returns (i + 1, callArgs ++ [VString TString ""]),
     {| st_dsp := dsp; st_log := log ++ [EvReadSlot (i + argOffset)] |}).
Proof.
  intros Hk Hslot Hnull.
  change (runes "?s") with [rune "?"; rune "s"].
  rewrite decodeArgs_cons, bind_run, decodeStep_skip by (by left).
  rewrite decodeArgs_cons, bind_run.
  rewrite (decodeStep_s_run mem _ _ _ _ _ _ _ slot "" Hk Hslot).
  - reflexivity.
  - unfold GoString. by rewrite Hnull.
Qed.

Lemma decodeArgs_nullable_string_null_witness :
  decodeArgs noMem (CField "*wayland.Registry" "OnGlobal"
                      [TUint32; TString; TUint32] None)
    [7; 0; 9] 0 (runes "?s") (1, [VInt TUint32 7])
    {| st_dsp := Connect; st_log := [] |}
  = (Returns (1 + 1, [VInt TUint32 7] ++ [VString TString ""]),
     {| st_dsp := Connect; st_log := [] ++ [EvReadSlot (1 + 0)] |}).
Proof.
  apply (decodeArgs_nullable_string_null _ _ _ _ _ _ _ _ 0);
    [lia | reflexivity | reflexivity].
Defined.

(** The same from end to end: a callable that takes one string is called
    with the empty string. *)
Lemma invoke_nullable_string_null user mem owner fname (f : Fn) dsp :
  st_log (snd (run (invoke user mem (CField owner fname [TString] (Some f))
                      None "?s" [0]) dsp))
  = [EvReadSlot 0;
     EvCall (CField owner fname [TString] (Some f)) [VString TString ""];
     EvUser f [VString TString ""]].
Proof.
  unfold run. erewrite invoke_run; [| reflexivity |].
  2:{ by apply (decodeArgs_nullable_string_null _ _ _ _ _ _ _ _ 0). }
  rewrite bind_run, Call_run by reflexivity.
  rewrite callFn_run. cbn [app]. by destruct (user f _ _).
Qed.

(** ** Runes of a signature around an ASCII byte *)

Lemma is_cont_ascii d : d < 0x80 → is_cont d = false.
Proof. intros Hd. unfold is_cont. destruct (0x80 <=? d) eqn:E; [lia | done]. Qed.

(** A byte below 0x80 is never taken for a continuation byte, so what is
    decoded before it does not depend on what follows. *)
Lemma decodeRune_ascii_sync b0 rest d post :
  d < 0x80 →
  decodeRune (b0 :: rest ++ d :: post) = decodeRune (b0 :: rest)
  ∧ (snd (decodeRune (b0 :: rest)) ≤ S (length rest))%nat.
Proof.
  intros Hd. pose proof (is_cont_ascii d Hd) as Hc.
  unfold decodeRune.
  destruct (b0 <? 0x80); [split; [done | cbn; lia] |].
  destruct rest as [|b1 [|b2 [|b3 rest]]];
    destruct post as [|p1 [|p2 post]];
    cbn [app length];
    rewrite ?Hc, ?andb_false_r; cbn [andb];
    repeat match goal with
           | |- context [if ?b then _ else _] => destruct b
           end;
    cbn [snd]; split; (reflexivity || lia).
Qed.

Lemma runes_from_skip_app k l1 l2 :
  (k ≤ length l1)%nat →
  runes_from k (l1 ++ l2) = runes_from 0 (drop k l1 ++ l2).
Proof.
  revert l1. induction k as [|k IH]; intros l1 Hk; [done |].
  destruct l1 as [|b l1]; [cbn in Hk; lia |].
  cbn [app runes_from drop]. apply IH. cbn in Hk. lia.
Qed.

Lemma runes_from_skip k l :
  (k ≤ length l)%nat → runes_from k l = runes_from 0 (drop k l).
Proof.
  intros Hk. rewrite <- (app_nil_r l) at 1.
  rewrite runes_from_skip_app by done. by rewrite app_nil_r.
Qed.

Lemma runes_from_ascii_sync n pre d post :
  (length pre ≤ n)%nat →
  d < 0x80 →
  runes_from 0 (pre ++ d :: post) = runes_from 0 pre ++ d :: runes_from 0 post.
Proof.
  revert pre. induction n as [|n IH]; intros pre Hn Hd.
  - destruct pre; [| cbn in Hn; lia].
    cbn [app runes_from decodeRune]. destruct (d <? 0x80) eqn:E; [done | lia].
  - destruct pre as [|b0 rest].
    + cbn [app runes_from decodeRune]. destruct (d <? 0x80) eqn:E; [done | lia].
    + cbn [app]. cbn [runes_from].
      destruct (decodeRune_ascii_sync b0 rest d post Hd) as [Heq Hw].
      rewrite Heq. destruct (decodeRune (b0 :: rest)) as [r w].
      cbn [snd] in Hw.
      rewrite runes_from_skip_app by lia.
      rewrite (runes_from_skip (Nat.pred w) rest) by lia.
      rewrite IH; [done | | done].
      rewrite length_drop. cbn in Hn. lia.
Qed.

Lemma bytes_of_string_app s1 s2 :
  bytes_of_string (String.append s1 s2) = bytes_of_string s1 ++ bytes_of_string s2.
Proof.
  induction s1 as [|a s1 IH]; [done |].
  change (String a s1 +:+ s2) with (String a (s1 +:+ s2)).
  cbn [bytes_of_string app]. by rewrite IH.
Qed.

(** An ASCII character of a signature is always met by the loop as a rune
    of its own, whatever bytes surround it. *)
Lemma runes_ascii_sync (pre post : string) (a : ascii) :
  rune a < 0x80 →
  runes (String.append pre (String a post)) = runes pre ++ rune a :: runes post.
Proof.
  intros Ha. unfold runes. rewrite bytes_of_string_app. cbn [bytes_of_string].
  by apply (runes_from_ascii_sync (length (bytes_of_string pre))).
Qed.

(** ** Digits *)

Lemma decodeArgs_skip_middle
    mem meth (args : list Z) argOffset (pre post : list Z) (c : Z) s st :
  c = rune "?" ∨ isDigit c = true →
  decodeArgs mem meth args argOffset (pre ++ c :: post) s st
  = decodeArgs mem meth args argOffset (pre ++ post) s st.
Proof.
  intros Hc. rewrite !decodeArgs_app, !bind_run.
  destruct (decodeArgs mem meth args argOffset pre s st) as [[s1|p] st1];
    [| reflexivity].
  by rewrite decodeArgs_cons, bind_run, decodeStep_skip.
Qed.

(** C7. A digit in the signature is stepped over: the step leaves the
    index [i], from which the slot offset is computed, and [callArgs] as
    they are and logs nothing, so the loop over a signature with a digit
    behaves in every respect (values, slot reads, panics) as the loop
    over the signature without it.  This holds for the runes the loop
    visits and, since a digit byte is always visited as a rune of its
    own, for a digit character anywhere in a signature string. *)
Theorem decodeArgs_digit_skipped
    mem meth (args : list Z) argOffset (pre post : list Z) (d : Z) s st :
  isDigit d = true →
  decodeStep mem meth args argOffset d s st = (Returns s, st)
  ∧ decodeArgs mem meth args argOffset (pre ++ d :: post) s st
    = decodeArgs mem meth args argOffset (pre ++ post) s st
  ∧ ∀ (spre spost : string) (a : ascii),
      rune a = d →
      decodeArgs mem meth args argOffset
        (runes (spre +:+ String a spost)) s st
      = decodeArgs mem meth args argOffset (runes spre ++ runes spost) s st.
Proof.
  intros Hd. split; [apply decodeStep_skip; by right |].
  split; [apply decodeArgs_skip_middle; by right |].
  intros spre spost a <-.
  rewrite runes_ascii_sync.
  - apply decodeArgs_skip_middle. by right.
  - unfold isDigit in Hd. apply andb_true_iff in Hd as [_ H9].
    apply Z.leb_le in H9. eval_runes. lia.
Qed.

Lemma decodeArgs_digit_skipped_witness :
  let meth := CField "*wayland.Surface" "OnPreferred_buffer_scale" [TInt] None in
  let st := {| st_dsp := Connect; st_log := [] |} in
  decodeStep noMem meth [2] 0 (rune "6") (0, []) st = (Returns (0, []), st)
  ∧ decodeArgs noMem meth [2] 0 ([] ++ rune "6" :: [rune "i"]) (0, []) st
    = decodeArgs noMem meth [2] 0 ([] ++ [rune "i"]) (0, []) st
  ∧ ∀ (spre spost : string) (a : ascii),
      rune a = rune "6" →
      decodeArgs noMem meth [2] 0 (runes (spre +:+ String a spost)) (0, []) st
      = decodeArgs noMem meth [2] 0 (runes spre ++ runes spost) (0, []) st.
Proof. apply decodeArgs_digit_skipped. reflexivity. Defined.

(** ** Unsupported tags *)

Lemma isLookup_not_invocation e : isLookup e = true → isInvocation e = false.
Proof. by destruct e. Qed.

Lemma isSlotRead_not_invocation e : isSlotRead e = true → isInvocation e = false.
Proof. by destruct e. Qed.

(** The loop never gets past an unsupported tag: it panics there, or
    before. *)
Lemma decodeArgs_unsupported mem meth (args : list Z) argOffset pre c post s st :
  supportedTag c = false →
  (∃ p st', decodeArgs mem meth args argOffset (pre ++ c :: post) s st
            = (Panics p, st'))
  ∧ ∀ s1 st1,
      decodeArgs mem meth args argOffset pre s st = (Returns s1, st1) →
      decodeArgs mem meth args argOffset (pre ++ c :: post) s st
      = (Panics (tagPanic c), st1).
Proof.
  intros Hc. rewrite decodeArgs_app, bind_run.
  destruct (decodeArgs mem meth args argOffset pre s st) as [[s1|p] st1].
  - rewrite decodeArgs_cons, bind_run, decodeStep_unsupported by done.
    split; [by eauto |]. by intros ? ? [= <- <-].
  - split; [by eauto |]. by intros ? ? [=].
Qed.

Lemma invoke_unsupported user mem meth recv sig (args : list Z) pre c post st :
  runes sig = pre ++ c :: post →
  supportedTag c = false →
  ∃ p l, invoke user mem meth recv sig args st
         = (Panics p, {| st_dsp := st_dsp st; st_log := st_log st ++ l |})
         ∧ Forall (λ e, isSlotRead e = true) l.
Proof.
  intros Hsig Hc.
  destruct (decodeArgs_unsupported mem meth args
              (if recv is Some _ then -1 else 0) pre c post
              (if recv is Some r then (1, [r]) else (0, [])) st Hc)
    as [(p & st' & Hrun) _].
  rewrite <- Hsig in Hrun.
  destruct (readsOnly_decodeArgs _ _ _ _ _ _ _ _ _ Hrun) as (Hd & l & Hl & Hr).
  exists p, l. split; [| done].
  rewrite (invoke_panic _ _ _ _ _ _ _ _ _ Hrun).
  destruct st' as [d' l']. cbn in Hd, Hl. by subst.
Qed.

(** C8. When the signature holds ['h'], ['n'] or a rune outside the tag
    alphabet, decoding ends in a panic: the call of the callable is never
    reached, the display is unchanged and only slot reads were logged;
    if the tags before it decode, the panic is the one of that very tag
    and nothing after it is looked at; and a dispatch of such a message
    never invokes a handler, whatever else happens to it. *)
Theorem decodeArgs_unsupported_tag
    user mem meth recv (sig : string) (args : list Z) pre c post dsp :
  runes sig = pre ++ c :: post →
  supportedTag c = false →
  (∃ p log,
     run (invoke user mem meth recv sig args) dsp
     = (Panics p, {| st_dsp := dsp; st_log := log |})
     ∧ Forall (λ e, isSlotRead e = true) log)
  ∧ (∀ argOffset s st s1 st1,
       decodeArgs mem meth args argOffset pre s st = (Returns s1, st1) →
       decodeArgs mem meth args argOffset (runes sig) s st
       = (Panics (tagPanic c), st1))
  ∧ (∀ target opcode n,
       Forall (λ e, isInvocation e = false)
         (st_log (snd (run (dispatcher user mem target opcode
                              {| name := n; signature := sig |} args) dsp)))).
Proof.
  intros Hsig Hc. split; [| split].
  - destruct (invoke_unsupported user mem meth recv sig args pre c post
                {| st_dsp := dsp; st_log := [] |} Hsig Hc) as (p & l & Hrun & Hl).
    exists p, l. by rewrite <- (app_nil_l l).
  - intros argOffset s st s1 st1 Hpre. rewrite Hsig.
    exact (proj2 (decodeArgs_unsupported mem meth args argOffset
                    pre c post s st Hc) s1 st1 Hpre).
  - intros target opcode n. unfold run, dispatcher. mstep.
    destruct (proxies dsp !! target) as [obj|]; [| by constructor].
    mstep. cbn [name signature].
    destruct (methodName n) as [methName|p]; [| by constructor].
    rewrite bind_run.
    destruct (resolve obj methName _) as [[[meth' recv']|p] st1] eqn:Hres;
      destruct (resolve_log _ _ _ _ _ Hres) as (l1 & Hl1 & Hlook);
      cbn [st_log app] in Hl1.
    + destruct (IsNil meth').
      * cbn. rewrite Hl1. eapply Forall_impl; [done |].
        apply isLookup_not_invocation.
      * destruct (invoke_unsupported user mem meth' recv' sig args pre c post
                    st1 Hsig Hc) as (p & l2 & -> & Hl2).
        cbn [snd st_log]. rewrite Hl1. apply Forall_app. split.
        -- eapply Forall_impl; [done |]. apply isLookup_not_invocation.
        -- eapply Forall_impl; [done |]. apply isSlotRead_not_invocation.
    + cbn [snd]. rewrite Hl1. eapply Forall_impl; [done |].
      apply isLookup_not_invocation.
Qed.

Lemma decodeArgs_unsupported_tag_witness :
  let meth := CField "*wayland.Registry" "OnGlobal"
                [TUint32; TString; TUint32] (Some 0%nat) in
  (∃ p log,
     run (invoke userSkip noMem meth None "uhu" [1; 0; 3]) Connect
     = (Panics p, {| st_dsp := Connect; st_log := log |})
     ∧ Forall (λ e, isSlotRead e = true) log)
  ∧ (∀ argOffset s st s1 st1,
       decodeArgs noMem meth [1; 0; 3] argOffset [rune "u"] s st
       = (Returns s1, st1) →
       decodeArgs noMem meth [1; 0; 3] argOffset (runes "uhu") s st
       = (Panics (tagPanic (rune "h")), st1))
  ∧ (∀ target opcode n,
       Forall (λ e, isInvocation e = false)
         (st_log (snd (run (dispatcher userSkip noMem target opcode
                              {| name := n; signature := "uhu" |} [1; 0; 3])
                           Connect)))).
Proof.
  apply (decodeArgs_unsupported_tag userSkip noMem _ None "uhu" [1; 0; 3]
           [rune "u"] (rune "h") [rune "u"] Connect); reflexivity.
Defined.

(** ** Resolution and the method cache *)

(** What a successful first resolution leaves behind. *)
Lemma resolve_inv obj methName dsp c st1 :
  run (resolve obj methName) dsp = (Returns c, st1) →
  match internal obj with
  | Some typ =>
    ∃ tmeth, c = (CMethod tmeth, Some (VRecv typ obj))
             ∧ methods (st_dsp st1) !! (typ, methName) = Some tmeth
             ∧ methods dsp ⊆ methods (st_dsp st1)
             ∧ proxies (st_dsp st1) = proxies dsp
             ∧ (st_log st1 = [] ∨ st_log st1 = [EvMethodByName typ methName])
  | None =>
    ∃ ft f, c = (CField (typeName obj) ("On" ++ methName) ft f, None)
            ∧ FieldByName obj ("On" ++ methName) = Some (ft, f)
            ∧ st_dsp st1 = dsp
            ∧ st_log st1 = [EvFieldByName (typeName obj) ("On" ++ methName)]
  end.
Proof.
  unfold run, resolve. intros Hrun.
  destruct (internal obj) as [typ|].
  - rewrite !bind_run in Hrun. cbn [getDisplay st_dsp] in Hrun.
    destruct (methods dsp !! (typ, methName)) as [tmeth|] eqn:Hc.
    + injection Hrun as <- <-. exists tmeth. cbn [st_dsp st_log].
      repeat split; by auto.
    + rewrite bind_run in Hrun. cbn [emit st_dsp st_log] in Hrun.
      destruct (MethodByName typ methName) as [tmeth|]; [| done].
      rewrite !bind_run in Hrun. cbn [putDisplay] in Hrun.
      unfold mret, M_ret in Hrun.
      injection Hrun as <- <-. exists tmeth. cbn [st_dsp st_log methods proxies].
      split; [done |]. split; [apply lookup_insert_eq |].
      split; [by apply insert_subseteq |]. by auto.
  - rewrite bind_run in Hrun. cbn [emit st_dsp st_log] in Hrun.
    destruct (FieldByName obj ("On" ++ methName)) as [[ft f]|] eqn:Hf; [| done].
    injection Hrun as <- <-. by exists ft, f.
Qed.




(** ** The receiver under delegated dispatch *)

(** A step either leaves the state of the loop as it is or appends one
    value and moves the index by one. *)
Lemma decodeStep_index mem meth (args : list Z) argOffset c i callArgs st
    i' callArgs' st' :
  decodeStep mem meth args argOffset c (i, callArgs) st
  = (Returns (i', callArgs'), st') →
  (i' = i ∧ callArgs' = callArgs)
  ∨ (i' = i + 1 ∧ ∃ v, callArgs' = callArgs ++ [v]).
Proof.
  unfold decodeStep.
  repeat match goal with
         | |- context [if ?b then _ else _] => destruct b
         end;
    rewrite ?bind_run; unfold panic, mret, M_ret;
    try (intros [= <- <- <-]; by left); try done;
    destruct (readSlot args (i + argOffset) st) as [[slot|p] st1]; try done;
    repeat (rewrite ?bind_run; unfold liftR, panic, mret, M_ret;
            try done; try (intros [= <- <- <-]; right; by eauto);
            match goal with
            | |- context [match ?x with Returns _ => _ | Panics _ => _ end] =>
              is_var x || destruct x
            | |- context [if ?b then _ else _] => destruct b
            end);
    rewrite ?bind_run; unfold liftR, panic, mret, M_ret;
    try done; try (intros [= <- <- <-]; right; by eauto).
Qed.





(** One ['u'] of the signature, decoded for a [uint32] parameter. *)
Ltac step_u :=
  rewrite decodeArgs_cons, bind_run;
  erewrite (decodeStep_int_run _ _ _ _ (rune "u") TUint32 asUint32);
  [| right; by auto | lia | reflexivity | reflexivity
   | apply Convert_uint32_uint32].


Lemma cacheSound_Connect : cacheSound Connect.
Proof.
  intros typ methName tmeth Hc. cbn [Connect methods] in Hc.
  by rewrite lookup_empty in Hc.
Qed.

Lemma cacheSound_add proxy obj dsp : cacheSound dsp → cacheSound (add proxy obj dsp).
Proof. done. Qed.

Lemma cacheSound_forget proxy dsp : cacheSound dsp → cacheSound (forget proxy dsp).
Proof. done. Qed.



(** ** Arrays *)

Lemma emitsOnly_bind P {A B} (m : M A) (f : A → M B) :
  emitsOnly P m → (∀ a, emitsOnly P (f a)) → emitsOnly P (m ≫= f).
Proof.
  intros Hm Hf st r st' Hrun. rewrite bind_run in Hrun.
  destruct (m st) as [[a|p] st1] eqn:Hm1.
  - destruct (Hm _ _ _ Hm1) as (l1 & Hl1 & Hr1).
    destruct (Hf a _ _ _ Hrun) as (l2 & Hl2 & Hr2).
    exists (l1 ++ l2). rewrite Hl2, Hl1, <- app_assoc.
    split; [done |]. by apply Forall_app.
  - injection Hrun as <- <-. by apply (Hm _ _ _ Hm1).
Qed.

Lemma emitsOnly_silent P {A} (m : M A) :
  (∀ st r st', m st = (r, st') → st_log st' = st_log st) → emitsOnly P m.
Proof.
  intros Hm st r st' Hrun. exists []. rewrite app_nil_r.
  split; [by eapply Hm | constructor].
Qed.

Lemma emitsOnly_emit P e : P e = true → emitsOnly P (emit e).
Proof.
  intros He st r st' [= <- <-]. exists [e]. split; [done |].
  by repeat constructor.
Qed.

Lemma emitsOnly_callFn user f args : emitsOnly isBodyEvent (callFn user f args).
Proof.
  destruct f as [fn|]; [| by apply emitsOnly_silent; intros ? ? ? [= <- <-]].
  unfold callFn. apply emitsOnly_bind; [by apply emitsOnly_emit |]. intros _.
  apply emitsOnly_silent. intros st r st' Hrun.
  rewrite !bind_run in Hrun. cbn [getDisplay liftR] in Hrun.
  destruct (user fn args (proxies (st_dsp st))); by injection Hrun as <- <-.
Qed.

Lemma emitsOnly_dsp_forget proxy : emitsOnly isBodyEvent (dsp_forget proxy).
Proof. apply emitsOnly_silent. by intros st r st' [= <- <-]. Qed.

Lemma emitsOnly_callMethod user m args :
  emitsOnly isBodyEvent (callMethod user m args).
Proof.
  assert (emitsOnly isBodyEvent (@panic unit PFault)) as Hpanic.
  { apply emitsOnly_silent. by intros ? ? ? [= <- <-]. }
  destruct m; destruct args as [|v params]; try exact Hpanic;
    destruct v as [| | |t o]; try exact Hpanic;
    destruct o; try exact Hpanic; cbn [callMethod]; unfold Callback_Destroy;
    repeat first
      [ apply emitsOnly_callFn
      | apply emitsOnly_dsp_forget
      | by apply emitsOnly_emit
      | apply emitsOnly_bind; [| intros ?] ].
Qed.

(** The index of the loop is the length of [callArgs], and [callArgs]
    only grows. *)
Lemma decodeArgs_index mem meth (args : list Z) argOffset sig i callArgs st
    i' callArgs' st' :
  decodeArgs mem meth args argOffset sig (i, callArgs) st
  = (Returns (i', callArgs'), st') →
  i = Z.of_nat (length callArgs) →
  i' = Z.of_nat (length callArgs') ∧ ∃ ext, callArgs' = callArgs ++ ext.
Proof.
  revert i callArgs st. induction sig as [|c sig IH]; intros i callArgs st.
  - intros [= <- <- <-] Hi. split; [done |]. exists []. by rewrite app_nil_r.
  - rewrite decodeArgs_cons, bind_run.
    destruct (decodeStep mem meth args argOffset c (i, callArgs) st)
      as [[[i1 ca1]|p] st1] eqn:Hstep; [| done].
    intros Hrest Hi.
    destruct (decodeStep_index _ _ _ _ _ _ _ _ _ _ _ Hstep)
      as [[-> ->] | [-> (v & ->)]].
    + by apply (IH _ _ _ Hrest).
    + destruct (IH _ _ _ Hrest) as (Hi' & ext & ->).
      { rewrite length_app. cbn. lia. }
      split; [done |]. exists (v :: ext). by rewrite <- app_assoc.
Qed.






Lemma readSlot_inv (args : list Z) k st slot st' :
  readSlot args k st = (Returns slot, st') →
  0 ≤ k ∧ args !! Z.to_nat k = Some slot
  ∧ st' = {| st_dsp := st_dsp st; st_log := st_log st ++ [EvReadSlot k] |}.
Proof.
  unfold readSlot. rewrite bind_run. cbn [emit].
  destruct (k <? 0) eqn:Hk; [done |].
  destruct (args !! Z.to_nat k) as [s|]; [| done].
  intros [= <- <-]. split; [lia | done].
Qed.



(** The one call of a dispatch is made with the decoded arguments, after
    [Value.Call] has accepted them. *)
Lemma invoke_call_inv user mem meth recv (sig : string) (args : list Z) dsp
    r st' c vs :
  run (invoke user mem meth recv sig args) dsp = (r, st') →
  EvCall c vs ∈ st_log st' →
  c = meth
  ∧ checkCall (Type_ meth) vs = Returns tt
  ∧ ∃ i st1,
      decodeArgs mem meth args (loopOffset recv) (runes sig) (loopStart recv)
        {| st_dsp := dsp; st_log := [] |}
      = (Returns (i, vs), st1).
Proof.
  unfold run. intros Hrun Hin.
  destruct (decodeArgs mem meth args (loopOffset recv) (runes sig)
              (loopStart recv) {| st_dsp := dsp; st_log := [] |})
    as [[[i ca]|p] st1] eqn:Hdec.
  - destruct (readsOnly_decodeArgs _ _ _ _ _ _ _ _ _ Hdec)
      as (_ & l & Hl & Hreads). cbn [st_log app] in Hl.
    assert (∀ l', Forall (λ e, isBodyEvent e = true) l' →
                  EvCall c vs ∈ l ++ l' → False) as Hno.
    { intros l' Hl' Hel. apply elem_of_app in Hel as [Hel | Hel].
      - by eapply Forall_forall in Hel; [| exact Hreads].
      - by eapply Forall_forall in Hel; [| exact Hl']. }
    destruct (IsNil meth) eqn:Hnil.
    + exfalso. apply (Hno []); [constructor |]. rewrite app_nil_r, <- Hl.
      unfold invoke, loopStart, loopOffset in *.
      destruct recv; rewrite bind_run, Hdec, Hnil in Hrun;
        by injection Hrun as <- <-.
    + rewrite (invoke_run user mem meth recv sig args _ i ca st1 Hnil)
        in Hrun by (by destruct recv).
      rewrite bind_run in Hrun.
      destruct (checkCall (Type_ meth) ca) as [[]|p] eqn:Hcheck.
      * destruct st1 as [d1 l1]. cbn [st_log] in Hl. subst l1.
        rewrite Call_run in Hrun by done.
        assert (emitsOnly isBodyEvent
                  match meth with
                  | CMethod m => callMethod user m ca
                  | CField _ _ _ f => callFn user f ca
                  end) as Hbody.
        { destruct meth; [apply emitsOnly_callMethod | apply emitsOnly_callFn]. }
        destruct (match meth with
                  | CMethod m => callMethod user m ca
                  | CField _ _ _ f => callFn user f ca
                  end {| st_dsp := d1; st_log := l ++ [EvCall meth ca] |})
          as [r2 st2] eqn:Hcall.
        destruct (Hbody _ _ _ Hcall) as (l2 & Hl2 & Hb2). cbn [st_log] in Hl2.
        assert (st_log st' = (l ++ [EvCall meth ca]) ++ l2) as Hlog.
        { destruct r2; by injection Hrun as <- <-. }
        rewrite Hlog in Hin.
        apply elem_of_app in Hin as [Hin | Hin];
          [apply elem_of_app in Hin as [Hin | Hin] |].
        -- by eapply Forall_forall in Hin; [| exact Hreads].
        -- apply list_elem_of_singleton in Hin. injection Hin as -> ->.
           by eauto.
        -- by eapply Forall_forall in Hin; [| exact Hb2].
      * exfalso. apply (Hno []); [constructor |]. rewrite app_nil_r, <- Hl.
        rewrite (Call_panic _ _ _ _ _ Hcheck) in Hrun.
        by injection Hrun as <- <-.
  - exfalso.
    rewrite (invoke_panic user mem meth recv sig args _ p st1) in Hrun
      by (by destruct recv).
    injection Hrun as <- <-.
    destruct (readsOnly_decodeArgs _ _ _ _ _ _ _ _ _ Hdec)
      as (_ & l & Hl & Hreads). cbn [st_log app] in Hl. rewrite Hl in Hin.
    by eapply Forall_forall in Hin; [| exact Hreads].
Qed.



(** ** The method cache across dispatches *)

Lemma keepsMethods_bind {A B} (m : M A) (f : A → M B) :
  keepsMethods m → (∀ a, keepsMethods (f a)) → keepsMethods (m ≫= f).
Proof.
  intros Hm Hf st r st' Hrun. rewrite bind_run in Hrun.
  destruct (m st) as [[a|p] st1] eqn:Hm1.
  - rewrite (Hf a _ _ _ Hrun). by eapply Hm.
  - injection Hrun as <- <-. by eapply Hm.
Qed.

Lemma keepsMethods_same {A} (m : M A) :
  (∀ st r st', m st = (r, st') → st_dsp st' = st_dsp st) → keepsMethods m.
Proof. intros Hm st r st' Hrun. by rewrite (Hm _ _ _ Hrun). Qed.

Lemma keepsMethods_decodeArgs mem meth (args : list Z) argOffset sig s :
  keepsMethods (decodeArgs mem meth args argOffset sig s).
Proof.
  apply keepsMethods_same. intros st r st' Hrun.
  by apply (readsOnly_decodeArgs _ _ _ _ _ _ _ _ _ Hrun).
Qed.

Lemma keepsMethods_callFn user f args : keepsMethods (callFn user f args).
Proof.
  destruct f as [fn|]; [| by intros ? ? ? [= <- <-]].
  intros st r st' Hrun. unfold callFn in Hrun.
  repeat (rewrite bind_run in Hrun;
          cbn [emit getDisplay liftR putDisplay st_dsp st_log] in Hrun).
  destruct (user fn args (proxies (st_dsp st))); by injection Hrun as <- <-.
Qed.

Lemma keepsMethods_dsp_forget proxy : keepsMethods (dsp_forget proxy).
Proof. by intros st r st' [= <- <-]. Qed.

Lemma keepsMethods_emit e : keepsMethods (emit e).
Proof. by intros st r st' [= <- <-]. Qed.

Lemma keepsMethods_callMethod user m args : keepsMethods (callMethod user m args).
Proof.
  assert (keepsMethods (@panic unit PFault)) as Hpanic
    by (by intros ? ? ? [= <- <-]).
  destruct m; destruct args as [|v params]; try exact Hpanic;
    destruct v as [| | |t o]; try exact Hpanic;
    destruct o; try exact Hpanic; cbn [callMethod]; unfold Callback_Destroy;
    repeat first
      [ apply keepsMethods_callFn
      | apply keepsMethods_dsp_forget
      | apply keepsMethods_emit
      | apply keepsMethods_bind; [| intros ?] ].
Qed.

Lemma keepsMethods_Call user meth callArgs : keepsMethods (Call user meth callArgs).
Proof.
  unfold Call. apply keepsMethods_bind; [by intros ? ? ? [= <- <-] |].
  intros _. apply keepsMethods_bind; [apply keepsMethods_emit |]. intros _.
  destruct meth; [apply keepsMethods_callMethod | apply keepsMethods_callFn].
Qed.

Lemma keepsMethods_invoke user mem meth recv (sig : string) (args : list Z) :
  keepsMethods (invoke user mem meth recv sig args).
Proof.
  unfold invoke. destruct recv;
    (apply keepsMethods_bind; [apply keepsMethods_decodeArgs |];
     intros [i callArgs]; apply keepsMethods_bind;
     [destruct (negb (IsNil meth));
        [apply keepsMethods_Call | by intros ? ? ? [= <- <-]]
     | by intros ? ? ? ? [= <- <-]]).
Qed.

(** Resolution only adds to the cache, and only what [MethodByName]
    answers. *)
Lemma resolve_cache obj methName st r st' :
  resolve obj methName st = (r, st') →
  methods (st_dsp st) ⊆ methods (st_dsp st')
  ∧ (cacheSound (st_dsp st) → cacheSound (st_dsp st')).
Proof.
  unfold resolve. intros Hrun. destruct (internal obj) as [typ|].
  - rewrite !bind_run in Hrun. cbn [getDisplay] in Hrun.
    destruct (methods (st_dsp st) !! (typ, methName)) as [tmeth|] eqn:Hc.
    + by injection Hrun as <- <-.
    + rewrite bind_run in Hrun. cbn [emit] in Hrun.
      destruct (MethodByName typ methName) as [tmeth|] eqn:Hm;
        [| by injection Hrun as <- <-].
      rewrite !bind_run in Hrun. cbn [putDisplay st_dsp st_log] in Hrun.
      unfold mret, M_ret in Hrun. injection Hrun as <- <-.
      cbn [st_dsp methods]. split; [by apply insert_subseteq |].
      intros Hsound typ' n' m' Hl. cbn [st_dsp methods] in Hl.
      destruct (decide ((typ, methName) = (typ', n'))) as [[= <- <-]|Hne].
      * rewrite lookup_insert_eq in Hl. by injection Hl as <-.
      * rewrite lookup_insert_ne in Hl by done. by apply Hsound.
  - rewrite bind_run in Hrun. cbn [emit] in Hrun.
    destruct (FieldByName obj ("On" ++ methName)) as [[ft f]|];
      by injection Hrun as <- <-.
Qed.

(** A dispatch never removes an entry of the method cache and keeps it
    sound; with [cacheSound_Connect], [cacheSound_add] and
    [cacheSound_forget], every display that the binding can reach has a
    sound cache. *)
Lemma dispatcher_cache user mem (dsp : Display) target opcode msg args :
  let dsp' := st_dsp (snd (run (dispatcher user mem target opcode msg args) dsp)) in
  methods dsp ⊆ methods dsp' ∧ (cacheSound dsp → cacheSound dsp').
Proof.
  cbn zeta. unfold run, dispatcher. mstep.
  destruct (proxies dsp !! target) as [obj|]; [| done].
  mstep. destruct (methodName (name msg)) as [methName|]; [| done].
  rewrite bind_run.
  destruct (resolve obj methName _) as [[[meth recv]|p] st1] eqn:Hres;
    destruct (resolve_cache _ _ _ _ _ Hres) as [Hsub Hsound];
    cbn [st_dsp] in Hsub, Hsound; [| done].
  destruct (IsNil meth); [done |].
  destruct (invoke user mem meth recv (signature msg) args st1)
    as [r st2] eqn:Hinv.
  pose proof (keepsMethods_invoke _ _ _ _ _ _ _ _ _ Hinv) as Hkeep.
  cbn [snd]. unfold cacheSound in *. rewrite Hkeep. done.
Qed.

(** ** The slots a dispatch reads *)

Lemma readSlot_log (args : list Z) k st r st1 :
  readSlot args k st = (r, st1) →
  st1 = {| st_dsp := st_dsp st; st_log := st_log st ++ [EvReadSlot k] |}.
Proof.
  unfold readSlot. rewrite bind_run. cbn [emit].
  destruct (k <? 0); [by intros [= <- <-] |].
  destruct (args !! Z.to_nat k); by intros [= <- <-].
Qed.

Lemma isArgTag_skip c : c = rune "?" ∨ isDigit c = true ↔ isArgTag c = false.
Proof.
  unfold isArgTag. rewrite negb_false_iff, orb_true_iff, Z.eqb_eq. done.
Qed.

(** One turn of the loop: a ['?'] or a digit does nothing; any other
    tag reads the slot at [i + argOffset] at most once, and if it goes
    through it has read it and appended one value. *)
Lemma decodeStep_reads mem meth (args : list Z) argOffset c i callArgs st r st' :
  decodeStep mem meth args argOffset c (i, callArgs) st = (r, st') →
  st_dsp st' = st_dsp st
  ∧ ((isArgTag c = false ∧ r = Returns (i, callArgs) ∧ st_log st' = st_log st)
     ∨ (isArgTag c = true ∧ (∃ p, r = Panics p)
        ∧ (st_log st' = st_log st
           ∨ st_log st' = st_log st ++ [EvReadSlot (i + argOffset)]))
     ∨ (isArgTag c = true ∧ (∃ v, r = Returns (i + 1, callArgs ++ [v]))
        ∧ st_log st' = st_log st ++ [EvReadSlot (i + argOffset)])).
Proof.
  destruct (isArgTag c) eqn:Htag.
  - intros Hrun.
    assert (c ≠ rune "?") as Hq.
    { intros ->. by vm_compute in Htag. }
    assert (isDigit c = false) as Hd.
    { unfold isArgTag in Htag. apply negb_true_iff, orb_false_iff in Htag.
      by destruct Htag. }
    unfold decodeStep in Hrun. rewrite Hd in Hrun.
    apply Z.eqb_neq in Hq. rewrite Hq in Hrun.
    revert Hrun.
    repeat match goal with
           | |- context [if ?b then _ else _] => destruct b
           end;
      rewrite ?bind_run; unfold panic;
      try (intros [= <- <-]; split; [done |]; right; left; by eauto);
      (destruct (readSlot args (i + argOffset) st) as [[slot|p] st1] eqn:Hread;
       apply readSlot_log in Hread as ->;
       [| intros [= <- <-]; split; [done |]; right; left; by eauto]);
      repeat (rewrite ?bind_run; unfold liftR, panic, mret, M_ret;
              try (intros [= <- <-]; split; [done |]; right; left; by eauto);
              try (intros [= <- <-]; split; [done |]; right; right; by eauto);
              match goal with
              | |- context [match ?x with Returns _ => _ | Panics _ => _ end] =>
                is_var x || destruct x
              | |- context [if ?b then _ else _] => destruct b
              end);
      rewrite ?bind_run; unfold liftR, panic, mret, M_ret;
      try (intros [= <- <-]; split; [done |]; right; left; by eauto);
      try (intros [= <- <-]; split; [done |]; right; right; by eauto).
  - intros Hrun. apply isArgTag_skip in Htag.
    rewrite decodeStep_skip in Hrun by done. injection Hrun as <- <-.
    split; [done |]. by left.
Qed.

Lemma slotReads_S k n : slotReads k (S n) = EvReadSlot k :: slotReads (k + 1) n.
Proof.
  unfold slotReads. rewrite seqZ_cons by lia. cbn [fmap list_fmap].
  do 3 f_equal; lia.
Qed.

Lemma slotCount_cons c sig :
  slotCount (c :: sig) = if isArgTag c then S (slotCount sig) else slotCount sig.
Proof. unfold slotCount. cbn [List.filter]. by destruct (isArgTag c). Qed.

Lemma decodeArgs_reads mem meth (args : list Z) argOffset sig i callArgs st r st' :
  decodeArgs mem meth args argOffset sig (i, callArgs) st = (r, st') →
  ∃ n, (n ≤ slotCount sig)%nat
       ∧ st_log st' = st_log st ++ slotReads (i + argOffset) n
       ∧ st_dsp st' = st_dsp st
       ∧ ∀ i' callArgs',
           r = Returns (i', callArgs') →
           n = slotCount sig ∧ i' = i + Z.of_nat n
           ∧ length callArgs' = (length callArgs + n)%nat.
Proof.
  revert i callArgs st. induction sig as [|c sig IH]; intros i callArgs st.
  - intros [= <- <-]. exists 0%nat. cbn. rewrite app_nil_r.
    repeat split; try done; injection H as <- <-; lia.
  - rewrite decodeArgs_cons, bind_run, slotCount_cons.
    destruct (decodeStep mem meth args argOffset c (i, callArgs) st)
      as [r1 st1] eqn:Hstep.
    destruct (decodeStep_reads _ _ _ _ _ _ _ _ _ _ Hstep)
      as (Hd & [(-> & -> & Hl) | [(-> & (p & ->) & Hl) | (-> & (v & ->) & Hl)]]).
    + intros Hrest. destruct (IH _ _ _ Hrest) as (n & Hn & Hlog & Hdsp & Hret).
      exists n. rewrite Hlog, Hl, Hdsp, Hd. done.
    + intros [= <- <-]. destruct Hl as [Hl | Hl].
      * exists 0%nat. rewrite Hl. cbn. rewrite app_nil_r.
        repeat split; (done || lia).
      * exists 1%nat. rewrite Hl. repeat split; (done || lia).
    + intros Hrest. destruct (IH _ _ _ Hrest) as (n & Hn & Hlog & Hdsp & Hret).
      exists (S n). rewrite Hlog, Hl, Hdsp, Hd, slotReads_S, <- app_assoc.
      replace (i + 1 + argOffset) with (i + argOffset + 1) by lia.
      repeat split; try done; try lia;
        destruct (Hret _ _ H) as (-> & -> & Hlen);
        rewrite ?length_app in *; cbn in *; lia.
Qed.

(** Decoding reads the slots 0, 1, 2, ... in this order and nothing else,
    under both strategies, and leaves the display alone.  It never reads
    more slots than the signature has argument tags; when it goes through
    it has read exactly that many and appended as many values to
    [callArgs], behind the receiver if there is one. *)
Theorem decodeArgs_slots mem meth (args : list Z) recv (sig : list Z) dsp r st' :
  decodeArgs mem meth args (loopOffset recv) sig (loopStart recv)
    {| st_dsp := dsp; st_log := [] |} = (r, st') →
  ∃ n, (n ≤ slotCount sig)%nat
       ∧ st_log st' = slotReads 0 n
       ∧ st_dsp st' = dsp
       ∧ ∀ i callArgs,
           r = Returns (i, callArgs) →
           n = slotCount sig
           ∧ length callArgs = (length (snd (loopStart recv)) + n)%nat
           ∧ i = Z.of_nat (length callArgs).
Proof.
  intros Hrun.
  assert (∃ i0 ca0, loopStart recv = (i0, ca0) ∧ i0 + loopOffset recv = 0
                    ∧ i0 = Z.of_nat (length ca0)) as (i0 & ca0 & Hs & Hoff & Hi0).
  { unfold loopStart, loopOffset. destruct recv; by eauto. }
  rewrite Hs in Hrun |- *.
  destruct (decodeArgs_reads _ _ _ _ _ _ _ _ _ _ Hrun)
    as (n & Hn & Hlog & Hdsp & Hret).
  rewrite Hoff in Hlog. exists n. repeat split; try done;
    destruct (Hret _ _ H) as (? & ? & ?); cbn [snd]; lia.
Qed.

Lemma decodeArgs_slots_witness :
  ∃ n, (n ≤ slotCount (runes "2i?su"))%nat
       ∧ st_log {| st_dsp := Connect;
                   st_log := [EvReadSlot 0; EvReadSlot 1; EvReadSlot 2] |}
         = slotReads 0 n
       ∧ st_dsp {| st_dsp := Connect;
                   st_log := [EvReadSlot 0; EvReadSlot 1; EvReadSlot 2] |}
         = Connect
       ∧ ∀ i callArgs,
           @Returns DecodeState
             (3, [VInt TInt32 (-1); VString TString ""; VInt TUint32 7])
           = Returns (i, callArgs) →
           n = slotCount (runes "2i?su")
           ∧ length callArgs = (length (snd (loopStart None)) + n)%nat
           ∧ i = Z.of_nat (length callArgs).
Proof.
  apply (decodeArgs_slots noMem
           (CField "" "" [TInt32; TString; TUint32] None)
           [2 ^ 32 - 1; 0; 7] None).
  reflexivity.
Defined.

(** ** What reaches the callable *)

Lemma checkArgs_Forall2 ins (callArgs : list Value) :
  length ins = length callArgs →
  checkArgs ins callArgs = Returns tt →
  Forall2 (λ v t, AssignableTo (typeOf v) t = true) callArgs ins.
Proof.
  revert callArgs. induction ins as [|targ ins IH]; intros [|x callArgs] Hlen;
    try discriminate Hlen.
  - intros _. constructor.
  - cbn [checkArgs]. destruct (AssignableTo (typeOf x) targ) eqn:Hx; [| done].
    intros Hrest. constructor; [done |]. apply IH; [by injection Hlen | done].
Qed.

Lemma checkCall_Forall2 ins (callArgs : list Value) :
  checkCall ins callArgs = Returns tt →
  Forall2 (λ v t, AssignableTo (typeOf v) t = true) callArgs ins.
Proof.
  unfold checkCall.
  destruct (length callArgs <? length ins)%nat eqn:E1; [done |].
  destruct (length ins <? length callArgs)%nat eqn:E2; [done |].
  apply Nat.ltb_ge in E1, E2. apply checkArgs_Forall2. lia.
Qed.

(** The callable is only entered with as many arguments as it has
    parameters, each of a type assignable to its parameter; so a message
    whose number of argument tags (plus one for the receiver) is not the
    number of parameters never gets to the callable. *)
Theorem invoke_call_checked user mem meth recv (sig : string) (args : list Z)
    dsp r st' c vs :
  run (invoke user mem meth recv sig args) dsp = (r, st') →
  EvCall c vs ∈ st_log st' →
  c = meth
  ∧ Forall2 (λ v t, AssignableTo (typeOf v) t = true) vs (Type_ meth)
  ∧ (length (snd (loopStart recv)) + slotCount (runes sig))%nat
    = length (Type_ meth).
Proof.
  intros Hrun Hin.
  destruct (invoke_call_inv _ _ _ _ _ _ _ _ _ _ _ Hrun Hin)
    as (-> & Hcheck & i & st1 & Hdec).
  pose proof (checkCall_Forall2 _ _ Hcheck) as Hall.
  split; [done |]. split; [done |].
  destruct (decodeArgs_reads _ _ _ _ _ _ _ _ _ _
              (eq_ind _ (λ s, decodeArgs mem meth args (loopOffset recv)
                                (runes sig) s _ = _) Hdec _
                 (surjective_pairing (loopStart recv))))
    as (n & _ & _ & _ & Hret).
  destruct (Hret _ _ eq_refl) as (-> & _ & Hlen).
  apply Forall2_length in Hall. lia.
Qed.

Lemma invoke_call_checked_witness :
  example_configure = example_configure
  ∧ Forall2 (λ v t, AssignableTo (typeOf v) t = true)
      [VInt TInt32 800; VInt TInt32 600; VSlice TUint32 8192 1]
      (Type_ example_configure)
  ∧ (length (snd (loopStart None)) + slotCount (runes "iia"))%nat
    = length (Type_ example_configure).
Proof.
  apply (invoke_call_checked userSkip example_mem example_configure None "iia"
           example_configure_args Connect
           (fst (run (invoke userSkip example_mem example_configure None
                        "iia" example_configure_args) Connect))
           (snd (run (invoke userSkip example_mem example_configure None
                        "iia" example_configure_args) Connect))).
  - apply surjective_pairing.
  - vm_compute. do 3 apply list_elem_of_further. apply list_elem_of_here.
Defined.

(** ** The order of events in a dispatch *)

Lemma callFn_log user f params st r st' :
  callFn user f params st = (r, st') →
  st_log st' = st_log st ++ (if f is Some fn then [EvUser fn params] else []).
Proof.
  destruct f as [fn|].
  - rewrite (surjective_pairing_St st) at 1. rewrite callFn_run.
    destruct (user fn params (proxies (st_dsp st))); by intros [= <- <-].
  - intros [= <- <-]. by rewrite app_nil_r.
Qed.

Lemma bodyShape_callFn (f : option Fn) params :
  bodyShape params (if f is Some fn then [EvUser fn params] else []).
Proof. destruct f as [fn|]; [right; exists fn, []; by split | by left]. Qed.

Lemma callMethod_log user m callArgs st r st' :
  callMethod user m callArgs st = (r, st') →
  ∃ body, st_log st' = st_log st ++ body ∧ bodyShape (tail callArgs) body.
Proof.
  assert (∀ st r st', @panic unit PFault st = (r, st') →
            ∃ body, st_log st' = st_log st ++ body
                    ∧ bodyShape (tail callArgs) body) as Hpanic.
  { intros ? ? ? [= <- <-]. exists []. rewrite app_nil_r. split; [done | by left]. }
  destruct m; destruct callArgs as [|v params]; try apply Hpanic;
    destruct v as [| | |t o]; try apply Hpanic;
    destruct o; try apply Hpanic; cbn [callMethod tail];
    try (intros Hrun; apply callFn_log in Hrun; eexists; split; [exact Hrun |];
         apply bodyShape_callFn);
    rewrite bind_run;
    (destruct (callFn user _ params st) as [[[]|p] st1] eqn:Hfn;
     pose proof (callFn_log _ _ _ _ _ _ Hfn) as Hlog;
     [| intros [= <- <-]; eexists; split; [exact Hlog |]; apply bodyShape_callFn]).
  - (* Done *)
    destruct (Callback.OnDone o) as [fn|]; [| done].
    unfold Callback_Destroy, dsp_forget. rewrite !bind_run. cbn [emit].
    rewrite bind_run. cbn [getDisplay putDisplay st_log].
    intros [= <- <-]. cbn [st_log]. rewrite Hlog, <- app_assoc.
    eexists. split; [done |]. right. exists fn, [EvCgo "wl_callback_destroy" (Callback.hnd o)].
    split; [done |]. by repeat constructor.
  - (* Presented *)
    intros [= <- <-]. cbn [st_log]. eexists. split; [exact Hlog |].
    apply bodyShape_callFn.
  - (* Discarded *)
    intros [= <- <-]. cbn [st_log]. eexists. split; [exact Hlog |].
    apply bodyShape_callFn.
Qed.

Lemma invoke_shape user mem meth recv (sig : string) (args : list Z) st r st' :
  invoke user mem meth recv sig args st = (r, st') →
  ∃ n tail,
    st_log st' = st_log st ++ slotReads 0 n ++ tail
    ∧ (n ≤ slotCount (runes sig))%nat
    ∧ callShape meth (bool_decide (n = slotCount (runes sig))) tail.
Proof.
  intros Hrun.
  assert (∃ i0 ca0, loopStart recv = (i0, ca0) ∧ i0 + loopOffset recv = 0)
    as (i0 & ca0 & Hs & Hoff).
  { unfold loopStart, loopOffset. destruct recv; by eauto. }
  destruct (decodeArgs mem meth args (loopOffset recv) (runes sig) (i0, ca0) st)
    as [[[i ca]|p] st1] eqn:Hdec;
    destruct (decodeArgs_reads _ _ _ _ _ _ _ _ _ _ Hdec)
      as (n & Hn & Hlog & _ & Hret); rewrite Hoff in Hlog.
  - destruct (Hret _ _ eq_refl) as (-> & _ & _).
    exists (slotCount (runes sig)).
    destruct (IsNil meth) eqn:Hnil.
    + exists []. rewrite app_nil_r. split; [| split; [done | by left]].
      unfold invoke, loopStart, loopOffset in *.
      destruct recv; injection Hs as <- <-;
        rewrite bind_run, Hdec, Hnil in Hrun; by injection Hrun as <- <-.
    + rewrite (invoke_run user mem meth recv sig args st i ca st1 Hnil) in Hrun.
      2:{ unfold loopStart, loopOffset in *. destruct recv;
            by injection Hs as <- <-. }
      rewrite bind_run in Hrun.
      destruct (checkCall (Type_ meth) ca) as [[]|p] eqn:Hcheck.
      * rewrite (surjective_pairing_St st1), Call_run in Hrun by done.
        destruct (match meth with
                  | CMethod m => callMethod user m ca
                  | CField _ _ _ f => callFn user f ca
                  end _) as [r2 st2] eqn:Hcall.
        assert (∃ body, st_log st2 = (st_log st1 ++ [EvCall meth ca]) ++ body
                        ∧ bodyShape (userArgs meth ca) body) as (body & Hb & Hshape).
        { destruct meth as [m|owner fname ft f].
          - by apply callMethod_log in Hcall.
          - apply callFn_log in Hcall. eexists. split; [exact Hcall |].
            apply bodyShape_callFn. }
        assert (st_log st' = st_log st2) as ->
          by (destruct r2; by injection Hrun as <- <-).
        exists (EvCall meth ca :: body).
        rewrite Hb, Hlog, <- !app_assoc. split; [done |]. split; [done |].
        right. exists ca, body. by rewrite bool_decide_eq_true_2.
      * rewrite (Call_panic _ _ _ _ _ Hcheck) in Hrun. injection Hrun as <- <-.
        exists []. rewrite app_nil_r. split; [done |]. split; [done | by left].
  - exists n, []. rewrite app_nil_r. split; [| split; [done | by left]].
    rewrite (invoke_panic user mem meth recv sig args st p st1) in Hrun.
    + by injection Hrun as <- <-.
    + unfold loopStart, loopOffset in *. destruct recv; by injection Hs as <- <-.
Qed.

Lemma resolve_lookups obj methName st r st' :
  resolve obj methName st = (r, st') →
  ∃ l, st_log st' = st_log st ++ l
       ∧ Forall (λ e, isLookup e = true) l ∧ (length l ≤ 1)%nat.
Proof.
  unfold resolve. intros Hrun.
  destruct (internal obj) as [typ|].
  - rewrite !bind_run in Hrun. cbn [getDisplay] in Hrun.
    destruct (methods (st_dsp st) !! (typ, methName)) as [tmeth|].
    + injection Hrun as <- <-. exists []. rewrite app_nil_r. cbn. by auto.
    + rewrite bind_run in Hrun. cbn [emit] in Hrun.
      exists [EvMethodByName typ methName].
      split; [| split; [by repeat constructor | done]].
      destruct (MethodByName typ methName); by injection Hrun as <- <-.
  - rewrite bind_run in Hrun. cbn [emit] in Hrun.
    exists [EvFieldByName (typeName obj) ("On" ++ methName)].
    split; [| split; [by repeat constructor | done]].
    destruct (FieldByName obj ("On" ++ methName)) as [[ft f]|];
      by injection Hrun as <- <-.
Qed.

(** The log of every dispatch has one shape: at most one reflective
    lookup; then reads of the slots 0, 1, 2, ..., never more than the
    signature has argument tags; then nothing, or the one call of the
    callable, made only after all slots were read, with at most one user
    function entered behind it, which is handed the decoded arguments
    without the receiver, and cgo calls after that.  So no slot is read
    after user code has run, nothing is looked up twice and nothing is
    called twice. *)
Theorem dispatcher_log_shape user mem (dsp : Display) target opcode msg args :
  ∃ looks n tail,
    st_log (snd (run (dispatcher user mem target opcode msg args) dsp))
    = looks ++ slotReads 0 n ++ tail
    ∧ (length looks ≤ 1)%nat
    ∧ Forall (λ e, isLookup e = true) looks
    ∧ (n ≤ slotCount (runes (signature msg)))%nat
    ∧ (tail = []
       ∨ ∃ meth callArgs body,
           tail = EvCall meth callArgs :: body
           ∧ n = slotCount (runes (signature msg))
           ∧ bodyShape (userArgs meth callArgs) body).
Proof.
  assert (∀ looks : list Event,
            (length looks ≤ 1)%nat → Forall (λ e, isLookup e = true) looks →
            ∃ looks' n tail,
              looks = looks' ++ slotReads 0 n ++ tail
              ∧ (length looks' ≤ 1)%nat
              ∧ Forall (λ e, isLookup e = true) looks'
              ∧ (n ≤ slotCount (runes (signature msg)))%nat
              ∧ (tail = []
                 ∨ ∃ meth callArgs body,
                     tail = EvCall meth callArgs :: body
                     ∧ n = slotCount (runes (signature msg))
                     ∧ bodyShape (userArgs meth callArgs) body)) as Hstop.
  { intros looks Hlen Hlooks. exists looks, 0%nat, []. cbn.
    rewrite app_nil_r. repeat split; (done || lia || by left). }
  unfold run, dispatcher. mstep.
  destruct (proxies dsp !! target) as [obj|]; [| by apply (Hstop []); [cbn; lia |]].
  mstep. destruct (methodName (name msg)) as [methName|];
    [| by apply (Hstop []); [cbn; lia |]].
  rewrite bind_run.
  destruct (resolve obj methName _) as [[[meth recv]|p] st1] eqn:Hres;
    destruct (resolve_lookups _ _ _ _ _ Hres) as (l & Hl & Hlooks & Hlen);
    cbn [st_log app] in Hl; [| cbn [snd]; rewrite Hl; by apply Hstop].
  destruct (IsNil meth); [cbn [snd mret M_ret]; rewrite Hl; by apply Hstop |].
  destruct (invoke user mem meth recv (signature msg) args st1)
    as [r st2] eqn:Hinv.
  destruct (invoke_shape _ _ _ _ _ _ _ _ _ Hinv) as (n & tail & Hlog & Hn & Hcall).
  exists l, n, tail. cbn [snd]. rewrite Hlog, Hl.
  repeat split; try done.
  destruct Hcall as [-> | (callArgs & body & -> & Hfull & Hbody)]; [by left |].
  right. exists meth, callArgs, body. apply bool_decide_eq_true in Hfull. done.
Qed.

(** ** Which parameter a tag feeds *)

(** When the callable is reached, the value decoded at an argument tag
    sits in [callArgs] at the index the loop had at that tag, and
    [Value.Call] has accepted it for the parameter of this index. *)
Lemma invoke_value_at user mem meth recv (sig : string) (args : list Z)
    pre c post dsp r st' c0 vs :
  runes sig = pre ++ c :: post →
  isArgTag c = true →
  run (invoke user mem meth recv sig args) dsp = (r, st') →
  EvCall c0 vs ∈ st_log st' →
  ∃ i callArgs st1 v st2 t,
    decodeArgs mem meth args (loopOffset recv) pre (loopStart recv)
      {| st_dsp := dsp; st_log := [] |} = (Returns (i, callArgs), st1)
    ∧ decodeStep mem meth args (loopOffset recv) c (i, callArgs) st1
      = (Returns (i + 1, callArgs ++ [v]), st2)
    ∧ 0 ≤ i
    ∧ vs !! Z.to_nat i = Some v
    ∧ Type_ meth !! Z.to_nat i = Some t
    ∧ AssignableTo (typeOf v) t = true.
Proof.
  intros Hsig Htag Hrun Hin.
  destruct (invoke_call_inv _ _ _ _ _ _ _ _ _ _ _ Hrun Hin)
    as (_ & Hcheck & i3 & st3 & Hdec).
  rewrite Hsig, decodeArgs_app, bind_run in Hdec.
  destruct (decodeArgs mem meth args (loopOffset recv) pre (loopStart recv) _)
    as [[[i ca]|p] st1] eqn:Hpre; [| done].
  rewrite decodeArgs_cons, bind_run in Hdec.
  destruct (decodeStep mem meth args (loopOffset recv) c (i, ca) st1)
    as [r2 st2] eqn:Hstep.
  destruct (decodeStep_reads _ _ _ _ _ _ _ _ _ _ Hstep)
    as (_ & [(Hf & _) | [(_ & (p & ->) & _) | (_ & (v & ->) & _)]]);
    [congruence | done |].
  assert (i = Z.of_nat (length ca)) as Hi.
  { unfold loopStart in Hpre.
    destruct recv; by apply (decodeArgs_index _ _ _ _ _ _ _ _ _ _ _ Hpre). }
  destruct (decodeArgs_index _ _ _ _ _ _ _ _ _ _ _ Hdec) as (_ & ext & ->).
  { rewrite length_app. cbn. lia. }
  assert (((ca ++ [v]) ++ ext) !! Z.to_nat i = Some v) as Hv.
  { rewrite Hi, Nat2Z.id, <- app_assoc. by apply list_lookup_middle. }
  pose proof (checkCall_Forall2 _ _ Hcheck) as Hall.
  destruct (Forall2_lookup_l _ _ _ _ _ Hall Hv) as (t & Ht & Hassign).
  exists i, ca, st1, v, st2, t. repeat split; (done || lia).
Qed.

Lemma AssignableTo_named xt t :
  hasName xt = true → hasName t = true →
  AssignableTo xt t = true → t = xt.
Proof.
  unfold AssignableTo. intros Hx Ht H. rewrite Hx, Ht in H. cbn in H.
  rewrite orb_false_r in H. by apply bool_decide_eq_true in H.
Qed.

Lemma AssignableTo_basic xt t :
  hasName xt = true → kind xt ≠ KPointer → kind xt ≠ KSlice →
  AssignableTo xt t = true → t = xt.
Proof.
  intros Hx Hp Hs H. destruct (hasName t) eqn:Ht.
  - by apply AssignableTo_named.
  - unfold AssignableTo in H. apply orb_true_iff in H as [H | H].
    + by apply bool_decide_eq_true in H.
    + apply andb_true_iff in H as [H _]. apply andb_true_iff in H as [_ H].
      apply bool_decide_eq_true in H. by destruct t.
Qed.

(** No field and no method of the binding has a parameter of type
    [C.wl_fixed_t]. *)
Lemma FieldByName_elem obj fname ft f :
  FieldByName obj fname = Some (ft, f) → ∃ n, (n, (ft, f)) ∈ funcFields obj.
Proof.
  unfold FieldByName. intros H. apply fmap_Some in H as ([n x] & Hfind & ->).
  apply find_some in Hfind as [Hin _]. exists n.
  by apply list_elem_of_In.
Qed.

Lemma funcFields_no_fixed obj n ft f :
  (n, (ft, f)) ∈ funcFields obj → wl_fixed_t ∉ ft.
Proof.
  intros Hin Hfix. destruct obj; cbn [funcFields] in Hin;
    repeat (apply elem_of_cons in Hin as [[= -> -> ->] | Hin];
            [repeat (apply elem_of_cons in Hfix as [Hfix | Hfix];
                     [discriminate |]);
             by apply elem_of_nil in Hfix |]);
    by apply elem_of_nil in Hin.
Qed.

Lemma methodType_no_fixed m : wl_fixed_t ∉ methodType m.
Proof.
  intros Hfix. destruct m; cbn [methodType] in Hfix;
    repeat (apply elem_of_cons in Hfix as [Hfix | Hfix]; [discriminate |]);
    by apply elem_of_nil in Hfix.
Qed.

Lemma resolve_no_fixed obj methName st meth recv st' :
  resolve obj methName st = (Returns (meth, recv), st') →
  wl_fixed_t ∉ Type_ meth.
Proof.
  unfold resolve. destruct (internal obj) as [typ|].
  - rewrite bind_run. cbn [getDisplay]. rewrite bind_run.
    match goal with
    | |- context [match ?x ?s with _ => _ end] =>
      destruct (x s) as [[tmeth|p] st1]; [| done]
    end.
    intros [= <- <- <-]. apply methodType_no_fixed.
  - rewrite bind_run. cbn [emit].
    destruct (FieldByName obj ("On" ++ methName)) as [[ft f]|] eqn:Hf; [| done].
    intros [= <- <- <-]. apply FieldByName_elem in Hf as [n Hin].
    by eapply funcFields_no_fixed.
Qed.

(** ** The log is only written *)

Lemma framed_ret {A} (a : A) : framed (mret a).
Proof. intros dsp l. cbn. by rewrite app_nil_r. Qed.

Lemma framed_panic {A} p : framed (@panic A p).
Proof. intros dsp l. cbn. by rewrite app_nil_r. Qed.

Lemma framed_liftR {A} (x : Result A) : framed (liftR x).
Proof. intros dsp l. cbn. by rewrite app_nil_r. Qed.

Lemma framed_emit e : framed (emit e).
Proof. by intros dsp l. Qed.

Lemma framed_getDisplay : framed getDisplay.
Proof. intros dsp l. cbn. by rewrite app_nil_r. Qed.

Lemma framed_putDisplay d : framed (putDisplay d).
Proof. intros dsp l. cbn. by rewrite app_nil_r. Qed.

Lemma framed_bind {A B} (m : M A) (f : A → M B) :
  framed m → (∀ a, framed (f a)) → framed (m ≫= f).
Proof.
  intros Hm Hf dsp l. rewrite !bind_run, (Hm dsp l).
  destruct (m {| st_dsp := dsp; st_log := [] |}) as [[a|p] [d1 l1]];
    cbn [st_dsp st_log]; [| done].
  rewrite (Hf a d1 (l ++ l1)), (Hf a d1 l1).
  destruct (f a {| st_dsp := d1; st_log := [] |}) as [r [d2 l2]].
  cbn [st_dsp st_log]. by rewrite app_assoc.
Qed.

Create HintDb framed.

#[local] Hint Resolve framed_ret framed_panic framed_liftR framed_emit
  framed_getDisplay framed_putDisplay : framed.

Ltac framed_steps :=
  repeat first
    [ solve [auto with framed]
    | apply framed_bind; [| intros ?]
    | match goal with
      | |- framed (if ?b then _ else _) => destruct b
      | |- framed (match ?x with Some _ => _ | None => _ end) => destruct x
      | |- framed (let (_, _) := ?x in _) => destruct x
      end ].

Lemma framed_readSlot (args : list Z) k : framed (readSlot args k).
Proof. unfold readSlot. framed_steps. Qed.

#[local] Hint Resolve framed_readSlot : framed.

Lemma framed_decodeStep mem meth (args : list Z) argOffset c s :
  framed (decodeStep mem meth args argOffset c s).
Proof. destruct s as [i callArgs]. unfold decodeStep. framed_steps. Qed.

Lemma framed_decodeArgs mem meth (args : list Z) argOffset sig s :
  framed (decodeArgs mem meth args argOffset sig s).
Proof.
  revert s. induction sig as [|c sig IH]; intros s; [apply framed_ret |].
  rewrite decodeArgs_cons. apply framed_bind; [apply framed_decodeStep | done].
Qed.

Lemma framed_callFn user f params : framed (callFn user f params).
Proof. unfold callFn. framed_steps. Qed.

Lemma framed_dsp_forget proxy : framed (dsp_forget proxy).
Proof. unfold dsp_forget. framed_steps. Qed.

#[local] Hint Resolve framed_decodeArgs framed_callFn framed_dsp_forget : framed.

Lemma framed_callMethod user m callArgs : framed (callMethod user m callArgs).
Proof.
  destruct m; destruct callArgs as [|v params]; try apply framed_panic;
    destruct v as [| | |t o]; try apply framed_panic;
    destruct o; try apply framed_panic; cbn [callMethod];
    unfold Callback_Destroy; framed_steps.
Qed.

Lemma framed_Call user meth callArgs : framed (Call user meth callArgs).
Proof.
  unfold Call. apply framed_bind; [apply framed_liftR |]. intros _.
  apply framed_bind; [apply framed_emit |]. intros _.
  destruct meth; [apply framed_callMethod | apply framed_callFn].
Qed.

Lemma framed_invoke user mem meth recv (sig : string) (args : list Z) :
  framed (invoke user mem meth recv sig args).
Proof.
  unfold invoke. destruct recv;
    (apply framed_bind; [apply framed_decodeArgs |]; intros [i callArgs];
     apply framed_bind; [| intros ?; apply framed_ret];
     destruct (negb (IsNil meth)); [apply framed_Call | apply framed_ret]).
Qed.

(** ** Fixed-point and string arguments *)

Lemma slotReads_not_invocation k n e :
  e ∈ slotReads k n → isInvocation e = false.
Proof.
  unfold slotReads. intros Hin. apply list_elem_of_fmap in Hin as (x & -> & _).
  done.
Qed.

(** An invocation in the log of a dispatch stems from the one call that
    [invoke] makes for the resolved callable. *)
Lemma dispatcher_invocation_inv user mem (dsp : Display) target opcode msg args e :
  e ∈ st_log (snd (run (dispatcher user mem target opcode msg args) dsp)) →
  isInvocation e = true →
  ∃ obj methName meth recv st1 r st' vs,
    proxies dsp !! target = Some obj
    ∧ methodName (name msg) = Returns methName
    ∧ resolve obj methName {| st_dsp := dsp; st_log := [] |}
      = (Returns (meth, recv), st1)
    ∧ run (invoke user mem meth recv (signature msg) args) (st_dsp st1) = (r, st')
    ∧ EvCall meth vs ∈ st_log st'.
Proof.
  unfold run, dispatcher. mstep.
  destruct (proxies dsp !! target) as [obj|]; [| by intros Hin%elem_of_nil].
  mstep. destruct (methodName (name msg)) as [methName|];
    [| by intros Hin%elem_of_nil].
  rewrite bind_run.
  destruct (resolve obj methName _) as [[[meth recv]|p] [d1 l1]] eqn:Hres;
    destruct (resolve_lookups _ _ _ _ _ Hres) as (l & Hl & Hlooks & _);
    cbn [st_log app] in Hl; subst l1.
  2:{ cbn [snd st_log]. intros Hin Hinv.
      eapply Forall_forall in Hlooks; [| exact Hin].
      apply isLookup_not_invocation in Hlooks. congruence. }
  destruct (IsNil meth).
  { cbn [snd st_log mret M_ret]. intros Hin Hinv.
    eapply Forall_forall in Hlooks; [| exact Hin].
    apply isLookup_not_invocation in Hlooks. congruence. }
  rewrite (framed_invoke user mem meth recv (signature msg) args d1 l).
  destruct (invoke user mem meth recv (signature msg) args
              {| st_dsp := d1; st_log := [] |}) as [r st'] eqn:Hinvoke.
  cbn [snd st_log]. intros Hin Hinv.
  apply elem_of_app in Hin as [Hin | Hin].
  { eapply Forall_forall in Hlooks; [| exact Hin].
    apply isLookup_not_invocation in Hlooks. congruence. }
  destruct (invoke_shape _ _ _ _ _ _ _ _ _ Hinvoke) as (n & tail & Hlog & _ & Hcall).
  cbn [st_log app] in Hlog. rewrite Hlog in Hin.
  apply elem_of_app in Hin as [Hin | Hin].
  { apply slotReads_not_invocation in Hin. congruence. }
  destruct Hcall as [-> | (ca & body & -> & _ & _)]; [by apply elem_of_nil in Hin |].
  exists obj, methName, meth, recv, {| st_dsp := d1; st_log := l |}, r, st', ca.
  repeat split; try done. rewrite Hlog. apply elem_of_app. right.
  apply list_elem_of_here.
Qed.

Lemma decodeStep_f_inv mem meth (args : list Z) argOffset i callArgs st
    i' callArgs' st' :
  decodeStep mem meth args argOffset (rune "f") (i, callArgs) st
  = (Returns (i', callArgs'), st') →
  ∃ slot, args !! Z.to_nat (i + argOffset) = Some slot
          ∧ callArgs' = callArgs ++ [VInt wl_fixed_t (asInt32 slot)].
Proof.
  rewrite decodeStep_f_eq, bind_run.
  destruct (readSlot args (i + argOffset) st) as [[slot|p] st1] eqn:Hread;
    [| done].
  apply readSlot_inv in Hread as (_ & Hslot & _).
  intros [= <- <- <-]. by exists slot.
Qed.

Lemma decodeStep_s_inv mem meth (args : list Z) argOffset i callArgs st
    i' callArgs' st' :
  decodeStep mem meth args argOffset (rune "s") (i, callArgs) st
  = (Returns (i', callArgs'), st') →
  ∃ slot str, args !! Z.to_nat (i + argOffset) = Some slot
              ∧ GoString mem (asPointer slot) = Returns str
              ∧ callArgs' = callArgs ++ [VString TString str].
Proof.
  rewrite decodeStep_s_eq, bind_run.
  destruct (readSlot args (i + argOffset) st) as [[slot|p] st1] eqn:Hread;
    [| done].
  apply readSlot_inv in Hread as (_ & Hslot & _).
  rewrite bind_run. unfold liftR at 1.
  destruct (GoString mem (asPointer slot)) as [str|] eqn:Hstr; [| done].
  intros [= <- <- <-]. by exists slot, str.
Qed.

(** A fixed-point argument is handed on as the signed 32-bit value of its
    slot, of type [C.wl_fixed_t], and [Value.Call] accepts it for a
    parameter of exactly that type only.  No callable of the binding has
    such a parameter: a message whose signature holds an ['f'] never gets
    a handler invoked, whatever object it is sent to. *)
Theorem dispatcher_fixed_never_delivered
    user mem (dsp : Display) (sig : string) (args : list Z) pre post :
  runes sig = pre ++ rune "f" :: post →
  (∀ meth recv r st' c vs,
     run (invoke user mem meth recv sig args) dsp = (r, st') →
     EvCall c vs ∈ st_log st' →
     ∃ i slot,
       0 ≤ i
       ∧ Type_ meth !! Z.to_nat i = Some wl_fixed_t
       ∧ args !! Z.to_nat (i + loopOffset recv) = Some slot
       ∧ vs !! Z.to_nat i = Some (VInt wl_fixed_t (asInt32 slot)))
  ∧ (∀ target opcode n,
       Forall (λ e, isInvocation e = false)
         (st_log (snd (run (dispatcher user mem target opcode
                              {| name := n; signature := sig |} args) dsp)))).
Proof.
  intros Hsig.
  assert (∀ d meth recv r st' c vs,
            run (invoke user mem meth recv sig args) d = (r, st') →
            EvCall c vs ∈ st_log st' →
            ∃ i slot,
              0 ≤ i
              ∧ Type_ meth !! Z.to_nat i = Some wl_fixed_t
              ∧ args !! Z.to_nat (i + loopOffset recv) = Some slot
              ∧ vs !! Z.to_nat i = Some (VInt wl_fixed_t (asInt32 slot)))
    as Hgen.
  { intros d meth recv r st' c vs Hrun Hin.
    destruct (invoke_value_at _ _ _ _ _ _ _ _ _ _ _ _ _ _ Hsig eq_refl Hrun Hin)
      as (i & ca & st1 & v & st2 & t & _ & Hstep & Hi & Hv & Ht & Hassign).
    apply decodeStep_f_inv in Hstep as (slot & Hslot & Heq).
    apply app_inj_tail in Heq as [_ ->].
    apply AssignableTo_basic in Hassign as ->; try done.
    by exists i, slot. }
  split; [apply Hgen |].
  intros target opcode n. apply Forall_forall. intros e He.
  destruct (isInvocation e) eqn:Hinv; [exfalso | done].
  destruct (dispatcher_invocation_inv _ _ _ _ _ _ _ _ He Hinv)
    as (obj & methName & meth & recv & st1 & r & st' & vs & _ & _ & Hres & Hrun & Hin).
  cbn [signature] in Hrun.
  destruct (Hgen _ _ _ _ _ _ _ Hrun Hin) as (i & slot & _ & Ht & _).
  apply (resolve_no_fixed _ _ _ _ _ _ Hres).
  by eapply list_elem_of_lookup_2.
Qed.

Lemma dispatcher_fixed_never_delivered_witness :
  (∀ meth recv r st' c vs,
     run (invoke userSkip noMem meth recv "uf" [1; 256]) Connect = (r, st') →
     EvCall c vs ∈ st_log st' →
     ∃ i slot,
       0 ≤ i
       ∧ Type_ meth !! Z.to_nat i = Some wl_fixed_t
       ∧ [1; 256] !! Z.to_nat (i + loopOffset recv) = Some slot
       ∧ vs !! Z.to_nat i = Some (VInt wl_fixed_t (asInt32 slot)))
  ∧ (∀ target opcode n,
       Forall (λ e, isInvocation e = false)
         (st_log (snd (run (dispatcher userSkip noMem target opcode
                              {| name := n; signature := "uf" |} [1; 256])
                           Connect)))).
Proof.
  apply (dispatcher_fixed_never_delivered userSkip noMem Connect "uf" [1; 256]
           [rune "u"] []).
  reflexivity.
Defined.

(** A string argument is handed on as the Go copy of the C string its
    slot points to (the empty string for a null pointer), and
    [Value.Call] accepts it for a parameter of type [string] only. *)
Theorem invoke_string_delivered
    user mem meth recv (sig : string) (args : list Z) pre post dsp r st' c vs :
  runes sig = pre ++ rune "s" :: post →
  run (invoke user mem meth recv sig args) dsp = (r, st') →
  EvCall c vs ∈ st_log st' →
  ∃ i slot str,
    0 ≤ i
    ∧ Type_ meth !! Z.to_nat i = Some TString
    ∧ args !! Z.to_nat (i + loopOffset recv) = Some slot
    ∧ GoString mem (asPointer slot) = Returns str
    ∧ vs !! Z.to_nat i = Some (VString TString str).
Proof.
  intros Hsig Hrun Hin.
  destruct (invoke_value_at _ _ _ _ _ _ _ _ _ _ _ _ _ _ Hsig eq_refl Hrun Hin)
    as (i & ca & st1 & v & st2 & t & _ & Hstep & Hi & Hv & Ht & Hassign).
  apply decodeStep_s_inv in Hstep as (slot & str & Hslot & Hstr & Heq).
  apply app_inj_tail in Heq as [_ ->].
  apply AssignableTo_basic in Hassign as ->; try done.
  by exists i, slot, str.
Qed.

Lemma invoke_string_delivered_witness :
  ∃ i slot str,
    0 ≤ i
    ∧ Type_ example_global !! Z.to_nat i = Some TString
    ∧ [1; 4096; 3] !! Z.to_nat (i + loopOffset None) = Some slot
    ∧ GoString example_strings (asPointer slot) = Returns str
    ∧ [VInt TUint32 1; VString TString "wl_shm"; VInt TUint32 3] !! Z.to_nat i
      = Some (VString TString str).
Proof.
  apply (invoke_string_delivered userSkip example_strings example_global None
           "usu" [1; 4096; 3] [rune "u"] [rune "u"] Connect
           (fst (run (invoke userSkip example_strings example_global None
                        "usu" [1; 4096; 3]) Connect))
           (snd (run (invoke userSkip example_strings example_global None
                        "usu" [1; 4096; 3]) Connect))
           example_global).
  - reflexivity.
  - apply surjective_pairing.
  - vm_compute. do 3 apply list_elem_of_further. apply list_elem_of_here.
Defined.

(** ** Names the dispatcher cannot resolve *)

(** A message whose name is empty makes the dispatcher panic when it
    indexes the first byte of the name: nothing was looked up, read or
    called. *)
Theorem dispatcher_empty_name
    user mem (dsp : Display) target opcode msg args obj :
  proxies dsp !! target = Some obj →
  name msg = "" →
  run (dispatcher user mem target opcode msg args) dsp
  = (Panics PIndexOutOfRange, {| st_dsp := dsp; st_log := [] |}).
Proof.
  intros Hobj Hname. unfold run.
  rewrite (dispatcher_known _ _ _ _ _ _ _ _ _ Hobj), bind_run, Hname.
  reflexivity.
Qed.

Lemma dispatcher_empty_name_witness :
  run (dispatcher userSkip noMem 1 0 {| name := ""; signature := "i" |} [2])
      (add 1 example_surface Connect)
  = (Panics PIndexOutOfRange,
     {| st_dsp := add 1 example_surface Connect; st_log := [] |}).
Proof.
  apply (dispatcher_empty_name userSkip noMem _ 1 0 _ [2] example_surface);
    reflexivity.
Defined.

(** An operation that the object does not have is fatal: when the
    internal type has no method of the capitalized name, or the struct no
    field [On] plus that name, the dispatcher panics right after the one
    lookup, before any slot is read; the display is unchanged. *)
Theorem dispatcher_unknown_operation
    user mem (dsp : Display) target opcode msg args obj methName :
  proxies dsp !! target = Some obj →
  methodName (name msg) = Returns methName →
  cacheSound dsp →
  match internal obj with
  | Some typ => MethodByName typ methName = None
  | None => FieldByName obj ("On" ++ methName) = None
  end →
  ∃ p, run (dispatcher user mem target opcode msg args) dsp
       = (Panics p,
          {| st_dsp := dsp;
             st_log := [match internal obj with
                        | Some typ => EvMethodByName typ methName
                        | None => EvFieldByName (typeName obj) ("On" ++ methName)
                        end] |})
       ∧ match internal obj with
         | Some _ => ∃ tn, p = PNoMethod methName tn
         | None => p = PNoField ("On" ++ methName) (typeName obj)
         end.
Proof.
  intros Hobj Hname Hsound Hnone. unfold run.
  rewrite (dispatcher_known _ _ _ _ _ _ _ _ _ Hobj), bind_run.
  unfold liftR at 1. rewrite Hname, bind_run. unfold resolve.
  destruct (internal obj) as [typ|].
  - rewrite !bind_run. cbn [getDisplay st_dsp].
    destruct (methods dsp !! (typ, methName)) as [tmeth|] eqn:Hc.
    { apply Hsound in Hc. congruence. }
    rewrite bind_run. cbn [emit]. rewrite Hnone.
    eexists. split; [reflexivity | by eauto].
  - rewrite bind_run. cbn [emit]. rewrite Hnone.
    eexists. split; reflexivity.
Qed.

Lemma dispatcher_unknown_operation_witness :
  ∃ p, run (dispatcher userSkip noMem 1 0
              {| name := "enter"; signature := "o" |} [7])
           (add 1 example_surface Connect)
       = (Panics p,
          {| st_dsp := add 1 example_surface Connect;
             st_log := [EvFieldByName "*wayland.Surface" "OnEnter"] |})
       ∧ p = PNoField "OnEnter" "*wayland.Surface".
Proof.
  apply (dispatcher_unknown_operation userSkip noMem _ 1 0
           {| name := "enter"; signature := "o" |} [7] example_surface "Enter");
    [reflexivity | reflexivity | | reflexivity].
  intros typ n m H. cbn in H. by rewrite lookup_empty in H.
Defined.

(** The first byte of a method name, from the first byte of the message
    name. *)
Lemma methodName_cons a rest :
  methodName (String a rest)
  = Returns (String (ascii_of_byte (ToUpper (byte_of_ascii a) mod 256)) rest).
Proof. reflexivity. Qed.

Ltac ascii_cases a :=
  destruct a as [[] [] [] [] [] [] [] []]; vm_compute;
  (split; [intros [=]; (by left) || (by right) | intros [[=] | [=]]; reflexivity])
  || (split; [intros [=] | intros [[=] | [=]]]).

Lemma capital_G a :
  ascii_of_byte (ToUpper (byte_of_ascii a) mod 256) = "G"%char
  ↔ a = "g"%char ∨ a = "G"%char.
Proof. ascii_cases a. Qed.

Lemma capital_S a :
  ascii_of_byte (ToUpper (byte_of_ascii a) mod 256) = "S"%char
  ↔ a = "s"%char ∨ a = "S"%char.
Proof. ascii_cases a. Qed.

(** Only the first byte of a message name is capitalized, so a field or
    method whose Go name drops the underscores of the protocol name is
    out of reach of the protocol.  [Registry.OnGlobalRemove] is looked up
    for the message names ["globalRemove"] and ["GlobalRemove"] only, and
    the method [SyncOutput] for ["syncOutput"] and ["SyncOutput"] only;
    the messages ["global_remove"] and ["sync_output"] of the protocol
    are fatal for every [Registry] and [WpPresentationFeedback],
    whatever callbacks are set. *)
Theorem dispatcher_underscore_names
    user mem (dsp : Display) target opcode (sig : string) (args : list Z) :
  (∀ reg,
     proxies dsp !! target = Some (ORegistry reg) →
     run (dispatcher user mem target opcode
            {| name := "global_remove"; signature := sig |} args) dsp
     = (Panics (PNoField "OnGlobal_remove" "*wayland.Registry"),
        {| st_dsp := dsp;
           st_log := [EvFieldByName "*wayland.Registry" "OnGlobal_remove"] |}))
  ∧ (∀ p,
       proxies dsp !! target = Some (OWpPresentationFeedback p) →
       cacheSound dsp →
       ∃ tn, run (dispatcher user mem target opcode
                    {| name := "sync_output"; signature := sig |} args) dsp
             = (Panics (PNoMethod "Sync_output" tn),
                {| st_dsp := dsp;
                   st_log := [EvMethodByName wpPresentationFeedback
                                "Sync_output"] |}))
  ∧ (∀ n methName,
       methodName n = Returns methName →
       (("On" ++ methName)%string = "OnGlobalRemove"
        ↔ n = "globalRemove" ∨ n = "GlobalRemove")
       ∧ (methName = "SyncOutput" ↔ n = "syncOutput" ∨ n = "SyncOutput")).
Proof.
  split; [| split].
  - intros reg Hobj. unfold run.
    rewrite (dispatcher_known _ _ _ _ _ _ _ _ _ Hobj), bind_run.
    reflexivity.
  - intros p Hobj Hsound. unfold run.
    rewrite (dispatcher_known _ _ _ _ _ _ _ _ _ Hobj), bind_run.
    change (methodName _) with (@Returns string "Sync_output").
    cbn [liftR]. rewrite bind_run. unfold resolve. cbn [internal].
    rewrite !bind_run. cbn [getDisplay st_dsp].
    destruct (methods dsp !! (wpPresentationFeedback, "Sync_output"))
      as [tmeth|] eqn:Hc.
    { apply Hsound in Hc. discriminate Hc. }
    rewrite bind_run. cbn [emit]. by eexists.
  - intros n methName Hname. destruct n as [|a rest]; [done |].
    rewrite methodName_cons in Hname. injection Hname as <-. split.
    + split.
      * intros [= Ha ->]. apply capital_G in Ha as [-> | ->]; by auto.
      * by intros [[= -> ->] | [= -> ->]].
    + split.
      * intros [= Ha ->]. apply capital_S in Ha as [-> | ->]; by auto.
      * by intros [[= -> ->] | [= -> ->]].
Qed.

Lemma dispatcher_underscore_names_witness :
  let reg := ORegistry {| Registry.hnd := 3; Registry.OnGlobal := Some 0%nat;
                          Registry.OnGlobalRemove := Some 1%nat |} in
  let p := {| WpPresentationFeedback.hnd := 5;
              WpPresentationFeedback.vers := 1;
              WpPresentationFeedback.OnSyncOutput := Some 2%nat;
              WpPresentationFeedback.OnPresented := None;
              WpPresentationFeedback.OnDiscarded := None |} in
  run (dispatcher userSkip noMem 3 0
         {| name := "global_remove"; signature := "u" |} [7])
      (add 3 reg Connect)
  = (Panics (PNoField "OnGlobal_remove" "*wayland.Registry"),
     {| st_dsp := add 3 reg Connect;
        st_log := [EvFieldByName "*wayland.Registry" "OnGlobal_remove"] |})
  ∧ ∃ tn, run (dispatcher userSkip noMem 5 0
                 {| name := "sync_output"; signature := "o" |} [7])
              (add 5 (OWpPresentationFeedback p) Connect)
          = (Panics (PNoMethod "Sync_output" tn),
             {| st_dsp := add 5 (OWpPresentationFeedback p) Connect;
                st_log := [EvMethodByName wpPresentationFeedback
                             "Sync_output"] |}).
Proof.
  intros reg p. split.
  - eapply (proj1 (dispatcher_underscore_names userSkip noMem
                     (add 3 reg Connect) 3 0 "u" [7])).
    reflexivity.
  - eapply (proj1 (proj2 (dispatcher_underscore_names userSkip noMem
                            (add 5 (OWpPresentationFeedback p) Connect)
                            5 0 "o" [7])));
      [reflexivity |].
    intros typ n m H. cbn in H. by rewrite lookup_empty in H.
Defined.

(** ** One-shot callbacks *)

Lemma dispatcher_absent_run user mem (dsp : Display) target opcode msg args log :
  proxies dsp !! target = None →
  dispatcher user mem target opcode msg args {| st_dsp := dsp; st_log := log |}
  = (Panics (PString "don't know this proxy"),
     {| st_dsp := dsp; st_log := log |}).
Proof.
  intros Hnone. unfold dispatcher. rewrite bind_run. cbn [getDisplay st_dsp].
  by rewrite Hnone.
Qed.

Lemma invoke_done_run user mem (cb : Callback.t) (f : Fn) (slot : Z) dsp log px' :
  Callback.OnDone cb = Some f →
  user f [VInt TUint32 (asUint32 slot)] (proxies dsp) = Returns px' →
  invoke user mem (CMethod callback_Done) (Some (VRecv callback (OCallback cb)))
    "u" [slot] {| st_dsp := dsp; st_log := log |}
  = (Returns 0,
     {| st_dsp := {| proxies := delete (Callback.hnd cb) px';
                     methods := methods dsp |};
        st_log := log ++
          [EvReadSlot 0;
           EvCall (CMethod callback_Done)
             [VRecv callback (OCallback cb); VInt TUint32 (asUint32 slot)];
           EvUser f [VInt TUint32 (asUint32 slot)];
           EvCgo "wl_callback_destroy" (Callback.hnd cb)] |}).
Proof.
  intros Hon Huser.
  erewrite invoke_run; [| reflexivity |].
  2:{ change (runes "u") with [rune "u"]. step_u. reflexivity. }
  rewrite bind_run, Call_run by reflexivity.
  cbn [callMethod app]. rewrite bind_run, Hon, callFn_run, Huser.
  unfold Callback_Destroy, dsp_forget. mrun.
  rewrite <- !app_assoc. reflexivity.
Qed.

(** [Sync] and [Frame] make one-shot callbacks.  Once the callback made
    by [Sync(fn)] or [Frame(fn)] for the handle [h] receives ["done"],
    [fn] is called with the [uint32] of the first slot, the C object is
    destroyed and the handle is forgotten, whatever [fn] did to the proxy
    table; a later message for [h] is fatal, unless an object is
    registered under [h] again. *)
Theorem dispatcher_done_one_shot
    user mem (dsp : Display) (c : NewObject) (h : Ptr) (f : Fn) opcode
    (slot : Z) px' :
  let cb := OCallback {| Callback.hnd := h; Callback.OnDone := Some f |} in
  let data := VInt TUint32 (asUint32 slot) in
  let dsp0 := create c dsp in
  let r := run (dispatcher user mem h opcode
                  {| name := "done"; signature := "u" |} [slot]) dsp0 in
  c = Display_Sync h (Some f) ∨ c = Surface_Frame h (Some f) →
  cacheSound dsp →
  user f [data] (proxies dsp0) = Returns px' →
  fst r = Returns 0
  ∧ List.filter (λ e, negb (isLookup e)) (st_log (snd r))
    = [EvReadSlot 0; EvCall (CMethod callback_Done) [VRecv callback cb; data];
       EvUser f [data]; EvCgo "wl_callback_destroy" h]
  ∧ proxies (st_dsp (snd r)) = delete h px'
  ∧ ∀ opcode' msg' args',
      run (dispatcher user mem h opcode' msg' args') (st_dsp (snd r))
      = (Panics (PString "don't know this proxy"),
         {| st_dsp := st_dsp (snd r); st_log := [] |}).
Proof.
  intros cb data dsp0 r Hc Hsound Huser. subst r cb data dsp0.
  assert (create c dsp = create (Display_Sync h (Some f)) dsp) as Hcreate.
  { by destruct Hc as [-> | ->]. }
  rewrite Hcreate in *. clear Hcreate Hc.
  unfold create in *. cbn [created hndOf Callback.hnd] in *.
  set (cb := {| Callback.hnd := h; Callback.OnDone := Some f |}) in *.
  assert (∃ m l0,
            (l0 = [] ∨ l0 = [EvMethodByName callback "Done"])
            ∧ run (dispatcher user mem h opcode
                     {| name := "done"; signature := "u" |} [slot])
                (add h (OCallback cb) dsp)
              = (Returns 0,
                 {| st_dsp := {| proxies := delete h px'; methods := m |};
                    st_log := l0 ++
                      [EvReadSlot 0;
                       EvCall (CMethod callback_Done)
                         [VRecv callback (OCallback cb);
                          VInt TUint32 (asUint32 slot)];
                       EvUser f [VInt TUint32 (asUint32 slot)];
                       EvCgo "wl_callback_destroy" h] |}))
    as (m & l0 & Hl0 & Hrun).
  { unfold run.
    rewrite (dispatcher_known _ _ _ _ _ _ _ (OCallback cb) _
               (lookup_add h (OCallback cb) dsp)).
    change (methodName _) with (@Returns string "Done").
    mrun. cbn [signature].
    destruct (methods dsp !! (callback, "Done")) as [tmeth|] eqn:Hc.
    - assert (tmeth = callback_Done) as ->.
      { apply Hsound in Hc. by injection Hc. }
      rewrite (resolve_hit_run (OCallback cb) callback "Done" callback_Done
                 (add h (OCallback cb) dsp) [] eq_refl Hc).
      cbn [IsNil].
      rewrite (invoke_done_run user mem cb f slot _ _ px' eq_refl Huser).
      exists (methods dsp), []. split; [by left | reflexivity].
    - rewrite (resolve_miss_run (OCallback cb) callback "Done" callback_Done
                 (add h (OCallback cb) dsp) [] eq_refl Hc eq_refl).
      cbn [IsNil].
      erewrite (invoke_done_run user mem cb f slot _ _ px' eq_refl);
        [| exact Huser].
      eexists _, [EvMethodByName callback "Done"].
      split; [by right | reflexivity]. }
  rewrite Hrun. cbn [fst snd st_dsp st_log proxies].
  split; [done |]. split; [by destruct Hl0 as [-> | ->] |].
  split; [done |]. intros opcode' msg' args'.
  apply dispatcher_absent_run. apply lookup_delete_eq.
Qed.

Lemma dispatcher_done_one_shot_witness :
  let dsp0 := create (Surface_Frame 7 (Some 0%nat)) Connect in
  let r := run (dispatcher userSkip noMem 7 0
                  {| name := "done"; signature := "u" |} [5]) dsp0 in
  fst r = Returns 0 ∧ proxies (st_dsp (snd r)) = delete 7 (proxies dsp0).
Proof.
  pose proof (dispatcher_done_one_shot userSkip noMem Connect
                (Surface_Frame 7 (Some 0%nat)) 7 0%nat 0 5 _
                (or_intror eq_refl) cacheSound_Connect eq_refl)
    as (H1 & _ & H3 & _).
  split; assumption.
Defined.

(** ** The method cache cannot be observed *)

Lemma cacheBlind_ret {A} (a : A) : cacheBlind (mret a).
Proof. by intros px ms ms' l. Qed.

Lemma cacheBlind_panic {A} p : cacheBlind (@panic A p).
Proof. by intros px ms ms' l. Qed.

Lemma cacheBlind_liftR {A} (x : Result A) : cacheBlind (liftR x).
Proof. by intros px ms ms' l. Qed.

Lemma cacheBlind_emit e : cacheBlind (emit e).
Proof. by intros px ms ms' l. Qed.

Lemma cacheBlind_bind {A B} (m : M A) (f : A → M B) :
  cacheBlind m → (∀ a, cacheBlind (f a)) → cacheBlind (m ≫= f).
Proof.
  intros Hm Hf px ms ms' l. rewrite !bind_run, (Hm px ms ms' l).
  destruct (m _) as [[a|p] [[px1 ms1] l1]]; cbn [st_dsp st_log proxies];
    [| done].
  apply (Hf a px1 ms ms1 l1).
Qed.

Create HintDb blind.

#[local] Hint Resolve cacheBlind_ret cacheBlind_panic cacheBlind_liftR
  cacheBlind_emit : blind.

Ltac blind_steps :=
  repeat first
    [ solve [auto with blind]
    | apply cacheBlind_bind; [| intros ?]
    | match goal with
      | |- cacheBlind (if ?b then _ else _) => destruct b
      | |- cacheBlind (match ?x with Some _ => _ | None => _ end) => destruct x
      | |- cacheBlind (let (_, _) := ?x in _) => destruct x
      end ].

Lemma cacheBlind_readSlot (args : list Z) k : cacheBlind (readSlot args k).
Proof. unfold readSlot. blind_steps. Qed.

#[local] Hint Resolve cacheBlind_readSlot : blind.

Lemma cacheBlind_decodeStep mem meth (args : list Z) argOffset c s :
  cacheBlind (decodeStep mem meth args argOffset c s).
Proof. destruct s as [i callArgs]. unfold decodeStep. blind_steps. Qed.

Lemma cacheBlind_decodeArgs mem meth (args : list Z) argOffset sig s :
  cacheBlind (decodeArgs mem meth args argOffset sig s).
Proof.
  revert s. induction sig as [|c sig IH]; intros s; [apply cacheBlind_ret |].
  rewrite decodeArgs_cons.
  apply cacheBlind_bind; [apply cacheBlind_decodeStep | done].
Qed.

Lemma cacheBlind_callFn user f params : cacheBlind (callFn user f params).
Proof.
  intros px ms ms' l. destruct f as [fn|]; [| done].
  unfold callFn. rewrite !bind_run. cbn [emit]. rewrite !bind_run.
  cbn [getDisplay st_dsp st_log proxies methods]. rewrite !bind_run.
  destruct (user fn params px) as [px'|p]; reflexivity.
Qed.

Lemma cacheBlind_dsp_forget proxy : cacheBlind (dsp_forget proxy).
Proof. by intros px ms ms' l. Qed.

#[local] Hint Resolve cacheBlind_decodeArgs cacheBlind_callFn
  cacheBlind_dsp_forget : blind.

Lemma cacheBlind_callMethod user m callArgs :
  cacheBlind (callMethod user m callArgs).
Proof.
  destruct m; destruct callArgs as [|v params]; try apply cacheBlind_panic;
    destruct v as [| | |t o]; try apply cacheBlind_panic;
    destruct o; try apply cacheBlind_panic; cbn [callMethod];
    unfold Callback_Destroy; blind_steps.
Qed.

Lemma cacheBlind_Call user meth callArgs : cacheBlind (Call user meth callArgs).
Proof.
  unfold Call. apply cacheBlind_bind; [apply cacheBlind_liftR |]. intros _.
  apply cacheBlind_bind; [apply cacheBlind_emit |]. intros _.
  destruct meth; [apply cacheBlind_callMethod | apply cacheBlind_callFn].
Qed.

Lemma cacheBlind_invoke user mem meth recv (sig : string) (args : list Z) :
  cacheBlind (invoke user mem meth recv sig args).
Proof.
  unfold invoke. destruct recv;
    (apply cacheBlind_bind; [apply cacheBlind_decodeArgs |]; intros [i callArgs];
     apply cacheBlind_bind; [| intros ?; apply cacheBlind_ret];
     destruct (negb (IsNil meth)); [apply cacheBlind_Call | apply cacheBlind_ret]).
Qed.

(** The call of a callable from any cache and any log, in terms of the
    call from one cache and the empty log. *)
Lemma invoke_cache_irrelevant user mem meth recv (sig : string) (args : list Z)
    px ms ms' l :
  let a := invoke user mem meth recv sig args
             {| st_dsp := {| proxies := px; methods := ms |}; st_log := [] |} in
  let b := invoke user mem meth recv sig args
             {| st_dsp := {| proxies := px; methods := ms' |}; st_log := l |} in
  fst b = fst a
  ∧ proxies (st_dsp (snd b)) = proxies (st_dsp (snd a))
  ∧ st_log (snd b) = l ++ st_log (snd a).
Proof.
  intros a b. subst a b.
  rewrite (framed_invoke user mem meth recv sig args _ l).
  rewrite (cacheBlind_invoke user mem meth recv sig args px ms' ms []).
  by destruct (invoke _ _ _ _ _ _ _) as [r [[px1 ms1] l1]].
Qed.

Lemma withoutLookups_app l1 l2 :
  withoutLookups (l1 ++ l2) = withoutLookups l1 ++ withoutLookups l2.
Proof. apply List.filter_app. Qed.

Ltac mrun_ret :=
  repeat (progress (mstep; unfold mret, M_ret; cbn [app])).

(** Memoization cannot be observed.  From a display whose cache holds
    only what [MethodByName] returns, a dispatch has the result, the proxy
    table and, the reflective lookups apart, the log of the same dispatch
    from the empty cache. *)
Theorem dispatcher_cache_transparent
    user mem (dsp : Display) target opcode msg args :
  let r := run (dispatcher user mem target opcode msg args) dsp in
  let r0 := run (dispatcher user mem target opcode msg args)
              {| proxies := proxies dsp; methods := ∅ |} in
  cacheSound dsp →
  fst r = fst r0
  ∧ proxies (st_dsp (snd r)) = proxies (st_dsp (snd r0))
  ∧ withoutLookups (st_log (snd r)) = withoutLookups (st_log (snd r0)).
Proof.
  intros r r0 Hsound. subst r r0. destruct dsp as [px ms].
  cbn [proxies]. unfold run, dispatcher. rewrite !bind_run.
  cbn [getDisplay st_dsp proxies].
  destruct (px !! target) as [obj|]; [| done].
  rewrite !bind_run. destruct (methodName (name msg)) as [methName|p];
    cbn [liftR]; [| done].
  rewrite !bind_run. unfold resolve.
  destruct (internal obj) as [typ|] eqn:Hint.
  - rewrite !bind_run. cbn [getDisplay st_dsp methods].
    rewrite lookup_empty.
    destruct (MethodByName typ methName) as [tmeth|] eqn:Hmeth.
    + destruct (ms !! (typ, methName)) as [tmeth'|] eqn:Hc.
      * assert (tmeth' = tmeth) as ->.
        { apply Hsound in Hc. cbn [methods] in Hc. congruence. }
        mrun_ret. cbn [IsNil].
        destruct (invoke_cache_irrelevant user mem (CMethod tmeth)
                    (Some (VRecv typ obj)) (signature msg) args px ms
                    (<[(typ, methName) := tmeth]> ∅)
                    [EvMethodByName typ methName]) as (Hr & Hp & Hl).
        rewrite Hr, Hp, Hl. by rewrite withoutLookups_app.
      * mrun_ret. cbn [IsNil].
        destruct (invoke_cache_irrelevant user mem (CMethod tmeth)
                    (Some (VRecv typ obj)) (signature msg) args px
                    (<[(typ, methName) := tmeth]> ∅)
                    (<[(typ, methName) := tmeth]> ms)
                    [EvMethodByName typ methName]) as (Hr & Hp & Hl).
        destruct (invoke_cache_irrelevant user mem (CMethod tmeth)
                    (Some (VRecv typ obj)) (signature msg) args px
                    (<[(typ, methName) := tmeth]> ∅)
                    (<[(typ, methName) := tmeth]> ∅)
                    [EvMethodByName typ methName]) as (Hr0 & Hp0 & Hl0).
        rewrite Hr, Hp, Hl, Hr0, Hp0, Hl0. done.
    + destruct (ms !! (typ, methName)) as [tmeth'|] eqn:Hc.
      * apply Hsound in Hc. cbn [methods] in Hc. congruence.
      * by mrun_ret.
  - mrun_ret. destruct (FieldByName obj ("On" ++ methName)) as [[ft f]|];
      [| by mrun_ret].
    mrun_ret.
    destruct (IsNil _); [by mrun_ret |].
    match goal with
    | |- context [invoke user mem ?c None _ _ _] =>
      destruct (invoke_cache_irrelevant user mem c None (signature msg) args
                  px ms ∅ [EvFieldByName (typeName obj) ("On" ++ methName)])
        as (Hr0 & Hp0 & Hl0);
      destruct (invoke_cache_irrelevant user mem c None (signature msg) args
                  px ms ms [EvFieldByName (typeName obj) ("On" ++ methName)])
        as (Hr & Hp & Hl)
    end.
    rewrite Hr, Hp, Hl, Hr0, Hp0, Hl0. done.
Qed.

Lemma dispatcher_cache_transparent_witness :
  let d := {| proxies := {[ 1 := example_surface ]};
              methods := {[ (callback, "Done") := callback_Done ]} |} in
  let m := {| name := "preferred_buffer_scale"; signature := "i" |} in
  fst (run (dispatcher userSkip noMem 1 0 m [2]) d)
  = fst (run (dispatcher userSkip noMem 1 0 m [2])
           {| proxies := proxies d; methods := ∅ |}).
Proof.
  refine (proj1 (dispatcher_cache_transparent userSkip noMem
                   {| proxies := {[ 1 := example_surface ]};
                      methods := {[ (callback, "Done") := callback_Done ]} |}
                   1 0 {| name := "preferred_buffer_scale"; signature := "i" |}
                   [2] _)).
  intros typ n tm H. cbn [methods] in H.
  apply lookup_singleton_Some in H as [[= <- <-] <-]. reflexivity.
Defined.

(** ** Reachable displays *)

(** The method cache of every display that can arise holds only what
    [MethodByName] returns: the dispatcher is the one place that writes
    it, and it writes the method it has just looked up. *)
Theorem Reachable_cacheSound user mem (dsp : Display) :
  Reachable user mem dsp → cacheSound dsp.
Proof.
  induction 1 as [| dsp px _ IH | dsp target opcode msg args _ IH].
  - apply cacheSound_Connect.
  - exact IH.
  - by apply (dispatcher_cache user mem dsp target opcode msg args).
Qed.

Lemma Reachable_cacheSound_witness :
  cacheSound
    (st_dsp (snd (run (dispatcher userSkip noMem 7 0
                         {| name := "done"; signature := "u" |} [5])
                    (create (Display_Sync 7 (Some 0%nat)) Connect)))).
Proof.
  apply (Reachable_cacheSound userSkip noMem).
  apply Reachable_dispatch.
  apply (Reachable_proxies userSkip noMem Connect).
  apply Reachable_Connect.
Defined.

(** ** The kinds of the arguments *)

Lemma Convert_kind src n dst v :
  Convert src n dst = Returns v →
  typeOf v = dst ∧ decodedKind (kind dst) = true.
Proof.
  unfold Convert. destruct (kind dst) eqn:Hk; intros [= <-]; by cbn [typeOf].
Qed.

Lemma unsafe_Slice_kind elem ptr len v :
  unsafe_Slice elem ptr len = Returns v → typeOf v = TSlice elem.
Proof.
  unfold unsafe_Slice.
  repeat match goal with
         | |- context [if ?b then _ else _] => destruct b
         end; by intros [= <-].
Qed.

Lemma AssignableTo_kind xt t : AssignableTo xt t = true → kind xt = kind t.
Proof.
  unfold AssignableTo. intros [H | H]%orb_true_iff.
  - by apply bool_decide_eq_true in H as ->.
  - apply andb_true_iff in H as [H _]. apply andb_true_iff in H as [_ H].
    by apply bool_decide_eq_true in H.
Qed.

Ltac kinds_done :=
  first
    [ by left
    | right; eexists; split; [reflexivity |];
      first
        [ reflexivity
        | match goal with
          | H : Convert _ _ _ = Returns _ |- _ =>
            by apply Convert_kind in H as [-> ?]
          end
        | match goal with
          | H : unsafe_Slice _ _ _ = Returns _ |- _ =>
            by apply unsafe_Slice_kind in H as ->
          end ] ].

(** One turn of the loop appends nothing, or one value of an integer,
    string or slice kind. *)
Lemma decodeStep_kinds mem meth (args : list Z) argOffset c i callArgs st
    i' callArgs' st' :
  decodeStep mem meth args argOffset c (i, callArgs) st
  = (Returns (i', callArgs'), st') →
  callArgs' = callArgs
  ∨ ∃ v, callArgs' = callArgs ++ [v] ∧ decodedKind (kind (typeOf v)) = true.
Proof.
  unfold decodeStep.
  repeat match goal with
         | |- context [if ?b then _ else _] => destruct b
         end;
    rewrite ?bind_run; unfold panic, mret, M_ret;
    try (by intros [=]);
    try (intros [= <- <- <-]; kinds_done);
    (destruct (readSlot args (i + argOffset) st) as [[slot|p] st1];
     [| by intros [=]]);
    repeat (rewrite ?bind_run; unfold liftR, panic, mret, M_ret;
            try (by intros [=]);
            try (intros [= <- <- <-]; kinds_done);
            match goal with
            | |- context [match ?x with Returns _ => _ | Panics _ => _ end] =>
              destruct x eqn:?
            | |- context [if ?b then _ else _] => destruct b
            end);
    rewrite ?bind_run; unfold liftR, panic, mret, M_ret;
    try (by intros [=]);
    try (intros [= <- <- <-]; kinds_done).
Qed.

Lemma decodeArgs_kinds mem meth (args : list Z) argOffset sig i callArgs st
    i' callArgs' st' :
  decodeArgs mem meth args argOffset sig (i, callArgs) st
  = (Returns (i', callArgs'), st') →
  ∃ ext, callArgs' = callArgs ++ ext
         ∧ Forall (λ v, decodedKind (kind (typeOf v)) = true) ext.
Proof.
  revert i callArgs st. induction sig as [|c sig IH]; intros i callArgs st.
  - intros [= <- <- <-]. exists []. by rewrite app_nil_r.
  - rewrite decodeArgs_cons, bind_run.
    destruct (decodeStep mem meth args argOffset c (i, callArgs) st)
      as [[[i1 ca1]|p] st1] eqn:Hstep; [| done].
    intros Hrest. destruct (IH _ _ _ Hrest) as (ext & -> & Hext).
    destruct (decodeStep_kinds _ _ _ _ _ _ _ _ _ _ _ Hstep)
      as [-> | (v & -> & Hv)].
    + by exists ext.
    + exists (v :: ext). rewrite <- app_assoc. split; [done | by constructor].
Qed.

Lemma Forall2_assignable_kinds vs ts :
  Forall2 (λ v t, AssignableTo (typeOf v) t = true) vs ts →
  Forall (λ v, decodedKind (kind (typeOf v)) = true) vs →
  Forall (λ t, decodedKind (kind t) = true) ts.
Proof.
  induction 1 as [|v t vs ts Hvt _ IH]; [done |].
  intros [Hv Hvs]%Forall_cons. constructor; [| by apply IH].
  by rewrite <- (AssignableTo_kind _ _ Hvt).
Qed.

(** An event in the log of a dispatch that is not a lookup stems from the
    decoding and the call for the resolved callable. *)
Lemma dispatcher_event_inv user mem (dsp : Display) target opcode msg args e :
  e ∈ st_log (snd (run (dispatcher user mem target opcode msg args) dsp)) →
  isLookup e = false →
  ∃ obj methName meth recv st1 r st',
    proxies dsp !! target = Some obj
    ∧ methodName (name msg) = Returns methName
    ∧ resolve obj methName {| st_dsp := dsp; st_log := [] |}
      = (Returns (meth, recv), st1)
    ∧ run (invoke user mem meth recv (signature msg) args) (st_dsp st1) = (r, st')
    ∧ e ∈ st_log st'.
Proof.
  unfold run, dispatcher. mstep.
  destruct (proxies dsp !! target) as [obj|]; [| by intros Hin%elem_of_nil].
  mstep. destruct (methodName (name msg)) as [methName|];
    [| by intros Hin%elem_of_nil].
  rewrite bind_run.
  destruct (resolve obj methName _) as [[[meth recv]|p] [d1 l1]] eqn:Hres;
    destruct (resolve_lookups _ _ _ _ _ Hres) as (l & Hl & Hlooks & _);
    cbn [st_log app] in Hl; subst l1.
  2:{ cbn [snd st_log]. intros Hin Hinv.
      eapply Forall_forall in Hlooks; [| exact Hin]. congruence. }
  destruct (IsNil meth).
  { cbn [snd st_log mret M_ret]. intros Hin Hinv.
    eapply Forall_forall in Hlooks; [| exact Hin]. congruence. }
  rewrite (framed_invoke user mem meth recv (signature msg) args d1 l).
  destruct (invoke user mem meth recv (signature msg) args
              {| st_dsp := d1; st_log := [] |}) as [r st'] eqn:Hinvoke.
  cbn [snd st_log]. intros Hin Hinv.
  apply elem_of_app in Hin as [Hin | Hin].
  { eapply Forall_forall in Hlooks; [| exact Hin]. congruence. }
  by exists obj, methName, meth, recv, {| st_dsp := d1; st_log := l |}, r, st'.
Qed.

(** Whatever the message, a callable is only entered if every parameter
    behind the receiver is of an integer, string or slice kind: the loop
    makes no other values, and [Value.Call] accepts a value only for a
    parameter of its own kind.  So [SyncOutput], whose parameter is a
    pointer to an [Output], is never called, and [OnSyncOutput] with it. *)
Theorem dispatcher_argument_kinds
    user mem (dsp : Display) target opcode msg args c vs :
  EvCall c vs
    ∈ st_log (snd (run (dispatcher user mem target opcode msg args) dsp)) →
  Forall (λ t, decodedKind (kind t) = true) (userParams c)
  ∧ Forall2 (λ v t, kind (typeOf v) = kind t) (userArgs c vs) (userParams c)
  ∧ c ≠ CMethod wpPresentationFeedback_SyncOutput.
Proof.
  intros Hin.
  destruct (dispatcher_event_inv _ _ _ _ _ _ _ _ Hin eq_refl)
    as (obj & methName & meth & recv & st1 & r & st' & _ & _ & Hres & Hrun & Hin').
  destruct (invoke_call_inv _ _ _ _ _ _ _ _ _ _ _ Hrun Hin')
    as (-> & Hcheck & i & st2 & Hdec).
  pose proof (checkCall_Forall2 _ _ Hcheck) as Hall.
  assert (Forall2 (λ v t, AssignableTo (typeOf v) t = true)
            (userArgs meth vs) (userParams meth)
          ∧ Forall (λ v, decodedKind (kind (typeOf v)) = true)
              (userArgs meth vs)) as [Hall' Hkinds].
  { pose proof (resolve_inv obj methName dsp (meth, recv) st1 Hres) as Hinv.
    destruct (internal obj) as [typ|].
    - destruct Hinv as (tmeth & [= -> ->] & _).
      unfold loopStart in Hdec.
      apply decodeArgs_kinds in Hdec as (ext & -> & Hext).
      cbn [userArgs userParams Type_ app tail] in *.
      destruct tmeth; cbn [methodType tail] in *;
        by apply Forall2_cons in Hall as [_ Hall].
    - destruct Hinv as (ft & f & [= -> ->] & _).
      unfold loopStart in Hdec.
      apply decodeArgs_kinds in Hdec as (ext & -> & Hext).
      by cbn [userArgs userParams Type_ app] in *. }
  pose proof (Forall2_assignable_kinds _ _ Hall' Hkinds) as Hparams.
  split; [done |]. split.
  - eapply Forall2_impl; [exact Hall' |]. intros v t. apply AssignableTo_kind.
  - intros ->. cbn [userParams methodType tail] in Hparams.
    by apply Forall_cons in Hparams as [Hp _].
Qed.

Lemma dispatcher_argument_kinds_witness :
  let c := CField "*wayland.Surface" "OnPreferred_buffer_scale" [TInt]
             (Some 0%nat) in
  Forall (λ t, decodedKind (kind t) = true) (userParams c)
  ∧ Forall2 (λ v t, kind (typeOf v) = kind t)
      (userArgs c [VInt TInt 2]) (userParams c)
  ∧ c ≠ CMethod wpPresentationFeedback_SyncOutput.
Proof.
  refine (dispatcher_argument_kinds userSkip noMem
            (add 1 example_surface Connect) 1 0
            {| name := "preferred_buffer_scale"; signature := "i" |} [2]
            _ [VInt TInt 2] _).
  vm_compute. do 2 apply list_elem_of_further. apply list_elem_of_here.
Defined.

(** ** The proxy table across a dispatch *)

Lemma userCalls_app l1 l2 : userCalls (l1 ++ l2) = userCalls l1 ++ userCalls l2.
Proof. apply List.filter_app. Qed.

Lemma userCalls_none l :
  (∀ e, e ∈ l → isUserCall e = false) → userCalls l = [].
Proof.
  induction l as [|e l IH]; [done |]. intros H. unfold userCalls in *.
  cbn [List.filter]. rewrite (H e) by apply list_elem_of_here.
  apply IH. intros e' He'. apply H. by apply list_elem_of_further.
Qed.

Lemma userCalls_lookups l :
  Forall (λ e, isLookup e = true) l → userCalls l = [].
Proof.
  intros H. apply userCalls_none. intros e He.
  eapply Forall_forall in H; [| exact He]. by destruct e.
Qed.

Lemma userCalls_slotReads k n : userCalls (slotReads k n) = [].
Proof.
  apply userCalls_none. intros e He.
  apply slotReads_not_invocation in He. by destruct e.
Qed.

Lemma resolve_proxies obj methName st r st' :
  resolve obj methName st = (r, st') →
  proxies (st_dsp st') = proxies (st_dsp st).
Proof.
  unfold resolve. intros Hrun. destruct (internal obj) as [typ|].
  - rewrite !bind_run in Hrun. cbn [getDisplay] in Hrun.
    destruct (methods (st_dsp st) !! (typ, methName)) as [tmeth|].
    + by injection Hrun as <- <-.
    + rewrite bind_run in Hrun. cbn [emit] in Hrun.
      destruct (MethodByName typ methName); by injection Hrun as <- <-.
  - rewrite bind_run in Hrun. cbn [emit] in Hrun.
    destruct (FieldByName obj ("On" ++ methName)) as [[ft f]|];
      by injection Hrun as <- <-.
Qed.

(** The body of a method enters at most one user function, with the
    display as the method found it; if the function returns, every method
    but [SyncOutput] then forgets the handle of its receiver. *)
Lemma callMethod_effect user m ca d l r st' :
  callMethod user m ca {| st_dsp := d; st_log := l |} = (r, st') →
  ∃ body,
    st_log st' = l ++ body
    ∧ match userCalls body with
      | [] => proxies (st_dsp st') = proxies d ∧ ∃ p, r = Panics p
      | [EvUser f vs] =>
        match user f vs (proxies d) with
        | Panics p => r = Panics p ∧ proxies (st_dsp st') = proxies d
        | Returns px1 =>
          r = Returns tt
          ∧ ∃ t o rest,
              ca = VRecv t o :: rest
              ∧ proxies (st_dsp st')
                = match m with
                  | wpPresentationFeedback_SyncOutput => px1
                  | _ => delete (hndOf o) px1
                  end
        end
      | _ => False
      end.
Proof.
  destruct m; destruct ca as [|v params];
    try (intros [= <- <-]; exists []; rewrite app_nil_r; cbn; by eauto);
    destruct v as [| | |t o];
    try (intros [= <- <-]; exists []; rewrite app_nil_r; cbn; by eauto);
    destruct o;
    try (intros [= <- <-]; exists []; rewrite app_nil_r; cbn; by eauto);
    cbn [callMethod];
    match goal with
    | |- context [callFn user ?f params] => destruct f as [fn|]
    end;
    rewrite ?bind_run, ?callFn_nil_run, ?callFn_run;
    try (intros [= <- <-]; exists []; rewrite app_nil_r; cbn; by eauto);
    (destruct (user fn params (proxies d)) as [px1|p] eqn:Hu;
     [| intros [= <- <-]; exists [EvUser fn params]; cbn; by rewrite Hu]);
    unfold Callback_Destroy, dsp_forget; mrun; intros [= <- <-];
    (eexists; split; [rewrite <- ?app_assoc; reflexivity |]);
    cbn; rewrite Hu; (split; [done |]); by eexists _, _, _.
Qed.

Lemma checkCall_SyncOutput (pre ext : list Value) :
  (length pre ≤ 1)%nat →
  Forall (λ v, decodedKind (kind (typeOf v)) = true) ext →
  checkCall (methodType wpPresentationFeedback_SyncOutput) (pre ++ ext)
  ≠ Returns tt.
Proof.
  intros Hpre Hext Hcheck. apply checkCall_Forall2 in Hcheck.
  cbn [methodType] in Hcheck.
  assert (∃ v, v ∈ ext ∧ kind (typeOf v) = KPointer) as (v & Hv & Hk).
  { destruct pre as [|v0 [|v1 pre]]; [| | cbn in Hpre; lia]; cbn [app] in Hcheck.
    - apply Forall2_cons_inv_r in Hcheck as (v & vs & Hv & _ & ->).
      exists v. split; [apply list_elem_of_here |].
      by apply AssignableTo_kind in Hv.
    - apply Forall2_cons_inv_r in Hcheck as (v0' & vs & _ & Hrest & [= <- <-]).
      apply Forall2_cons_inv_r in Hrest as (v & vs & Hv & _ & ->).
      exists v. split; [apply list_elem_of_here |].
      by apply AssignableTo_kind in Hv. }
  eapply Forall_forall in Hext; [| exact Hv]. by rewrite Hk in Hext.
Qed.

(** What the call of a resolved callable does to the proxy table. *)
Lemma invoke_effect user mem meth recv (sig : string) (args : list Z) d r st' :
  invoke user mem meth recv sig args {| st_dsp := d; st_log := [] |} = (r, st') →
  match userCalls (st_log st') with
  | [] =>
    proxies (st_dsp st') = proxies d
    ∧ (if meth is CMethod _ then ∃ p, r = Panics p else True)
  | [EvUser f vs] =>
    match user f vs (proxies d) with
    | Panics p => r = Panics p ∧ proxies (st_dsp st') = proxies d
    | Returns px1 =>
      r = Returns 0
      ∧ match meth with
        | CField _ _ _ _ => proxies (st_dsp st') = px1
        | CMethod _ =>
          ∃ t o, recv = Some (VRecv t o)
                 ∧ proxies (st_dsp st') = delete (hndOf o) px1
        end
    end
  | _ => False
  end.
Proof.
  intros Hrun.
  destruct (decodeArgs mem meth args (loopOffset recv) (runes sig)
              (loopStart recv) {| st_dsp := d; st_log := [] |})
    as [[[i ca]|p] [d1 l1]] eqn:Hdec.
  2:{ pose proof Hdec as Hdec'. unfold loopStart, loopOffset in Hdec'.
      rewrite (invoke_panic user mem _ _ _ _ _ _ _ Hdec') in Hrun.
      injection Hrun as <- <-.
      rewrite (surjective_pairing (loopStart recv)) in Hdec.
      apply decodeArgs_reads in Hdec as (n & _ & Hlog & Hdsp & _).
      cbn [st_dsp st_log app] in *. subst. rewrite userCalls_slotReads.
      split; [done |]. destruct meth; by eauto. }
  pose proof Hdec as Hreads.
  rewrite (surjective_pairing (loopStart recv)) in Hreads.
  apply decodeArgs_reads in Hreads as (n & _ & Hlog & Hdsp & _).
  cbn [st_dsp st_log app] in Hlog, Hdsp. subst d1 l1.
  pose proof Hdec as Hkinds.
  rewrite (surjective_pairing (loopStart recv)) in Hkinds.
  apply decodeArgs_kinds in Hkinds as (ext & Hca & Hext).
  destruct (IsNil meth) eqn:Hnil.
  { unfold invoke, loopStart, loopOffset in *.
    destruct recv; rewrite bind_run, Hdec, Hnil in Hrun;
      injection Hrun as <- <-; cbn [st_log st_dsp];
      rewrite userCalls_slotReads; by destruct meth. }
  pose proof Hdec as Hdec'. unfold loopStart, loopOffset in Hdec'.
  rewrite (invoke_run user mem _ _ _ _ _ _ _ _ Hnil Hdec'), bind_run in Hrun.
  destruct (checkCall (Type_ meth) ca) as [[]|p] eqn:Hcheck.
  2:{ rewrite (Call_panic user _ _ _ _ Hcheck) in Hrun. injection Hrun as <- <-.
      cbn [st_log st_dsp]. rewrite userCalls_slotReads.
      split; [done |]. destruct meth; by eauto. }
  rewrite (Call_run user _ _ _ _ Hcheck) in Hrun.
  destruct meth as [m | owner fname ft f].
  - destruct (callMethod user m ca _) as [r1 st1] eqn:Hbody.
    apply callMethod_effect in Hbody as (body & Hlog & Hbody).
    assert (st_log st' = st_log st1 ∧ st_dsp st' = st_dsp st1
            ∧ (r1 = Returns tt → r = Returns 0)
            ∧ (∀ p, r1 = Panics p → r = Panics p)) as (-> & -> & Hret & Hpan).
    { destruct r1 as [[]|p]; injection Hrun as <- <-;
        repeat split; try done; by intros ? [= ->]. }
    rewrite Hlog, !userCalls_app, userCalls_slotReads. cbn [userCalls List.filter
      isUserCall app].
    destruct (userCalls body) as [|[| | | |f vs|] [|e rest]]; try done.
    { destruct Hbody as (Hp & p & Hr). split; [done |]. by eauto. }
    destruct (user f vs (proxies d)) as [px1|p];
      [| destruct Hbody as [Hr Hp]; by auto].
    destruct Hbody as (Hr & t & o & rest & Hca' & Hpx).
    split; [by auto |].
    destruct recv as [r0|]; cbn [loopStart snd app] in Hca.
    2:{ rewrite Hca in Hca'. subst ext.
        apply Forall_cons in Hext as [Hv _].
        destruct t; vm_compute in Hv; done. }
    rewrite Hca in Hca'. injection Hca' as -> <-.
    exists t, o. split; [done |].
    destruct m; try done.
    exfalso. apply (checkCall_SyncOutput [VRecv t o] ext); [done | done |].
    by rewrite Hca in Hcheck.
  - destruct f as [fn|]; [| done].
    rewrite callFn_run in Hrun.
    destruct (user fn ca (proxies d)) as [px1|p] eqn:Hu;
      injection Hrun as <- <-; cbn [st_log st_dsp proxies];
      rewrite !userCalls_app, userCalls_slotReads; cbn; by rewrite Hu.
Qed.

Lemma dispatcher_effect user mem (dsp : Display) target opcode msg args :
  let r := run (dispatcher user mem target opcode msg args) dsp in
  let px' := proxies (st_dsp (snd r)) in
  match userCalls (st_log (snd r)) with
  | [] =>
    px' = proxies dsp
    ∧ ∀ obj, proxies dsp !! target = Some obj → is_Some (internal obj) →
             ∃ p, fst r = Panics p
  | [EvUser f vs] =>
    match user f vs (proxies dsp) with
    | Panics p => fst r = Panics p ∧ px' = proxies dsp
    | Returns px1 =>
      fst r = Returns 0
      ∧ ∃ obj, proxies dsp !! target = Some obj
               ∧ px' = if internal obj is Some _ then delete (hndOf obj) px1
                       else px1
    end
  | _ => False
  end.
Proof.
  cbn zeta. unfold run, dispatcher. mstep.
  destruct (proxies dsp !! target) as [obj|] eqn:Hobj; [| done].
  mstep. destruct (methodName (name msg)) as [methName|];
    [| cbn; split; [done |]; by eauto].
  rewrite bind_run.
  destruct (resolve obj methName _) as [[[meth recv]|p] [d1 l1]] eqn:Hres;
    destruct (resolve_lookups _ _ _ _ _ Hres) as (l & Hl & Hlooks & _);
    pose proof (resolve_proxies _ _ _ _ _ Hres) as Hpx;
    cbn [st_log st_dsp app] in Hl, Hpx; subst l1.
  2:{ cbn [fst snd st_log st_dsp]. rewrite userCalls_lookups by done.
      split; [done |]. by eauto. }
  pose proof (resolve_inv obj methName dsp (meth, recv)
                {| st_dsp := d1; st_log := l |} Hres) as Hinv.
  destruct (IsNil meth) eqn:Hnil.
  { cbn [fst snd st_log st_dsp mret M_ret]. rewrite userCalls_lookups by done.
    split; [done |]. intros obj' [= <-] [typ Htyp]. rewrite Htyp in Hinv.
    destruct Hinv as (tmeth & [= -> ->] & _). done. }
  rewrite (framed_invoke user mem meth recv (signature msg) args d1 l).
  destruct (invoke user mem meth recv (signature msg) args
              {| st_dsp := d1; st_log := [] |}) as [r st'] eqn:Hinvoke.
  cbn [fst snd st_log st_dsp].
  rewrite userCalls_app, userCalls_lookups by done. cbn [app].
  apply invoke_effect in Hinvoke. rewrite Hpx in Hinvoke.
  destruct (userCalls (st_log st')) as [|[| | | |f vs|] [|e rest]]; try done.
  { destruct Hinvoke as [Hp Hr]. split; [done |].
    intros obj' [= <-] [typ Htyp]. rewrite Htyp in Hinv.
    by destruct Hinv as (tmeth & [= -> ->] & _). }
  destruct (user f vs (proxies dsp)) as [px1|p]; [| done].
  destruct Hinvoke as [-> Hinvoke]. split; [done |]. exists obj. split; [done |].
  destruct (internal obj) as [typ|].
  - destruct Hinv as (tmeth & [= -> ->] & _).
    by destruct Hinvoke as (t & o & [= <- <-] & ->).
  - by destruct Hinv as (ft & f0 & [= -> ->] & _).
Qed.



(** ** Objects under their own handle *)

Lemma keyed_insert px h o : keyed px → hndOf o = h → keyed (<[h := o]> px).
Proof.
  intros Hk Hh h' o' Hl. destruct (decide (h' = h)) as [-> | Hne].
  - rewrite lookup_insert_eq in Hl. by injection Hl as <-.
  - rewrite lookup_insert_ne in Hl by done. by apply Hk.
Qed.

Lemma keyed_delete px h : keyed px → keyed (delete h px).
Proof.
  intros Hk h' o' Hl. apply lookup_delete_Some in Hl as [_ Hl]. by apply Hk.
Qed.

(** Every object sits in the proxy table under its own handle, and this
    stays so: the functions that make an object register it under the
    handle they put into it, [Destroy] and the dispatcher only remove,
    and the user functions change the table through these only. *)
Theorem keyed_invariant user mem (dsp : Display) :
  keyed (proxies dsp) →
  (∀ c, keyed (proxies (create c dsp)))
  ∧ (∀ o m l, Destroy o = Some m →
              keyed (proxies (st_dsp (snd (m {| st_dsp := dsp; st_log := l |})))))
  ∧ (∀ target opcode msg args,
       (∀ f vs px1, user f vs (proxies dsp) = Returns px1 → keyed px1) →
       keyed (proxies (st_dsp (snd (run (dispatcher user mem target opcode
                                           msg args) dsp))))).
Proof.
  intros Hk. split; [| split].
  - intros c. unfold create. cbn [add proxies]. by apply keyed_insert.
  - intros o m l Hm. unfold Destroy in Hm.
    destruct (destroyRequest o) as [req|]; [| done].
    injection Hm as <-. unfold dsp_forget. mrun. cbn [snd].
    by apply keyed_delete.
  - intros target opcode msg args Huser.
    pose proof (dispatcher_effect user mem dsp target opcode msg args) as He.
    cbn zeta in He.
    destruct (userCalls _) as [|[| | | |f vs|] [|e rest]]; try done.
    + destruct He as [-> _]. done.
    + destruct (user f vs (proxies dsp)) as [px1|p] eqn:Hu.
      * destruct He as (_ & obj & _ & ->). apply Huser in Hu.
        destruct (internal obj); [by apply keyed_delete | done].
      * by destruct He as [_ ->].
Qed.

Lemma keyed_invariant_witness :
  keyed (proxies (create (Display_Sync 7 (Some 0%nat)) Connect))
  ∧ keyed (proxies (st_dsp (snd (run (dispatcher userSkip noMem 7 0
                                        {| name := "done"; signature := "u" |}
                                        [5])
                                   (create (Display_Sync 7 (Some 0%nat))
                                      Connect))))).
Proof.
  assert (keyed (proxies Connect)) as Hk.
  { intros h o Hl. cbn in Hl. by rewrite lookup_empty in Hl. }
  split.
  - exact (proj1 (keyed_invariant userSkip noMem Connect Hk)
             (Display_Sync 7 (Some 0%nat))).
  - assert (keyed (proxies (create (Display_Sync 7 (Some 0%nat)) Connect)))
      as Hk'.
    { unfold create. cbn [add proxies]. by apply keyed_insert. }
    apply (proj2 (proj2 (keyed_invariant userSkip noMem _ Hk'))).
    by intros f vs px1 [= <-].
Defined.

(** Callbacks and presentation feedbacks are used once.  A message to
    one of them, registered under its own handle, panics or enters
    exactly one user function, returns 0 and leaves no object under the
    handle, whatever the function did to the table. *)
Theorem dispatcher_delegated_one_shot
    user mem (dsp : Display) target opcode msg args obj :
  let r := run (dispatcher user mem target opcode msg args) dsp in
  proxies dsp !! target = Some obj →
  hndOf obj = target →
  is_Some (internal obj) →
  (∃ p, fst r = Panics p)
  ∨ (fst r = Returns 0
     ∧ proxies (st_dsp (snd r)) !! target = None
     ∧ ∃ f vs, userCalls (st_log (snd r)) = [EvUser f vs]).
Proof.
  intros r Hobj Hh Hint. subst r.
  pose proof (dispatcher_effect user mem dsp target opcode msg args) as He.
  cbn zeta in He.
  destruct (userCalls _) as [|[| | | |f vs|] [|e rest]]; try done.
  - left. by apply (proj2 He obj).
  - destruct (user f vs (proxies dsp)) as [px1|p].
    + right. destruct He as (-> & obj' & Hobj' & ->).
      rewrite Hobj in Hobj'. injection Hobj' as <-.
      destruct Hint as [typ ->]. rewrite Hh.
      split; [done |]. split; [apply lookup_delete_eq | by eauto].
    + left. exists p. by destruct He.
Qed.

Lemma dispatcher_delegated_one_shot_witness :
  let r := run (dispatcher userSkip noMem 7 0
                  {| name := "done"; signature := "u" |} [5])
             (create (Display_Sync 7 (Some 0%nat)) Connect) in
  (∃ p, fst r = Panics p)
  ∨ (fst r = Returns 0
     ∧ proxies (st_dsp (snd r)) !! 7 = None
     ∧ ∃ f vs, userCalls (st_log (snd r)) = [EvUser f vs]).
Proof.
  apply (dispatcher_delegated_one_shot userSkip noMem
           (create (Display_Sync 7 (Some 0%nat)) Connect) 7 0
           {| name := "done"; signature := "u" |} [5]
           (created (Display_Sync 7 (Some 0%nat)))).
  - reflexivity.
  - reflexivity.
  - by eexists.
Defined.

(** ** Integer arguments *)

Lemma wrap_signed_unsigned_32 n :
  wrap_signed 32 (wrap_unsigned 32 n) = wrap_signed 32 n.
Proof. unfold wrap_signed, wrap_unsigned. by rewrite Zplus_mod_idemp_l. Qed.

Lemma wrap_unsigned_signed_32 n :
  wrap_unsigned 32 (wrap_signed 32 n) = wrap_unsigned 32 n.
Proof.
  unfold wrap_signed, wrap_unsigned. rewrite Zminus_mod_idemp_l.
  f_equal. lia.
Qed.

Lemma mod_64_32 n : (n mod 2 ^ 64) mod 2 ^ 32 = n mod 2 ^ 32.
Proof.
  apply Z.mod_mod_divide. exists (2 ^ 32). reflexivity.
Qed.

(** An integer argument ([i], [u] or [o]) for a parameter of an integer
    kind is handed on as a value of the parameter type that keeps the low
    32 bits of the slot: the signed or unsigned 32-bit value itself where
    the parameter can hold it, its reinterpretation otherwise (a negative
    [i] becomes a large [uint]).  For a parameter that is neither of an
    integer nor of the string kind the conversion panics, after the slot
    has been read. *)
Theorem decodeStep_integer
    mem meth (args : list Z) argOffset c i callArgs dsp log slot t :
  let src := if c =? rune "i" then TInt32 else TUint32 in
  let view := if c =? rune "i" then asInt32 slot else asUint32 slot in
  let st' := {| st_dsp := dsp; st_log := log ++ [EvReadSlot (i + argOffset)] |} in
  let r := decodeStep mem meth args argOffset c (i, callArgs)
             {| st_dsp := dsp; st_log := log |} in
  c = rune "i" ∨ c = rune "u" ∨ c = rune "o" →
  0 ≤ i + argOffset →
  args !! Z.to_nat (i + argOffset) = Some slot →
  In_ (Type_ meth) i = Returns t →
  (isIntKind (kind t) = true →
   ∃ n, r = (Returns (i + 1, callArgs ++ [VInt t n]), st')
        ∧ n mod 2 ^ 32 = slot mod 2 ^ 32
        ∧ match kind t with
          | KInt32 => n = asInt32 slot
          | KUint32 => n = asUint32 slot
          | KInt => n = view
          | _ => n = view mod 2 ^ 64
          end)
  ∧ (isIntKind (kind t) = false → kind t ≠ KString →
     r = (Panics (PConvert src t), st')).
Proof.
  intros src view st' r Hc Hk Hslot Hin. subst r st'.
  pose proof (asInt32_range slot) as Hi32.
  pose proof (asUint32_range slot) as Hu32.
  assert (asInt32 slot mod 2 ^ 32 = slot mod 2 ^ 32) as Hlow_i.
  { apply (wrap_unsigned_signed_32 slot). }
  assert (asUint32 slot mod 2 ^ 32 = slot mod 2 ^ 32) as Hlow_u.
  { apply (wrap_unsigned_idem 32 slot). }
  assert (decodeStep mem meth args argOffset c (i, callArgs)
            {| st_dsp := dsp; st_log := log |}
          = match Convert src view t with
            | Returns v =>
              (Returns (i + 1, callArgs ++ [v]),
               {| st_dsp := dsp;
                  st_log := log ++ [EvReadSlot (i + argOffset)] |})
            | Panics p =>
              (Panics p,
               {| st_dsp := dsp;
                  st_log := log ++ [EvReadSlot (i + argOffset)] |})
            end) as ->.
  { subst src view.
    destruct Hc as [-> | [-> | ->]];
      [rewrite decodeStep_i_eq | rewrite decodeStep_u_eq | rewrite decodeStep_o_eq];
      change (rune _ =? rune "i") with true || change (rune _ =? rune "i") with false;
      cbn match;
      rewrite bind_run, (readSlot_run _ _ _ _ _ Hk Hslot);
      mrun; rewrite Hin; mrun;
      match goal with |- context [Convert ?a ?b ?c] => by destruct (Convert a b c) end. }
  assert (view = asInt32 slot ∨ view = asUint32 slot) as Hview.
  { subst view. destruct (c =? rune "i"); by auto. }
  assert (view mod 2 ^ 32 = slot mod 2 ^ 32) as Hlow.
  { by destruct Hview as [-> | ->]. }
  assert (- 2 ^ 63 ≤ view < 2 ^ 63) as Hrange by (destruct Hview as [-> | ->]; lia).
  unfold Convert. split.
  - intros Hint. destruct (kind t) eqn:Hkind; try discriminate Hint;
      eexists; (split; [reflexivity |]).
    + rewrite (wrap_signed_small 64) by done. done.
    + split; [| destruct Hview as [-> | ->];
                [by apply wrap_signed_small | apply wrap_signed_unsigned_32]].
      fold (wrap_unsigned 32 (wrap_signed 32 view)) (wrap_unsigned 32 slot).
      rewrite wrap_unsigned_signed_32. exact Hlow.
    + split; [| done]. unfold wrap_unsigned. by rewrite mod_64_32.
    + split; [| destruct Hview as [-> | ->];
                [apply wrap_unsigned_signed_32 | apply wrap_unsigned_idem]].
      unfold wrap_unsigned. by rewrite Zmod_mod.
  - intros Hint Hstr. by destruct (kind t).
Qed.

Lemma decodeStep_integer_witness :
  ∃ n, decodeStep noMem example_configure [-1] 0 (rune "i") (0, [])
         {| st_dsp := Connect; st_log := [] |}
       = (Returns (0 + 1, [] ++ [VInt TInt32 n]),
          {| st_dsp := Connect; st_log := [] ++ [EvReadSlot (0 + 0)] |})
       ∧ n mod 2 ^ 32 = -1 mod 2 ^ 32
       ∧ n = asInt32 (-1).
Proof.
  apply (proj1 (decodeStep_integer noMem example_configure [-1] 0 (rune "i")
                  0 [] Connect [] (-1) TInt32 (or_introl eq_refl)
                  ltac:(done) eq_refl eq_refl)).
  reflexivity.
Defined.
